(** * A shallow embedding of the peer engine of the MMT file-sharing node

    The development follows the Python sources:
    - [node/transfer.py]: [PieceManager] (piece accounting and SHA-1
      verification) and [PeerConnection] (handshake, receive loop);
    - [node/peer.py]: the tracker announce client;
    - [node/magnet_utils.py]: magnet links.

    Python integers that are indexes or lengths are natural numbers, byte
    strings are lists of bytes, [str] values are Rocq strings, dictionaries and
    sets are stdpp's [gmap] and [gset].  What the operating system decides (a
    socket call that fails, the bytes a peer sends, a file that cannot be
    written, the random generator) is an explicit argument of the operation
    that asks for it.  A file is known by its path below the directory of the
    torrent, as the file system resolves it. *)

From Stdlib Require Import ZArith QArith Strings.Byte Ascii String.
From Stdlib Require Import DecimalString DecimalNat DecimalFacts.
From stdpp Require Import gmap strings list fin_maps pretty.

#[local] Open Scope string_scope.
#[local] Open Scope list_scope.
#[local] Open Scope nat_scope.

(** ** Bytes and hexadecimal text *)

Abbreviation bytes := (list byte).

Definition byte_val (b : byte) : nat := N.to_nat (Byte.to_N b).

Definition byte_of_nat (n : nat) : byte :=
  match Byte.of_N (N.of_nat (n mod 256)) with
  | Some b => b
  | None => x00
  end.

Definition hex_digit (n : nat) : ascii :=
  match n with
  | 0 => "0" | 1 => "1" | 2 => "2" | 3 => "3" | 4 => "4" | 5 => "5"
  | 6 => "6" | 7 => "7" | 8 => "8" | 9 => "9" | 10 => "a" | 11 => "b"
  | 12 => "c" | 13 => "d" | 14 => "e" | _ => "f"
  end%char.

(** [bytes.hex()]: two lower-case digits per byte. *)
Fixpoint hex (bs : bytes) : string :=
  match bs with
  | [] => EmptyString
  | b :: rest =>
      String (hex_digit (byte_val b / 16))
        (String (hex_digit (byte_val b mod 16)) (hex rest))
  end.

(** The value of a hexadecimal digit, in either case. *)
Definition hex_value (c : ascii) : option nat :=
  let n := nat_of_ascii c in
  if (48 <=? n) && (n <=? 57) then Some (n - 48)
  else if (97 <=? n) && (n <=? 102) then Some (n - 87)
  else if (65 <=? n) && (n <=? 70) then Some (n - 55)
  else None.

(** ASCII white space, which [bytes.fromhex] skips between bytes. *)
Definition is_space (c : ascii) : bool :=
  let n := nat_of_ascii c in
  (n =? 32) || ((9 <=? n) && (n <=? 13)).

(** [bytes.fromhex(s)]: [None] stands for the [ValueError] it raises. *)
Fixpoint fromhex (s : string) : option bytes :=
  match s with
  | EmptyString => Some []
  | String c rest =>
      if is_space c then fromhex rest
      else
        match rest with
        | EmptyString => None
        | String d rest' =>
            match hex_value c, hex_value d, fromhex rest' with
            | Some h, Some l, Some bs => Some (byte_of_nat (16 * h + l) :: bs)
            | _, _, _ => None
            end
        end
  end.

(** [int.from_bytes(bs, byteorder='big')]. *)
Definition int_from_bytes (bs : bytes) : nat :=
  foldl (fun acc b => 256 * acc + byte_val b) 0 bs.

(** Python's slice [xs[lo:hi]] for [0 <= lo <= hi]. *)
Definition slice {A} (lo hi : nat) (xs : list A) : list A :=
  take (hi - lo) (drop lo xs).

(** ** SHA-1 ([hashlib.sha1]), after FIPS 180-4

    Words are integers below [2^32]; additions wrap around. *)

Module SHA1.

#[local] Open Scope Z_scope.

Definition w32 (x : Z) : Z := x mod 2 ^ 32.

Definition rotl (n x : Z) : Z :=
  w32 (Z.lor (Z.shiftl x n) (Z.shiftr x (32 - n))).

Definition add32 (x y : Z) : Z := w32 (x + y).

Definition bz (b : byte) : Z := Z.of_N (Byte.to_N b).

(** The eight bytes of the bit length, most significant first. *)
Definition length_bytes (bits : Z) : list Z :=
  map (fun i : nat => (bits / 2 ^ (8 * (7 - Z.of_nat i))) mod 256) (seq 0 8).

(** Padding: a one bit, zeros up to 56 modulo 64, then the length. *)
Definition pad (msg : bytes) : list Z :=
  let n := length msg in
  let zeros := ((119 - n mod 64) mod 64)%nat in
  map bz msg ++ [128] ++ repeat 0 zeros ++ length_bytes (8 * Z.of_nat n).

Fixpoint words (bs : list Z) : list Z :=
  match bs with
  | a :: b :: c :: d :: rest =>
      (((a * 256 + b) * 256 + c) * 256 + d) :: words rest
  | _ => []
  end.

Fixpoint chunks {A} (fuel size : nat) (xs : list A) : list (list A) :=
  match fuel with
  | O => []
  | S fuel' =>
      match xs with
      | [] => []
      | _ => take size xs :: chunks fuel' size (drop size xs)
      end
  end.

(** The message schedule, newest word first: [sched] holds W(t-1), W(t-2),
    ... so that W(t-3), W(t-8), W(t-14) and W(t-16) sit at positions
    2, 7, 13 and 15. *)
Fixpoint extend (n : nat) (sched : list Z) : list Z :=
  match n with
  | O => sched
  | S n' =>
      let w := rotl 1 (Z.lxor (Z.lxor (nth 2 sched 0) (nth 7 sched 0))
                              (Z.lxor (nth 13 sched 0) (nth 15 sched 0))) in
      extend n' (w :: sched)
  end.

Definition schedule (block : list Z) : list Z :=
  rev (extend 64 (rev (words block))).

Definition lnot32 (x : Z) : Z := Z.lxor x (2 ^ 32 - 1).

Definition f (t : nat) (b c d : Z) : Z :=
  if (t <? 20)%nat then Z.lor (Z.land b c) (Z.land (lnot32 b) d)
  else if (t <? 40)%nat then Z.lxor (Z.lxor b c) d
  else if (t <? 60)%nat then
    Z.lor (Z.lor (Z.land b c) (Z.land b d)) (Z.land c d)
  else Z.lxor (Z.lxor b c) d.

Definition k (t : nat) : Z :=
  if (t <? 20)%nat then 0x5A827999
  else if (t <? 40)%nat then 0x6ED9EBA1
  else if (t <? 60)%nat then 0x8F1BBCDC
  else 0xCA62C1D6.

Record regs := Regs { ra : Z; rb : Z; rc : Z; rd : Z; re : Z }.

Definition round (r : regs) (tw : nat * Z) : regs :=
  let '(t, w) := tw in
  let temp :=
    add32 (add32 (add32 (add32 (rotl 5 (ra r)) (f t (rb r) (rc r) (rd r)))
                        (re r)) (k t)) w in
  Regs temp (ra r) (rotl 30 (rb r)) (rc r) (rd r).

Definition compress (h : regs) (block : list Z) : regs :=
  let ws := schedule block in
  let r := fold_left round (combine (seq 0 80) ws) h in
  Regs (add32 (ra h) (ra r)) (add32 (rb h) (rb r)) (add32 (rc h) (rc r))
       (add32 (rd h) (rd r)) (add32 (re h) (re r)).

Definition init : regs :=
  Regs 0x67452301 0xEFCDAB89 0x98BADCFE 0x10325476 0xC3D2E1F0.

Definition word_bytes (w : Z) : bytes :=
  map (fun i : nat =>
         byte_of_nat (Z.to_nat ((w / 2 ^ (8 * (3 - Z.of_nat i))) mod 256)))
      (seq 0 4).

Definition digest (msg : bytes) : bytes :=
  let p := pad msg in
  let h := fold_left compress (chunks (length p) 64 p) init in
  word_bytes (ra h) ++ word_bytes (rb h) ++ word_bytes (rc h)
    ++ word_bytes (rd h) ++ word_bytes (re h).

(** [hashlib.sha1(data).hexdigest()]. *)
Definition hexdigest (msg : bytes) : string := hex (digest msg).

End SHA1.

(** ** Exceptions

    A method that may raise returns a [result]; an exception that the method
    catches itself does not show in its type. *)

Inductive exn :=
  | IndexError | ValueError | ConnectionError | ZeroDivisionError
  | OSError | AttributeError | OverflowError.

Inductive result (A : Type) :=
  | Returns (a : A)
  | Raises (e : exn).
Arguments Returns {A} a.
Arguments Raises {A} e.

Definition bind {A B} (r : result A) (k : A -> result B) : result B :=
  match r with
  | Returns a => k a
  | Raises e => Raises e
  end.

Notation "'do' x <- r ; k" := (bind r (fun x => k))
  (at level 10, x name, r at level 100, k at level 200).

(** [random.choice(seq)] draws an index below [len(seq)]; the draw is the
    argument [r], reduced modulo the length so that every draw is legal and
    every element can be drawn. *)
Definition random_choice {A} (r : nat) (xs : list A) : option A :=
  xs !! (r mod length xs).

(** ** [class PieceManager] *)

(** ** The directory of a torrent

    The piece files and the payload files lie in the same directory
    [torrent_dir]; the file of piece [i] is [f"piece_{i}.tmp"]. *)

Definition piece_file_name (i : nat) : string :=
  "piece_" +:+ NilZero.string_of_uint (Nat.to_uint i) +:+ ".tmp".

(** The piece index of a path that is the name of a piece file. *)
Definition as_piece (path : string) : option nat :=
  match NilZero.uint_of_string
          (substring 6 (String.length path - 10) path) with
  | Some digits =>
      let i := Nat.of_uint digits in
      if bool_decide (piece_file_name i = path) then Some i else None
  | None => None
  end.

(** The directory in two views: the piece files by index and all files by
    path.  Writing and removing keep the two in step. *)
Definition disk : Type := gmap nat bytes * gmap string bytes.

Definition write_file (path : string) (content : bytes) (d : disk) : disk :=
  (match as_piece path with
   | Some i => <[i := content]> d.1
   | None => d.1
   end,
   <[path := content]> d.2).

Definition write_piece_file (i : nat) (content : bytes) (d : disk) : disk :=
  (<[i := content]> d.1, <[piece_file_name i := content]> d.2).

Definition unlink_piece_file (i : nat) (d : disk) : disk :=
  (delete i d.1, delete (piece_file_name i) d.2).

Module PieceManager.

(** The attributes of the object, and what [torrent_dir] holds, in the two
    views of [disk]: [piece_files] are the piece files [piece_<i>.tmp] by
    index, [payload_files] the files by path. *)
Record t := Build {
  piece_length : nat;
  piece_count : nat;
  files : list (string * nat);          (* path, length *)
  have_pieces : list bool;
  requested_pieces : gset nat;
  piece_hashes : list string;
  bytes_downloaded : nat;
  bytes_uploaded : nat;
  piece_files : gmap nat bytes;
  payload_files : gmap string bytes
}.

Definition set_have_pieces (h : list bool) (pm : t) : t :=
  Build (piece_length pm) (piece_count pm) (files pm) h
    (requested_pieces pm) (piece_hashes pm) (bytes_downloaded pm)
    (bytes_uploaded pm) (piece_files pm) (payload_files pm).

Definition set_requested_pieces (r : gset nat) (pm : t) : t :=
  Build (piece_length pm) (piece_count pm) (files pm) (have_pieces pm)
    r (piece_hashes pm) (bytes_downloaded pm)
    (bytes_uploaded pm) (piece_files pm) (payload_files pm).

Definition set_bytes_downloaded (n : nat) (pm : t) : t :=
  Build (piece_length pm) (piece_count pm) (files pm) (have_pieces pm)
    (requested_pieces pm) (piece_hashes pm) n
    (bytes_uploaded pm) (piece_files pm) (payload_files pm).

Definition set_bytes_uploaded (n : nat) (pm : t) : t :=
  Build (piece_length pm) (piece_count pm) (files pm) (have_pieces pm)
    (requested_pieces pm) (piece_hashes pm) (bytes_downloaded pm)
    n (piece_files pm) (payload_files pm).

Definition set_disk (pf : gmap nat bytes) (out : gmap string bytes)
    (pm : t) : t :=
  Build (piece_length pm) (piece_count pm) (files pm) (have_pieces pm)
    (requested_pieces pm) (piece_hashes pm) (bytes_downloaded pm)
    (bytes_uploaded pm) pf out.

(** [set_piece_hashes] *)
Definition set_piece_hashes (hashes : list string) (pm : t) : t :=
  Build (piece_length pm) (piece_count pm) (files pm) (have_pieces pm)
    (requested_pieces pm) hashes (bytes_downloaded pm)
    (bytes_uploaded pm) (piece_files pm) (payload_files pm).

(** [verify_piece]: without a hash for the index the piece passes. *)
Definition verify_piece (pm : t) (piece_index : nat) (data : bytes) : bool :=
  match piece_hashes pm !! piece_index with
  | None => true
  | Some expected_hash =>
      bool_decide (SHA1.hexdigest data = expected_hash)
  end.

Definition total_size (pm : t) : nat :=
  foldr (fun f acc => snd f + acc) 0 (files pm).

(** [bytes_left] *)
Definition bytes_left (pm : t) : nat :=
  total_size pm - bytes_downloaded pm.

(** The inner loop of [_check_existing_data]: a piece file found on disk
    marks its piece as held, after verification when a hash is there. *)
Definition check_piece (pm : t) (i : nat) : t :=
  match piece_files pm !! i with
  | None => pm
  | Some data =>
      if bool_decide (i < length (piece_hashes pm)) then
        if verify_piece pm i data
        then set_have_pieces (<[i:=true]> (have_pieces pm)) pm
        else pm
      else set_have_pieces (<[i:=true]> (have_pieces pm)) pm
  end.

(** [_check_existing_data]: the inner loop runs once for every payload
    file. *)
Definition _check_existing_data (pm : t) : t :=
  let total_expected_size := total_size pm in
  let total_existing_size :=
    foldl (fun acc f =>
             match payload_files pm !! fst f with
             | Some content => acc + length content
             | None => acc
             end) 0 (files pm) in
  let pm1 :=
    foldl (fun st _ => foldl check_piece st (seq 0 (piece_count st)))
          pm (files pm) in
  if 0 <? total_expected_size
  then set_bytes_downloaded (total_existing_size `min` total_expected_size) pm1
  else pm1.

(** [__init__]; the last two arguments are what [torrent_dir] holds. *)
Definition __init__ (piece_length piece_count : nat)
    (files : list (string * nat))
    (piece_files : gmap nat bytes) (payload_files : gmap string bytes) : t :=
  _check_existing_data
    (Build piece_length piece_count files (replicate piece_count false)
           ∅ [] 0 0 piece_files payload_files).

(** [get_rarest_piece] *)
Definition get_rarest_piece (r : nat) (candidates : list nat) : option nat :=
  match candidates with
  | [] => None
  | _ => random_choice r candidates
  end.

(** The test of the loop of [get_next_request], with the short-circuit
    evaluation of [and]: a list is only indexed when the tests before it
    have passed. *)
Definition is_candidate (pm : t) (peer_has_pieces : list bool) (i : nat)
    : result bool :=
  match have_pieces pm !! i with
  | None => Raises IndexError
  | Some true => Returns false
  | Some false =>
      if bool_decide (i ∈ requested_pieces pm) then Returns false
      else match peer_has_pieces !! i with
           | None => Raises IndexError
           | Some b => Returns b
           end
  end.

Fixpoint collect_candidates (pm : t) (peer_has_pieces : list bool)
    (indexes : list nat) : result (list nat) :=
  match indexes with
  | [] => Returns []
  | i :: rest =>
      do c <- is_candidate pm peer_has_pieces i;
      do cs <- collect_candidates pm peer_has_pieces rest;
      Returns (if c : bool then i :: cs else cs)
  end.

(** [get_next_request]; [r] is the draw of the random generator. *)
Definition get_next_request (r : nat) (peer_has_pieces : list bool) (pm : t)
    : result (option nat * t) :=
  do candidates <-
    collect_candidates pm peer_has_pieces (seq 0 (piece_count pm));
  match candidates with
  | [] => Returns (None, pm)
  | first :: _ =>
      match get_rarest_piece r candidates with
      | Some rarest_piece =>
          Returns (Some rarest_piece,
                   set_requested_pieces
                     ({[rarest_piece]} ∪ requested_pieces pm) pm)
      | None =>
          Returns (Some first,
                   set_requested_pieces ({[first]} ∪ requested_pieces pm) pm)
      end
  end.

(** What the file system answers during one call of [receive_piece]:
    whether the piece file can be written, and whether the payload files can
    be created; a refused operation raises [OSError] and leaves the files as
    they were.  Then which piece files [os.unlink] removes, a failure being
    logged and the file kept; and, for a payload file that is read back
    under its other name of a piece file while it is open for writing, how
    many of the bytes written so far have reached the disk. *)
Record storage := Storage {
  can_write : bool;
  can_assemble : bool;
  can_unlink : nat -> bool;
  flushed : string -> nat
}.

(** The bytes that the piece file [content] of [piece_index] gives to the
    payload file that starts at [offset] of the piece stream. *)
Definition piece_part (pm : t) (offset file_length first_piece last_piece
    piece_index : nat) (content : bytes) : bytes :=
  let first_piece_offset := offset mod piece_length pm in
  let data :=
    if bool_decide (piece_index = first_piece) && (0 <? first_piece_offset)
    then drop first_piece_offset content
    else content in
  if bool_decide (piece_index = last_piece) then
    let bytes_needed := offset + file_length - piece_index * piece_length pm in
    if bytes_needed <? length data then take bytes_needed data else data
  else data.

(** The bytes written to the payload file [path], which has just been
    opened for writing: the loop over the pieces from [first_piece] to
    [last_piece].  A piece file that does not exist is skipped.  The piece
    file that is the payload file itself exists, and shows what has reached
    the disk of the bytes written so far. *)
Definition file_content (io : storage) (pm : t) (path : string)
    (offset file_length : nat) (pf : gmap nat bytes) : bytes :=
  let first_piece := offset / piece_length pm in
  let last_piece :=
    if 0 <? file_length
    then (offset + file_length - 1) / piece_length pm
    else first_piece in
  foldl (fun written piece_index =>
           let on_disk :=
             if bool_decide (as_piece path = Some piece_index)
             then Some (take (flushed io path) written)
             else pf !! piece_index in
           match on_disk with
           | Some content =>
               written ++ piece_part pm offset file_length first_piece
                            last_piece piece_index content
           | None => written
           end)
        [] (seq first_piece (last_piece + 1 - first_piece)).

(** The loop over [self.files] of [_assemble_files]: the offset of the next
    file and the directory.  [open(file_path, 'wb')] empties the file before
    the pieces are read. *)
Definition assemble_step (io : storage) (pm : t) (st : nat * disk)
    (f : string * nat) : nat * disk :=
  let '(offset, d) := st in
  let opened := write_file (fst f) [] d in
  (offset + snd f,
   write_file (fst f)
     (file_content io pm (fst f) offset (snd f) opened.1) opened).

(** The loop that removes the piece files that exist. *)
Definition remove_piece_files (io : storage) (pm : t) (d : disk) : disk :=
  foldl (fun d i =>
           match d.1 !! i with
           | Some _ => if can_unlink io i then unlink_piece_file i d else d
           | None => d
           end)
        d (seq 0 (piece_count pm)).

(** [_assemble_files].  With [piece_length = 0] the first division raises
    [ZeroDivisionError], after the first payload file has been opened for
    writing. *)
Definition _assemble_files (io : storage) (pm : t) : result () * t :=
  let d : disk := (piece_files pm, payload_files pm) in
  match files pm with
  | f :: _ =>
      if piece_length pm =? 0 then
        let opened := write_file (fst f) [] d in
        (Raises ZeroDivisionError, set_disk opened.1 opened.2 pm)
      else
        let written := snd (foldl (assemble_step io pm) (0, d) (files pm)) in
        let cleaned := remove_piece_files io pm written in
        (Returns (), set_disk cleaned.1 cleaned.2 pm)
  | [] =>
      let cleaned := remove_piece_files io pm d in
      (Returns (), set_disk cleaned.1 cleaned.2 pm)
  end.

(** [receive_piece].  The [try] block catches every exception and turns it
    into [False]; what was assigned before the exception stays assigned. *)
Definition receive_piece (io : storage) (piece_index : nat) (data : bytes)
    (pm : t) : bool * t :=
  if piece_length pm <? length data then (false, pm)
  else if negb (verify_piece pm piece_index data) then
    (false, set_requested_pieces (requested_pieces pm ∖ {[piece_index]}) pm)
  else if negb (can_write io) then (false, pm)
  else
    let written :=
      write_piece_file piece_index data (piece_files pm, payload_files pm) in
    let pm1 := set_disk written.1 written.2 pm in
    if bool_decide (piece_index < length (have_pieces pm1)) then
      let pm2 :=
        set_bytes_downloaded (bytes_downloaded pm1 + length data)
          (set_requested_pieces (requested_pieces pm1 ∖ {[piece_index]})
             (set_have_pieces (<[piece_index := true]> (have_pieces pm1))
                pm1)) in
      if forallb id (have_pieces pm2) then
        if can_assemble io then
          match _assemble_files io pm2 with
          | (Returns _, pm3) => (true, pm3)
          | (Raises _, pm3) => (false, pm3)
          end
        else (false, pm2)
      else (true, pm2)
    else (false, pm1).

End PieceManager.

(** ** [class PeerConnection] *)

(** The four bytes of [n.to_bytes(4, byteorder='big')], for [n] below
    [2^32]. *)
Definition to_bytes4 (n : nat) : bytes :=
  let m := N.of_nat n in
  map (fun k : N => byte_of_nat (N.to_nat (N.shiftr m k mod 256)))
      [24; 16; 8; 0]%N.

(** The call [n.to_bytes(4, byteorder='big')]: [None] is the
    [OverflowError] that it raises from [2^32] on. *)
Definition int_to_bytes4 (n : nat) : option bytes :=
  if (N.of_nat n <? 4294967296)%N then Some (to_bytes4 n) else None.

Module PeerConnection.

(** [info_hash] is a [str] of hexadecimal digits or a [bytes] object. *)
Inductive fingerprint :=
  | HashStr (s : string)
  | HashBytes (b : bytes).

(** A connected TCP socket, seen from this side: the bytes that the peer
    delivers before its stream ends, the bytes written so far, and the
    number of calls of [sendall] that still succeed. *)
Record tcp := Tcp { rx : bytes; tx : bytes; tx_left : nat }.

Inductive warning :=
  | DifferentPeerId (got expected : string).

(** The attributes of the object.  [socket = None] is Python's [None]; of
    the log, the warnings of [connect] are kept. *)
Record t := Build {
  info_hash : fingerprint;
  our_peer_id : string;
  peer_id : string;
  socket : option tcp;
  connected : bool;
  peer_choking : bool;
  am_choking : bool;
  peer_interested : bool;
  am_interested : bool;
  peer_bitfield : list bool;
  request_queue : list (nat * nat * nat);  (* piece, offset, length *)
  bytes_downloaded : nat;
  bytes_uploaded : nat;
  last_activity : Q;
  max_requests : nat;
  warnings : list warning
}.

Definition set_socket (x : option tcp) (c : t) : t :=
  Build (info_hash c) (our_peer_id c) (peer_id c) x (connected c)
    (peer_choking c) (am_choking c) (peer_interested c) (am_interested c)
    (peer_bitfield c) (request_queue c) (bytes_downloaded c)
    (bytes_uploaded c) (last_activity c) (max_requests c) (warnings c).

Definition set_connected (x : bool) (c : t) : t :=
  Build (info_hash c) (our_peer_id c) (peer_id c) (socket c) x
    (peer_choking c) (am_choking c) (peer_interested c) (am_interested c)
    (peer_bitfield c) (request_queue c) (bytes_downloaded c)
    (bytes_uploaded c) (last_activity c) (max_requests c) (warnings c).

Definition set_peer_choking (x : bool) (c : t) : t :=
  Build (info_hash c) (our_peer_id c) (peer_id c) (socket c) (connected c)
    x (am_choking c) (peer_interested c) (am_interested c)
    (peer_bitfield c) (request_queue c) (bytes_downloaded c)
    (bytes_uploaded c) (last_activity c) (max_requests c) (warnings c).

Definition set_am_choking (x : bool) (c : t) : t :=
  Build (info_hash c) (our_peer_id c) (peer_id c) (socket c) (connected c)
    (peer_choking c) x (peer_interested c) (am_interested c)
    (peer_bitfield c) (request_queue c) (bytes_downloaded c)
    (bytes_uploaded c) (last_activity c) (max_requests c) (warnings c).

Definition set_peer_interested (x : bool) (c : t) : t :=
  Build (info_hash c) (our_peer_id c) (peer_id c) (socket c) (connected c)
    (peer_choking c) (am_choking c) x (am_interested c)
    (peer_bitfield c) (request_queue c) (bytes_downloaded c)
    (bytes_uploaded c) (last_activity c) (max_requests c) (warnings c).

Definition set_am_interested (x : bool) (c : t) : t :=
  Build (info_hash c) (our_peer_id c) (peer_id c) (socket c) (connected c)
    (peer_choking c) (am_choking c) (peer_interested c) x
    (peer_bitfield c) (request_queue c) (bytes_downloaded c)
    (bytes_uploaded c) (last_activity c) (max_requests c) (warnings c).

Definition set_peer_bitfield (x : list bool) (c : t) : t :=
  Build (info_hash c) (our_peer_id c) (peer_id c) (socket c) (connected c)
    (peer_choking c) (am_choking c) (peer_interested c) (am_interested c)
    x (request_queue c) (bytes_downloaded c)
    (bytes_uploaded c) (last_activity c) (max_requests c) (warnings c).

Definition set_request_queue (x : list (nat * nat * nat)) (c : t) : t :=
  Build (info_hash c) (our_peer_id c) (peer_id c) (socket c) (connected c)
    (peer_choking c) (am_choking c) (peer_interested c) (am_interested c)
    (peer_bitfield c) x (bytes_downloaded c)
    (bytes_uploaded c) (last_activity c) (max_requests c) (warnings c).

Definition set_bytes_downloaded (x : nat) (c : t) : t :=
  Build (info_hash c) (our_peer_id c) (peer_id c) (socket c) (connected c)
    (peer_choking c) (am_choking c) (peer_interested c) (am_interested c)
    (peer_bitfield c) (request_queue c) x
    (bytes_uploaded c) (last_activity c) (max_requests c) (warnings c).

Definition set_bytes_uploaded (x : nat) (c : t) : t :=
  Build (info_hash c) (our_peer_id c) (peer_id c) (socket c) (connected c)
    (peer_choking c) (am_choking c) (peer_interested c) (am_interested c)
    (peer_bitfield c) (request_queue c) (bytes_downloaded c)
    x (last_activity c) (max_requests c) (warnings c).

Definition set_last_activity (x : Q) (c : t) : t :=
  Build (info_hash c) (our_peer_id c) (peer_id c) (socket c) (connected c)
    (peer_choking c) (am_choking c) (peer_interested c) (am_interested c)
    (peer_bitfield c) (request_queue c) (bytes_downloaded c)
    (bytes_uploaded c) x (max_requests c) (warnings c).

Definition warn (w : warning) (c : t) : t :=
  Build (info_hash c) (our_peer_id c) (peer_id c) (socket c) (connected c)
    (peer_choking c) (am_choking c) (peer_interested c) (am_interested c)
    (peer_bitfield c) (request_queue c) (bytes_downloaded c)
    (bytes_uploaded c) (last_activity c) (max_requests c)
    (warnings c ++ [w]).

(** [__init__] *)
Definition __init__ (peer_id : string) (info_hash : fingerprint)
    (piece_manager : PieceManager.t) (our_peer_id : string)
    (now : Q) : t :=
  Build info_hash our_peer_id peer_id None false true true false false
    (replicate (PieceManager.piece_count piece_manager) false) [] 0 0 now
    10 [].

(** [close] *)
Definition close (c : t) : t := set_socket None (set_connected false c).

(** [socket.sendall] *)
Definition sendall (msg : bytes) (s : tcp) : option tcp :=
  match tx_left s with
  | O => None
  | S k => Some (Tcp (rx s) (tx s ++ msg) k)
  end.

(** [_read_exactly]: [None] when the stream ends, or the socket is gone,
    before [n] bytes have come. *)
Definition _read_exactly (n : nat) (c : t) : option bytes * t :=
  if n =? 0 then (Some [], c)
  else
    match socket c with
    | None => (None, c)
    | Some s =>
        if n <=? length (rx s)
        then (Some (take n (rx s)),
              set_socket (Some (Tcp (drop n (rx s)) (tx s) (tx_left s))) c)
        else (None, set_socket (Some (Tcp [] (tx s) (tx_left s))) c)
    end.

(** The outcome of sending: [Blocked] is the thread waiting for ever.
    [_send_message] holds [self.lock], a [threading.Lock], when [sendall]
    fails, and calls [close], which acquires the same lock.  [Failed] is an
    exception that leaves the method before anything is written. *)
Inductive sending := Sent | NotSent | Blocked | Failed (e : exn).

(** [_send_message]; [now] is [time.time()] after the write.  The length
    prefix and the id are built outside the [try]: a message of [2^32] bytes
    or more raises [OverflowError], an id from 256 on [ValueError]. *)
Definition _send_message (now : Q) (msg_id : nat) (payload : bytes) (c : t)
    : sending * t :=
  if negb (connected c) then (NotSent, c)
  else
    match socket c with
    | None => (NotSent, c)
    | Some s =>
        match int_to_bytes4 (length payload + 1) with
        | None => (Failed OverflowError, c)
        | Some length_prefix =>
            if msg_id <? 256 then
              let msg := length_prefix ++ [byte_of_nat msg_id] ++ payload in
              match sendall msg s with
              | Some s' =>
                  (Sent, set_last_activity now (set_socket (Some s') c))
              | None => (Blocked, c)
              end
            else (Failed ValueError, c)
        end
    end.

(** [_send_keep_alive]: no lock is held here, so a failure closes. *)
Definition _send_keep_alive (now : Q) (c : t) : bool * t :=
  if negb (connected c) then (false, c)
  else
    match socket c with
    | None => (false, c)
    | Some s =>
        match sendall (to_bytes4 0) s with
        | Some s' => (true, set_last_activity now (set_socket (Some s') c))
        | None => (false, close c)
        end
    end.

(** [_send_interested] *)
Definition _send_interested (now : Q) (c : t) : sending * t :=
  match _send_message now 2 [] c with
  | (Sent, c') => (Sent, set_am_interested true c')
  | other => other
  end.

(** [_send_unchoke] *)
Definition _send_unchoke (now : Q) (c : t) : sending * t :=
  match _send_message now 1 [] c with
  | (Sent, c') => (Sent, set_am_choking false c')
  | other => other
  end.

(** [_send_piece] *)
Definition _send_piece (now : Q) (piece_index begin : nat) (data : bytes)
    (c : t) : sending * t :=
  match int_to_bytes4 piece_index, int_to_bytes4 begin with
  | Some index_bytes, Some begin_bytes =>
      _send_message now 7 (index_bytes ++ begin_bytes ++ data) c
  | _, _ => (Failed OverflowError, c)
  end.

(** The loop of [_process_bitfield] over [range(piece_count)]; it stops at
    the first index whose byte is beyond the payload. *)
Fixpoint bitfield_loop (payload : bytes) (indexes : list nat)
    (bitfield : list bool) : list bool :=
  match indexes with
  | [] => bitfield
  | i :: rest =>
      let byte_index := i / 8 in
      match payload !! byte_index with
      | None => bitfield
      | Some b =>
          let bit_index := 7 - i mod 8 in
          let has_piece := Nat.land (Nat.shiftr (byte_val b) bit_index) 1 in
          bitfield_loop payload rest
            (if has_piece =? 0 then bitfield else <[i:=true]> bitfield)
      end
  end.

(** [_process_bitfield] *)
Definition _process_bitfield (payload : bytes) (c : t) : t :=
  let piece_count := length (peer_bitfield c) in
  let expected_length := (piece_count + 7) / 8 in
  if length payload <? expected_length then c
  else
    set_peer_bitfield
      (bitfield_loop payload (seq 0 piece_count) (peer_bitfield c)) c.

(** [_process_request]; [readable] tells whether the piece file can be
    opened and read.  An exception inside the [try] block is caught. *)
Definition _process_request (now : Q) (readable : bool) (payload : bytes)
    (c : t) (pm : PieceManager.t) : sending * t * PieceManager.t :=
  if am_choking c then (NotSent, c, pm)
  else if length payload <? 12 then (NotSent, c, pm)
  else
    let piece_index := int_from_bytes (slice 0 4 payload) in
    let begin := int_from_bytes (slice 4 8 payload) in
    let length_ := int_from_bytes (slice 8 12 payload) in
    match PieceManager.have_pieces pm !! piece_index with
    | None | Some false => (NotSent, c, pm)
    | Some true =>
        match PieceManager.piece_files pm !! piece_index with
        | None => (NotSent, c, pm)
        | Some content =>
            if negb readable then (NotSent, c, pm)
            else
              let data := take length_ (drop begin content) in
              if negb (length data =? length_) then (NotSent, c, pm)
              else
                match _send_piece now piece_index begin data c with
                | (Blocked, c') => (Blocked, c', pm)
                | (Failed _, c') => (NotSent, c', pm)
                | (sent, c') =>
                    (sent,
                     set_bytes_uploaded (bytes_uploaded c' + length data) c',
                     PieceManager.set_bytes_uploaded
                       (PieceManager.bytes_uploaded pm + length data) pm)
                end
        end
    end.

(** [bytes.decode(errors='replace')] is a parameter of the handshake: the
    text it yields only decides whether a warning is logged. *)
Section Handshake.

Variable decode_replace : bytes -> string.

Definition pstr : string := "BitTorrent protocol".

Definition local_hex (c : t) : string :=
  match info_hash c with
  | HashStr s => s
  | HashBytes b => hex b
  end.

(** The frame that [_perform_handshake] sends; [None] when
    [bytes.fromhex] raises [ValueError]. *)
Definition handshake_frame (c : t) : option bytes :=
  let info_hash_bytes :=
    match info_hash c with
    | HashStr s => fromhex s
    | HashBytes b => Some b
    end in
  let peer_id_bytes := list_byte_of_string (our_peer_id c) in
  match info_hash_bytes with
  | None => None
  | Some ih =>
      Some ([byte_of_nat (String.length pstr)] ++ list_byte_of_string pstr
              ++ replicate 8 x00 ++ ih ++ peer_id_bytes)
  end.

(** [_perform_handshake]: the peer id of the answer, or the exception. *)
Definition _perform_handshake (c : t) : result string * t :=
  match handshake_frame c with
  | None => (Raises ValueError, c)
  | Some handshake =>
      match socket c with
      | None => (Raises AttributeError, c)
      | Some s =>
          match sendall handshake s with
          | None => (Raises OSError, c)
          | Some s' =>
              match _read_exactly (length handshake)
                      (set_socket (Some s') c) with
              | (None, c') | (Some [], c') => (Raises ConnectionError, c')
              | (Some response, c') =>
                  let resp_info_hash := hex (slice 28 48 response) in
                  if bool_decide (resp_info_hash = local_hex c)
                  then (Returns (decode_replace (slice 48 68 response)), c')
                  else (Raises ValueError, c')
              end
          end
      end
  end.

(** What [connect] reports: a return value, or a thread that waits for
    ever inside [_send_interested]. *)
Inductive connecting := Returned (b : bool) | Hangs.

(** [connect].  [net] is [None] when [socket.connect] raises, and the
    connected socket otherwise; [now] and [later] are the two readings of
    the clock.  The two loops that [connect] starts run as threads of
    their own. *)
Definition connect (net : option tcp) (now later : Q) (c : t)
    : connecting * t :=
  if connected c then (Returned true, c)
  else
    match net with
    | None => (Returned false, close c)
    | Some s =>
        match _perform_handshake (set_socket (Some s) c) with
        | (Raises _, c1) => (Returned false, close c1)
        | (Returns resp_peer_id, c1) =>
            let c2 :=
              if bool_decide (resp_peer_id = peer_id c1) then c1
              else warn (DifferentPeerId resp_peer_id (peer_id c1)) c1 in
            let c3 := set_last_activity now (set_connected true c2) in
            match _send_interested later c3 with
            | (Blocked, c4) => (Hangs, c4)
            | (Failed _, c4) => (Returned false, close c4)
            | (_, c4) => (Returned true, c4)
            end
        end
    end.

End Handshake.

(** What the clock and the disk answer during one turn of the receive
    loop. *)
Record env := Env {
  t_frame : Q;     (* time.time() once the frame is read *)
  t_sent : Q;      (* time.time() after a message is written *)
  t_check : Q;     (* time.time() of the keep-alive test *)
  t_alive : Q;     (* time.time() after a keep-alive is written *)
  disk : PieceManager.storage;
  readable : bool
}.

(** How the body of the loop ends: it falls through to the keep-alive
    test, it executes [continue], an exception reaches the handler of the
    loop, or the thread is blocked. *)
Inductive flow := Next | Skip | Raised | Waits.

Definition after_send (r : sending * t) (pm : PieceManager.t)
    : flow * t * PieceManager.t :=
  match r with
  | (Blocked, c) => (Waits, c, pm)
  | (Failed _, c) => (Raised, c, pm)
  | (_, c) => (Next, c, pm)
  end.

(** After a bitfield: the first piece that the peer has and we lack makes
    us send [interested], when we are not interested yet. *)
Fixpoint bitfield_interest (now : Q) (i : nat) (bitfield : list bool)
    (c : t) (pm : PieceManager.t) : flow * t * PieceManager.t :=
  match bitfield with
  | [] => (Next, c, pm)
  | has_piece :: rest =>
      if has_piece then
        match PieceManager.have_pieces pm !! i with
        | None => (Raised, c, pm)
        | Some true => bitfield_interest now (S i) rest c pm
        | Some false =>
            if am_interested c then (Next, c, pm)
            else after_send (_send_interested now c) pm
        end
      else bitfield_interest now (S i) rest c pm
  end.

(** The [if]/[elif] chain of [_receiver_loop].  [payload = None] is the
    [None] that [_read_exactly] returns when the stream ends early. *)
Definition handle (e : env) (msg_id : nat) (payload : option bytes)
    (c : t) (pm : PieceManager.t) : flow * t * PieceManager.t :=
  match msg_id with
  | 0 => (Next, set_peer_choking true c, pm)
  | 1 => (Next, set_peer_choking false c, pm)
  | 2 =>
      let c1 := set_peer_interested true c in
      if am_choking c1 then after_send (_send_unchoke (t_sent e) c1) pm
      else (Next, c1, pm)
  | 3 => (Next, set_peer_interested false c, pm)
  | 4 =>
      match payload with
      | None => (Raised, c, pm)
      | Some body =>
          let piece_index := int_from_bytes body in
          if bool_decide (piece_index < length (peer_bitfield c)) then
            let c1 :=
              set_peer_bitfield (<[piece_index:=true]> (peer_bitfield c)) c in
            match PieceManager.have_pieces pm !! piece_index with
            | None => (Raised, c1, pm)
            | Some true => (Next, c1, pm)
            | Some false =>
                if am_interested c1 then (Next, c1, pm)
                else after_send (_send_interested (t_sent e) c1) pm
            end
          else (Raised, c, pm)
      end
  | 5 =>
      match payload with
      | None => (Raised, c, pm)
      | Some body =>
          let c1 := _process_bitfield body c in
          bitfield_interest (t_sent e) 0 (peer_bitfield c1) c1 pm
      end
  | 6 =>
      match payload with
      | None =>
          if am_choking c then (Next, c, pm) else (Raised, c, pm)
      | Some body =>
          match _process_request (t_sent e) (readable e) body c pm with
          | (Blocked, c1, pm1) => (Waits, c1, pm1)
          | (_, c1, pm1) => (Next, c1, pm1)
          end
      end
  | 7 =>
      match payload with
      | None => (Raised, c, pm)
      | Some body =>
          if length body <? 8 then (Skip, c, pm)
          else
            let index := int_from_bytes (slice 0 4 body) in
            let block := drop 8 body in
            let c1 :=
              set_bytes_downloaded (bytes_downloaded c + length block) c in
            match PieceManager.receive_piece (disk e) index block pm with
            | (true, pm1) =>
                (Next,
                 set_request_queue
                   (filter (fun r => r.1.1 <> index) (request_queue c1)) c1,
                 pm1)
            | (false, pm1) => (Next, c1, pm1)
            end
      end
  | _ => (Next, c, pm)
  end.

Inductive status := Continue | Break | Stuck.

(** One frame through the body of [_receiver_loop], from "Update last
    activity time" to the keep-alive test. *)
Definition dispatch (e : env) (msg_id : nat) (payload : option bytes)
    (c : t) (pm : PieceManager.t) : status * t * PieceManager.t :=
  match handle e msg_id payload (set_last_activity (t_frame e) c) pm with
  | (Next, c1, pm1) =>
      if Qle_bool (t_check e - last_activity c1) (inject_Z 120)
      then (Continue, c1, pm1)
      else (Continue, snd (_send_keep_alive (t_alive e) c1), pm1)
  | (Skip, c1, pm1) => (Continue, c1, pm1)
  | (Raised, c1, pm1) => (Break, c1, pm1)
  | (Waits, c1, pm1) => (Stuck, c1, pm1)
  end.

(** [_send_have] *)
Definition _send_have (now : Q) (piece_index : nat) (c : t) : sending * t :=
  match int_to_bytes4 piece_index with
  | Some payload => _send_message now 4 payload c
  | None => (Failed OverflowError, c)
  end.

(** The payload of a request; [None] when a number does not fit four
    bytes. *)
Definition request_payload (piece_index begin length_ : nat) : option bytes :=
  match int_to_bytes4 piece_index, int_to_bytes4 begin,
        int_to_bytes4 length_ with
  | Some index_bytes, Some begin_bytes, Some length_bytes =>
      Some (index_bytes ++ begin_bytes ++ length_bytes)
  | _, _, _ => None
  end.

(** [_send_request] *)
Definition _send_request (now : Q) (piece_index begin length_ : nat) (c : t)
    : sending * t :=
  match request_payload piece_index begin length_ with
  | Some payload => _send_message now 6 payload c
  | None => (Failed OverflowError, c)
  end.

(** The standard block size, 16384 bytes. *)
Definition block_limit : nat := 16 * 1024.

(** The block requests that [_fill_request_queue] and [request_piece] make
    for a piece: [num_blocks] requests of [block_size] bytes, the last one
    shorter.  A piece size of zero makes the block size zero, and the
    division raises. *)
Definition piece_blocks (piece_index piece_size : nat)
    : result (list (nat * nat * nat)) :=
  let block_size := block_limit `min` piece_size in
  if block_size =? 0 then Raises ZeroDivisionError
  else
    let num_blocks := (piece_size + block_size - 1) / block_size in
    Returns
      (map (fun i =>
              let begin := i * block_size in
              (piece_index, begin, block_size `min` (piece_size - begin)))
           (seq 0 num_blocks)).

(** [_fill_request_queue]; [r] is the draw of [get_next_request].  An
    exception leaves what was assigned before it. *)
Definition _fill_request_queue (r : nat) (c : t) (pm : PieceManager.t)
    : result () * t * PieceManager.t :=
  let max_queue_size := max_requests c * 2 in
  if max_queue_size <=? length (request_queue c) then (Returns (), c, pm)
  else
    match PieceManager.get_next_request r (peer_bitfield c) pm with
    | Raises e => (Raises e, c, pm)
    | Returns (None, pm1) => (Returns (), c, pm1)
    | Returns (Some piece_index, pm1) =>
        match piece_blocks piece_index (PieceManager.piece_length pm1) with
        | Raises e => (Raises e, c, pm1)
        | Returns blocks =>
            (Returns (), set_request_queue (request_queue c ++ blocks) c, pm1)
        end
    end.

(** [request_piece], the entry of the end-game strategy: the blocks go to
    the front of the queue one after the other, so the last block comes
    first. *)
Definition request_piece (piece_index : nat) (c : t) (pm : PieceManager.t)
    : result bool * t :=
  match peer_bitfield c !! piece_index with
  | None => (Raises IndexError, c)
  | Some false => (Returns false, c)
  | Some true =>
      match PieceManager.have_pieces pm !! piece_index with
      | None => (Raises IndexError, c)
      | Some true => (Returns false, c)
      | Some false =>
          if peer_choking c then (Returns false, c)
          else
            match piece_blocks piece_index (PieceManager.piece_length pm) with
            | Raises e => (Raises e, c)
            | Returns blocks =>
                (Returns true,
                 set_request_queue (reverse blocks ++ request_queue c) c)
            end
      end
  end.

(** One turn of [_request_loop].  The requests are sent inside
    [with self.lock], and [_send_message] acquires the same
    [threading.Lock]: the thread waits for ever at the first request, which
    has left the queue by then.  Before that [_send_request] builds the
    payload: a number that does not fit four bytes raises [OverflowError],
    which ends the loop. *)
Definition request_turn (r : nat) (c : t) (pm : PieceManager.t)
    : status * t * PieceManager.t :=
  if peer_choking c then (Continue, c, pm)
  else
    let filled :=
      if length (request_queue c) <? max_requests c
      then _fill_request_queue r c pm
      else (Returns (), c, pm) in
    match filled with
    | (Raises _, c1, pm1) => (Break, c1, pm1)
    | (Returns _, c1, pm1) =>
        match request_queue c1 with
        | [] => (Continue, c1, pm1)
        | (piece_index, begin, length_) :: rest =>
            let requests_to_send :=
              (max_requests c1 + 1 - length (request_queue c1))
                `min` length (request_queue c1) in
            if requests_to_send =? 0 then (Continue, c1, pm1)
            else
              match request_payload piece_index begin length_ with
              | Some _ => (Stuck, set_request_queue rest c1, pm1)
              | None => (Break, set_request_queue rest c1, pm1)
              end
        end
    end.

(** One turn of [_receiver_loop]: the length prefix, the message id and
    the payload are read from the socket, then the message is dispatched.  A
    stream that ends before the id leaves the loop; a length of zero is a
    keep-alive. *)
Definition receiver_turn (e : env) (c : t) (pm : PieceManager.t)
    : status * t * PieceManager.t :=
  match _read_exactly 4 c with
  | (None, c1) | (Some [], c1) => (Break, c1, pm)
  | (Some len_bytes, c1) =>
      let msg_length := int_from_bytes len_bytes in
      if msg_length =? 0
      then (Continue, set_last_activity (t_frame e) c1, pm)
      else
        match _read_exactly 1 c1 with
        | (None, c2) | (Some [], c2) => (Break, c2, pm)
        | (Some (b :: _), c2) =>
            let msg_id := byte_val b in
            let '(payload, c3) :=
              if 1 <? msg_length then _read_exactly (msg_length - 1) c2
              else (Some [], c2) in
            dispatch e msg_id payload c3 pm
        end
  end.

End PeerConnection.

(** ** [class ConnectionManager]: the connection loop *)

Module ConnectionManager.

(** An entry of [self.peers]: the session, the flag [connected] that the
    manager keeps of it, and the two times; [last_retry = None] is the
    missing key. *)
Record peer_entry := PeerEntry {
  handler : PeerConnection.t;
  connected : bool;
  last_seen : Q;
  last_retry : option Q
}.

Section Loop.

Variable decode_replace : bytes -> string.

(** The body of the first loop of [_connection_loop] for one peer, with the
    table [retry_counter].  [connect] catches every exception itself and
    returns [False], so the two [except] clauses of the loop never run; its
    return value is not looked at.  [None] is the thread that does not come
    back from [connect].  [t_retry] is the reading of the clock in the
    back-off test, [now] and [later] are those of [connect]. *)
Definition connection_attempt (net : option PeerConnection.tcp)
    (t_retry now later : Q) (retry_counter : gmap string nat)
    (peer_id : string) (peer : peer_entry)
    : option (peer_entry * gmap string nat) :=
  if connected peer then Some (peer, retry_counter)
  else
    let retry_counter1 :=
      match retry_counter !! peer_id with
      | None => <[peer_id := 0]> retry_counter
      | Some _ => retry_counter
      end in
    let attempt (counters : gmap string nat) :=
      match PeerConnection.connect decode_replace net now later
              (handler peer) with
      | (PeerConnection.Hangs, _) => None
      | (PeerConnection.Returned _, h) =>
          Some (PeerEntry h true (last_seen peer) (last_retry peer),
                <[peer_id := 0]> counters)
      end in
    if 3 <=? default 0 (retry_counter1 !! peer_id) then
      if Qle_bool 60 (t_retry - default 0%Q (last_retry peer))
      then attempt (<[peer_id := 0]> retry_counter1)
      else Some (peer, retry_counter1)
    else attempt retry_counter1.

End Loop.

End ConnectionManager.

(** ** [class Peer]: the announce client *)

(** The Python value that [response.json()] yields.  A dictionary is a list
    of bindings with distinct keys. *)
#[local] Unset Elimination Schemes.
Inductive json :=
  | JNull
  | JBool (b : bool)
  | JInt (n : Z)
  | JStr (s : string)
  | JList (items : list json)
  | JDict (bindings : list (string * json)).
#[local] Set Elimination Schemes.

(** [d.get(key, default)] *)
Fixpoint dict_get (key : string) (bindings : list (string * json))
    (default : json) : json :=
  match bindings with
  | [] => default
  | (k, v) :: rest =>
      if bool_decide (k = key) then v else dict_get key rest default
  end.

Module Peer.

(** What [requests.post] brings back: an exception, or a response with its
    status code and its body, [None] when the body is not JSON. *)
Inductive http :=
  | NoResponse
  | Response (status_code : nat) (body : option json).

(** The JSON body of the announce request. *)
Definition announce_payload (peer_id info_hash : string)
    (listening_port : nat) (piece_manager : PieceManager.t)
    (event : string) : json :=
  JDict
    [("peer_id", JStr peer_id);
     ("info_hash", JStr info_hash);
     ("ip", JStr "127.0.0.1");
     ("port", JInt (Z.of_nat listening_port));
     ("uploaded",
      JInt (Z.of_nat (PieceManager.bytes_uploaded piece_manager)));
     ("downloaded",
      JInt (Z.of_nat (PieceManager.bytes_downloaded piece_manager)));
     ("left", JInt (Z.of_nat (PieceManager.bytes_left piece_manager)));
     ("event", JStr event);
     ("compact", JInt 1)].

(** [_announce_to_tracker], as a function of the answer to the request.
    Every exception, also the [AttributeError] of a body that is not a
    dictionary, is caught and gives the empty list. *)
Definition _announce_to_tracker (answer : http) : json :=
  match answer with
  | NoResponse => JList []
  | Response status_code body =>
      if status_code =? 200 then
        match body with
        | Some (JDict data) => dict_get "peers" data (JList [])
        | _ => JList []
        end
      else JList []
  end.

End Peer.

(** Modelled from the spec: the decoding of a compact peer list, which the
    sources do not contain.  "A packed byte string in 6-byte groups
    (ipv4(4) ‖ port(2), big-endian)"; each group gives a peer with its dotted
    address and its port. *)
Fixpoint spec_decode_compact (packed : bytes) : list (string * nat) :=
  match packed with
  | a :: b :: c :: d :: hi :: lo :: rest =>
      (pretty (byte_val a) +:+ "." +:+ pretty (byte_val b) +:+ "."
         +:+ pretty (byte_val c) +:+ "." +:+ pretty (byte_val d),
       256 * byte_val hi + byte_val lo) :: spec_decode_compact rest
  | _ => []
  end.

Definition spec_peer_list (packed : bytes) : json :=
  JList (map (fun p : string * nat =>
                JDict [("ip", JStr p.1); ("port", JInt (Z.of_nat p.2))])
             (spec_decode_compact packed)).

(** ** [magnet_utils] *)

(** [s[n:]] *)
Fixpoint skip (n : nat) (s : string) : string :=
  match n, s with
  | O, _ => s
  | S _, EmptyString => EmptyString
  | S n', String _ rest => skip n' rest
  end.

(** [s.split(sep)] for a separator of one character. *)
Fixpoint split_on (sep : ascii) (s : string) : list string :=
  match s with
  | EmptyString => [EmptyString]
  | String c rest =>
      if bool_decide (c = sep) then EmptyString :: split_on sep rest
      else
        match split_on sep rest with
        | first :: others => String c first :: others
        | [] => [String c EmptyString]
        end
  end.

(** [s.split(sep, 1)] when it has two parts; [None] without a separator. *)
Fixpoint split_once (sep : ascii) (s : string) : option (string * string) :=
  match s with
  | EmptyString => None
  | String c rest =>
      if bool_decide (c = sep) then Some (EmptyString, rest)
      else
        match split_once sep rest with
        | Some (name, value) => Some (String c name, value)
        | None => None
        end
  end.

(** [s.replace('+', ' ')] *)
Fixpoint replace_plus (s : string) : string :=
  match s with
  | EmptyString => EmptyString
  | String c rest =>
      String (if bool_decide (c = "+"%char) then " "%char else c)
             (replace_plus rest)
  end.

Inductive magnet_value :=
  | Str (s : string)
  | StrList (l : list string).

Module magnet_utils.

(** [urllib.parse.unquote] and [str.lower] are parameters. *)
Section Parse.

Variable unquote : string -> string.
Variable lower : string -> string.

(** [urllib.parse.parse_qsl] with its default arguments: empty fields,
    fields without [=] and fields with an empty value are dropped. *)
Definition parse_qsl (qs : string) : list (string * string) :=
  match qs with
  | EmptyString => []
  | _ =>
      omap (fun name_value =>
              match split_once "="%char name_value with
              | None => None
              | Some (name, value) =>
                  match value with
                  | EmptyString => None
                  | _ => Some (unquote (replace_plus name),
                               unquote (replace_plus value))
                  end
              end)
           (split_on "&"%char qs)
  end.

(** [urllib.parse.parse_qs]: the values of a name, in their order. *)
Definition parse_qs (qs : string) : gmap string (list string) :=
  foldl (fun parsed_result nv =>
           match parsed_result !! nv.1 with
           | Some values => <[nv.1 := values ++ [nv.2]]> parsed_result
           | None => <[nv.1 := [nv.2]]> parsed_result
           end)
        ∅ (parse_qsl qs).

(** The loop over [params['xt']], left at the first [urn:btih:] value. *)
Fixpoint first_btih (xts : list string) : option string :=
  match xts with
  | [] => None
  | xt :: rest =>
      if String.prefix "urn:btih:" xt then Some (lower (skip 9 xt))
      else first_btih rest
  end.

(** [parse_magnet] *)
Definition parse_magnet (magnet_url : string)
    : result (gmap string magnet_value) :=
  if negb (String.prefix "magnet:?" magnet_url) then Raises ValueError
  else
    let query := skip 8 magnet_url in
    let params := parse_qs query in
    let result0 : gmap string magnet_value := ∅ in
    let result1 :=
      match params !! "xt" with
      | Some xts =>
          match first_btih xts with
          | Some h => <["info_hash" := Str h]> result0
          | None => result0
          end
      | None => result0
      end in
    do result2 <-
      match params !! "dn" with
      | Some (name :: _) => Returns (<["name" := Str name]> result1)
      | Some [] => Raises IndexError
      | None => Returns result1
      end;
    let result3 :=
      match params !! "tr" with
      | Some trs => <["trackers" := StrList trs]> result2
      | None => result2
      end in
    match result3 !! "info_hash" with
    | None => Raises ValueError
    | Some _ => Returns result3
    end.

End Parse.

(** What [create_magnet] raises. *)
Inductive create_error :=
  | CreateValueError
  | CreateUnboundLocalError.

(** [create_magnet].  [quote] is imported inside [if name:], so it is a
    local name of the function that is bound only when a name was given: with
    trackers and without a name the call [quote(tracker)] raises
    [UnboundLocalError].  [None] stands for an absent argument; an empty
    string and an empty list are false like [None]. *)
Section Create.

Variable quote : string -> string.

Definition create_magnet (info_hash : string) (name : option string)
    (trackers : option (list string)) : create_error + string :=
  match info_hash with
  | EmptyString => inl CreateValueError
  | _ =>
      let magnet := "magnet:?xt=urn:btih:" +:+ info_hash in
      let named :=
        match name with
        | None | Some EmptyString => None
        | Some n => Some n
        end in
      let magnet1 :=
        match named with
        | Some n => magnet +:+ "&dn=" +:+ quote n
        | None => magnet
        end in
      match trackers with
      | None | Some [] => inr magnet1
      | Some trs =>
          match named with
          | None => inl CreateUnboundLocalError
          | Some _ =>
              inr (foldl (fun m tracker => m +:+ "&tr=" +:+ quote tracker)
                         magnet1 trs)
          end
      end
  end.

End Create.

End magnet_utils.

(** ** [tracker/state_manager.py] *)

Module state_manager.

(** The dictionary that the tracker keeps for a peer. *)
Record peer_info := PeerInfo {
  peer_id : string;
  ip : string;
  port : Z;
  left : Z
}.

(** An announce request that has passed [validate_announce_payload], with
    its numbers converted: the event, the swarm, the compact flag and the
    [peer_info] that [manage_peer] builds from the other fields. *)
Record request := Request {
  event : string;
  info_hash : string;
  compact : Z;
  info : peer_info
}.

Inductive peers_field :=
  | PeerList (peers : list peer_info)
  | Packed (compact_peers : bytes).

(** The first entry with the peer id [pid] is replaced by [f] of it:
    [next(...)] finds it and the dictionary is changed in place. *)
Fixpoint update_first (pid : string) (f : peer_info -> peer_info)
    (l : list peer_info) : list peer_info :=
  match l with
  | [] => []
  | p :: rest =>
      if bool_decide (peer_id p = pid) then f p :: rest
      else p :: update_first pid f rest
  end.

Definition set_left (n : Z) (p : peer_info) : peer_info :=
  PeerInfo (peer_id p) (ip p) (port p) n.

(** [struct.pack("!H", port)]; [None] is [struct.error]. *)
Definition pack_port (port : Z) : option bytes :=
  if ((0 <=? port) && (port <=? 65535))%Z
  then Some [byte_of_nat (Z.to_nat (port / 256));
             byte_of_nat (Z.to_nat (port mod 256))]
  else None.

Section Compact.

(** [socket.inet_aton]; [None] is the [OSError] of a text that is no
    address. *)
Variable inet_aton : string -> option bytes.

(** The packing loop: a peer whose address or port cannot be packed is
    skipped. *)
Definition compact_peer (p : peer_info) : bytes :=
  match inet_aton (ip p), pack_port (port p) with
  | Some ip_bytes, Some port_bytes => ip_bytes ++ port_bytes
  | _, _ => []
  end.

(** [manage_peer]: the response's [peers] field and the registry after
    it. *)
Definition manage_peer (peer : request)
    (peer_registry : gmap string (list peer_info))
    : peers_field * gmap string (list peer_info) :=
  let pid := peer_id (info peer) in
  let swarm := default [] (peer_registry !! info_hash peer) in
  let exists_ := bool_decide (pid ∈ peer_id <$> swarm) in
  let swarm1 :=
    if bool_decide (event peer = "started") then
      if exists_ then update_first pid (fun _ => info peer) swarm
      else swarm ++ [info peer]
    else if bool_decide (event peer = "completed") then
      if exists_ then update_first pid (set_left 0) swarm
      else swarm ++ [set_left 0 (info peer)]
    else if bool_decide (event peer = "stopped") then
      filter (fun p => peer_id p <> pid) swarm
    else swarm in
  let other_peers := filter (fun p => peer_id p <> pid) swarm1 in
  (if bool_decide (compact peer = 0%Z) then PeerList other_peers
   else Packed (concat (compact_peer <$> other_peers)),
   <[info_hash peer := swarm1]> peer_registry).

End Compact.

(** [get_stats] *)
Record stats := Stats {
  torrents : nat;
  peers : nat;
  seeders : nat;
  leechers : nat
}.

Definition get_stats (peer_registry : gmap string (list peer_info)) : stats :=
  let swarms := (map_to_list peer_registry).*2 in
  Stats (size peer_registry)
    (sum_list (length <$> swarms))
    (sum_list
       ((fun l => length (filter (fun p => left p = 0%Z) l)) <$> swarms))
    (sum_list
       ((fun l => length (filter (fun p => (0 < left p)%Z) l)) <$> swarms)).

End state_manager.

(** ** [tracker/metainfo_manager.py] *)

Module metainfo_manager.

(** The [while] loop of [calculate_pieces_hash] over one open file:
    [content] is what the file still holds, the state is the list of hashes
    and [current_piece].  [f.read(n)] gives the next [n] bytes, fewer at the
    end of the file; the loop stops at the first empty read.  Every turn
    with a non-empty read shortens [content], so [length content] turns are
    enough fuel. *)
Fixpoint read_pieces (fuel piece_length : nat) (content : bytes)
    (st : list string * bytes) : list string * bytes :=
  match fuel with
  | O => st
  | S fuel' =>
      let '(piece_hashes, current_piece) := st in
      let n := piece_length - length current_piece in
      match take n content with
      | [] => st
      | data =>
          let current_piece' := current_piece ++ data in
          if length current_piece' =? piece_length
          then read_pieces fuel' piece_length (drop n content)
                 (piece_hashes ++ [SHA1.hexdigest current_piece'], [])
          else read_pieces fuel' piece_length (drop n content)
                 (piece_hashes, current_piece')
      end
  end.

(** [calculate_pieces_hash], of the contents of the files. *)
Definition calculate_pieces_hash (files : list bytes) (piece_length : nat)
    : list string :=
  let '(piece_hashes, current_piece) :=
    foldl (fun st content =>
             read_pieces (length content) piece_length content st)
          ([], []) files in
  match current_piece with
  | [] => piece_hashes
  | _ => piece_hashes ++ [SHA1.hexdigest current_piece]
  end.

(** The piece count that [create_metainfo] writes into the descriptor. *)
Definition piece_count (files : list bytes) (piece_length : nat)
    : result nat :=
  let total_size := sum_list (length <$> files) in
  if piece_length =? 0 then Raises ZeroDivisionError
  else Returns ((total_size + piece_length - 1) / piece_length).

End metainfo_manager.

(** ** Instances of the parameters on ASCII text

    They agree with Python on text and bytes below 128, where the examples
    stay. *)

Definition lower_ascii_char (c : ascii) : ascii :=
  let n := nat_of_ascii c in
  if (65 <=? n) && (n <=? 90) then ascii_of_nat (n + 32) else c.

Fixpoint lower_ascii (s : string) : string :=
  match s with
  | EmptyString => EmptyString
  | String c rest => String (lower_ascii_char c) (lower_ascii rest)
  end.

Fixpoint unquote_ascii (s : string) : string :=
  match s with
  | String "%" (String h (String l rest) as tail) =>
      match hex_value h, hex_value l with
      | Some a, Some b => String (ascii_of_nat (16 * a + b)) (unquote_ascii rest)
      | _, _ => String "%" (unquote_ascii tail)
      end
  | String c rest => String c (unquote_ascii rest)
  | EmptyString => EmptyString
  end.

Definition decode_ascii (b : bytes) : string := string_of_list_byte b.

(** [urllib.parse.quote] with its default [safe='/']: letters, digits and
    [_.-~/] stay, every other character becomes [%XX] with upper-case
    digits. *)
Definition hex_digit_upper (n : nat) : ascii :=
  match n with
  | 0 => "0" | 1 => "1" | 2 => "2" | 3 => "3" | 4 => "4" | 5 => "5"
  | 6 => "6" | 7 => "7" | 8 => "8" | 9 => "9" | 10 => "A" | 11 => "B"
  | 12 => "C" | 13 => "D" | 14 => "E" | _ => "F"
  end%char.

Definition is_unreserved (c : ascii) : bool :=
  let n := nat_of_ascii c in
  ((48 <=? n) && (n <=? 57)) || ((65 <=? n) && (n <=? 90))
  || ((97 <=? n) && (n <=? 122))
  || (n =? 95) || (n =? 46) || (n =? 45) || (n =? 126) || (n =? 47).

Fixpoint quote_ascii (s : string) : string :=
  match s with
  | EmptyString => EmptyString
  | String c rest =>
      if is_unreserved c then String c (quote_ascii rest)
      else
        String "%"
          (String (hex_digit_upper (nat_of_ascii c / 16))
             (String (hex_digit_upper (nat_of_ascii c mod 16))
                (quote_ascii rest)))
  end.

(** ** The notions that the properties speak of *)

(** Piece [i] can be asked from a peer with the availability
    [peer_has_pieces]: we lack it, nobody was asked for it, the peer has it. *)
Definition wanted (pm : PieceManager.t) (peer_has_pieces : list bool)
    (i : nat) : Prop :=
  PieceManager.have_pieces pm !! i = Some false
  ∧ (i ∉ PieceManager.requested_pieces pm)
  ∧ peer_has_pieces !! i = Some true.

(** [have_pieces] has one entry per piece, as [__init__] makes it. *)
Definition well_formed (pm : PieceManager.t) : Prop :=
  length (PieceManager.have_pieces pm) = PieceManager.piece_count pm.

(** No piece is held and asked for at the same time. *)
Definition held_not_requested (pm : PieceManager.t) : Prop :=
  forall i, PieceManager.have_pieces pm !! i = Some true ->
            i ∉ PieceManager.requested_pieces pm.

(** The piece managers that the methods build from a fresh one. *)
Inductive reachable : PieceManager.t -> Prop :=
  | reach_init piece_length piece_count files piece_files payload_files :
      reachable (PieceManager.__init__ piece_length piece_count files
                   piece_files payload_files)
  | reach_set_piece_hashes hashes pm :
      reachable pm -> reachable (PieceManager.set_piece_hashes hashes pm)
  | reach_get_next_request r peer_has_pieces pm res pm' :
      reachable pm ->
      PieceManager.get_next_request r peer_has_pieces pm = Returns (res, pm') ->
      reachable pm'
  | reach_receive_piece io piece_index data pm :
      reachable pm ->
      reachable (PieceManager.receive_piece io piece_index data pm).2.

(** [last_piece_length = total_bytes - (P-1)*piece_length] *)
Definition last_piece_length (pm : PieceManager.t) : nat :=
  PieceManager.total_size pm
  - (PieceManager.piece_count pm - 1) * PieceManager.piece_length pm.

(** The number of connected sessions whose availability includes piece [i]. *)
Definition holders (sessions : list PeerConnection.t) (i : nat) : nat :=
  length (filter (fun c => PeerConnection.connected c = true
                           /\ PeerConnection.peer_bitfield c !! i = Some true)
                 sessions).

(** The attributes of a session that sending does not touch. *)
Definition same_session (c c' : PeerConnection.t) : Prop :=
  PeerConnection.peer_choking c' = PeerConnection.peer_choking c
  /\ PeerConnection.request_queue c' = PeerConnection.request_queue c
  /\ PeerConnection.peer_bitfield c' = PeerConnection.peer_bitfield c
  /\ PeerConnection.warnings c' = PeerConnection.warnings c.

(** The answer that the handshake reads from the socket [s] after it has
    sent [frame], and the test that it passes: the frame could be sent, an
    answer of the same length came, and bytes 28 to 47 of the answer are the
    local fingerprint. *)
Definition answer (frame : bytes) (s : PeerConnection.tcp) : bytes :=
  take (length frame) (PeerConnection.rx s).

Definition answered (c : PeerConnection.t) (frame : bytes)
    (s : PeerConnection.tcp) : bool :=
  (0 <? PeerConnection.tx_left s)
  && (length frame <=? length (PeerConnection.rx s))
  && bool_decide (hex (slice 28 48 (answer frame s))
                  = PeerConnection.local_hex c).

(** Bit [7 - i mod 8] of byte [i / 8] of a bitfield: piece 0 is bit 7 of
    byte 0. *)
Definition bitfield_bit (payload : bytes) (i : nat) : bool :=
  match payload !! (i / 8) with
  | Some b => Nat.testbit (byte_val b) (7 - i mod 8)
  | None => false
  end.

(** The bytes of a message on the wire: the length prefix, the id and the
    payload. *)
Definition frame (msg_id : nat) (payload : bytes) : bytes :=
  to_bytes4 (length payload + 1) ++ [byte_of_nat msg_id] ++ payload.

(** Piece [i] of a payload cut into pieces of [piece_length] bytes. *)
Definition piece_of (piece_length : nat) (payload : bytes) (i : nat) : bytes :=
  take piece_length (drop (i * piece_length) payload).

(** The calls that lead from one piece manager to a later one. *)
Inductive evolves : PieceManager.t -> PieceManager.t -> Prop :=
  | evolves_refl pm : evolves pm pm
  | evolves_set_piece_hashes pm pm' hashes :
      evolves pm pm' ->
      evolves pm (PieceManager.set_piece_hashes hashes pm')
  | evolves_get_next_request pm pm' r peer_has_pieces res pm'' :
      evolves pm pm' ->
      PieceManager.get_next_request r peer_has_pieces pm'
      = Returns (res, pm'') ->
      evolves pm pm''
  | evolves_receive_piece pm pm' io piece_index data :
      evolves pm pm' ->
      evolves pm (PieceManager.receive_piece io piece_index data pm').2.

(** In every swarm of the registry the peer ids are distinct. *)
Definition distinct_peers
    (peer_registry : gmap string (list state_manager.peer_info)) : Prop :=
  forall info_hash swarm,
    peer_registry !! info_hash = Some swarm ->
    NoDup (state_manager.peer_id <$> swarm).

(** The full pieces of a payload cut into pieces of [piece_length] bytes,
    and what is left behind them. *)
Definition full_pieces (piece_length : nat) (payload : bytes) : list bytes :=
  piece_of piece_length payload <$> seq 0 (length payload / piece_length).

Definition last_part (piece_length : nat) (payload : bytes) : bytes :=
  drop (length payload / piece_length * piece_length) payload.

(** The character [c] occurs in the text [s]. *)
Fixpoint occurs (c : ascii) (s : string) : bool :=
  match s with
  | EmptyString => false
  | String d rest => bool_decide (d = c) || occurs c rest
  end.

(** A magnet link as the specification reads it: behind [magnet:?] come the
    fields, separated by [&]; a field is [name=value], cut at its first [=],
    or a text without [=]. *)
Inductive field :=
  | Pair (name value : string)
  | Bare (text : string).

Definition render (f : field) : string :=
  match f with
  | Pair name value => name +:+ "=" +:+ value
  | Bare text => text
  end.

Fixpoint join_fields (fields : list field) : string :=
  match fields with
  | [] => ""
  | [f] => render f
  | f :: rest => render f +:+ "&" +:+ join_fields rest
  end.

Definition well_cut (f : field) : Prop :=
  match f with
  | Pair name value =>
      occurs "=" name = false /\ occurs "&" name = false
      /\ occurs "&" value = false
  | Bare text => occurs "=" text = false /\ occurs "&" text = false
  end.

(** A plus sign stands for a space. *)
Definition plus_as_space (s : string) : string :=
  string_of_list_ascii
    ((fun c => if bool_decide (c = "+"%char) then " "%char else c)
       <$> list_ascii_of_string s).

(** The parameters of the link: the fields [name=value] with a value that
    is not empty, name and value decoded. *)
Definition decoded_pairs (decode : string -> string) (fields : list field)
    : list (string * string) :=
  omap (fun f =>
          match f with
          | Pair name value =>
              if bool_decide (value = "") then None
              else Some (decode name, decode value)
          | Bare _ => None
          end) fields.

(** The values of the parameter [name], in their order. *)
Definition values_of (name : string) (pairs : list (string * string))
    : list string :=
  snd <$> filter (fun nv => nv.1 = name) pairs.

(** What one turn of the receive loop may write: nothing, or one of the
    messages [unchoke], [interested] and [piece], and a keep-alive behind
    it. *)
Definition answer_message (w : bytes) : Prop :=
  w = []
  \/ exists msg_id payload,
       (msg_id = 1 \/ msg_id = 2 \/ msg_id = 7) /\ w = frame msg_id payload.

Definition reply (w : bytes) : Prop :=
  exists first second,
    w = first ++ second
    /\ answer_message first
    /\ (second = [] \/ second = to_bytes4 0).

(** No peer has a failed attempt on its count. *)
Definition no_retries (retry_counter : gmap string nat) : Prop :=
  forall peer_id n, retry_counter !! peer_id = Some n -> n = 0.

(** The two views of a directory agree on the piece files. *)
Definition in_step (d : disk) : Prop :=
  forall i, d.1 !! i = d.2 !! piece_file_name i.

(** ** A small torrent for the examples

    One file of 6 bytes, in two pieces of at most 4 bytes, with the hashes
    of the two pieces. *)
Module Sample.

Definition piece0 : bytes := [x61; x62; x63; x64].
Definition piece1 : bytes := [x61; x62].

Definition fresh : PieceManager.t :=
  PieceManager.set_piece_hashes
    [SHA1.hexdigest piece0; SHA1.hexdigest piece1]
    (PieceManager.__init__ 4 2 [("f.bin", 6)] ∅ ∅).

(** After the last piece has been asked from a peer that has both. *)
Definition asked : PieceManager.t :=
  match PieceManager.get_next_request 1 [true; true] fresh with
  | Returns (_, pm) => pm
  | Raises _ => fresh
  end.

Definition disk_ok : PieceManager.storage :=
  PieceManager.Storage true true (fun _ => true) (fun _ => 0).

(** The same torrent when the descriptor came without piece hashes. *)
Definition unhashed : PieceManager.t :=
  PieceManager.__init__ 4 2 [("f.bin", 6)] ∅ ∅.

(** A connected session whose peer announced [bitfield]. *)
Definition session (bitfield : list bool) : PeerConnection.t :=
  PeerConnection.set_peer_bitfield bitfield
    (PeerConnection.set_connected true
       (PeerConnection.__init__ "-ST0001-bbbbbbbbbbbb"
          (PeerConnection.HashStr "") fresh "-ST0001-aaaaaaaaaaaa" 0%Q)).

(** Two sessions: both peers hold piece 0, one of them holds piece 1. *)
Definition swarm : list PeerConnection.t :=
  [session [true; true]; session [true; false]].

Definition unit_env : PeerConnection.env :=
  PeerConnection.Env 0 0 0 0 disk_ok true.

(** A session that waits for the blocks of piece 1. *)
Definition waiting : PeerConnection.t :=
  PeerConnection.set_request_queue [(1, 0, 2)] (session [true; true]).

(** A session about to dial, and the socket of a peer that answers the
    handshake with the right fingerprint behind a wrong protocol name. *)
Definition fingerprint_hex : string :=
  "0102030405060708090a0b0c0d0e0f1011121314".

Definition dialing : PeerConnection.t :=
  PeerConnection.__init__ "-ST0001-bbbbbbbbbbbb"
    (PeerConnection.HashStr fingerprint_hex) fresh "-ST0001-aaaaaaaaaaaa"
    0%Q.

Definition odd_answer : bytes :=
  [x00] ++ replicate 19 x58 ++ replicate 8 x00
    ++ default [] (fromhex fingerprint_hex)
    ++ list_byte_of_string "-ST0001-bbbbbbbbbbbb".

Definition odd_peer : PeerConnection.tcp :=
  PeerConnection.Tcp odd_answer [] 2.

End Sample.

(** ** More states of the small torrent *)

Module Scene.

(** Piece 1 has arrived and lies in its piece file. *)
Definition seeded : PieceManager.t :=
  (PieceManager.receive_piece Sample.disk_ok 1 Sample.piece1 Sample.asked).2.


(** A piece manager that starts on a directory with both piece files. *)
Definition on_disk : PieceManager.t :=
  PieceManager.__init__ 4 2 [("f.bin", 6)]
    {[0 := Sample.piece0; 1 := Sample.piece1]}
    {[piece_file_name 0 := Sample.piece0;
      piece_file_name 1 := Sample.piece1]}.

(** Piece 1 is held and piece 0 has been asked for; then the hashes are set
    once more and piece 0 arrives. *)
Definition asked_again : PieceManager.t :=
  match PieceManager.get_next_request 0 [true; true] seeded with
  | Returns (_, pm) => pm
  | Raises _ => seeded
  end.

Definition complete : PieceManager.t :=
  (PieceManager.receive_piece Sample.disk_ok 0 Sample.piece0
     (PieceManager.set_piece_hashes
        [SHA1.hexdigest Sample.piece0; SHA1.hexdigest Sample.piece1]
        asked_again)).2.


(** A session with a socket that takes one more message. *)
Definition online (received : bytes) : PeerConnection.t :=
  PeerConnection.set_socket (Some (PeerConnection.Tcp received [] 1))
    (Sample.session [true; true]).

(** The same when we do not choke the peer, and when it does not choke
    us. *)
Definition uploader : PeerConnection.t :=
  PeerConnection.set_am_choking false (online []).

Definition unchoked : PeerConnection.t :=
  PeerConnection.set_peer_choking false (Sample.session [true; true]).

(** Two peers of one torrent, as they announce. *)
Definition alice : state_manager.peer_info :=
  state_manager.PeerInfo "-ST0001-aaaaaaaaaaaa" "10.0.0.1" 6881 6.

Definition bob : state_manager.peer_info :=
  state_manager.PeerInfo "-ST0001-bbbbbbbbbbbb" "10.0.0.2" 6881 6.

Definition announce (event : string) (p : state_manager.peer_info)
    : state_manager.request :=
  state_manager.Request event "c0ffee" 0 p.

Definition no_address (ip : string) : option bytes := None.

End Scene.

(** A decidable fact about closed terms, settled by evaluation. *)
Ltac decide_by_computation :=
  apply (bool_decide_unpack _); vm_compute; exact I.

(** * Properties *)

Example sha1_empty :
  SHA1.hexdigest [] = "da39a3ee5e6b4b0d3255bfef95601890afd80709".
Proof. vm_compute. reflexivity. Qed.

Example sha1_abc :
  SHA1.hexdigest [x61; x62; x63] = "a9993e364706816aba3e25717850c26c9cd0d89d".
Proof. vm_compute. reflexivity. Qed.

(** A message of 56 bytes needs a second block for its padding. *)
Example sha1_two_blocks :
  SHA1.hexdigest
    (list_byte_of_string
       "abcdbcdecdefdefgefghfghighijhijkijkljklmklmnlmnomnopnopq")
  = "84983e441c3bd26ebaae4aa1f95129e5e54670f1".
Proof. vm_compute. reflexivity. Qed.

(** ** The piece manager *)

Section PieceManagerFacts.

Import PieceManager.

Lemma is_candidate_returns pm peer_has_pieces i :
  i < length (have_pieces pm) ->
  i < length peer_has_pieces ->
  exists b, is_candidate pm peer_has_pieces i = Returns b
            /\ (b = true <-> wanted pm peer_has_pieces i).
Proof.
  intros Hh Hp. unfold is_candidate, wanted.
  destruct (lookup_lt_is_Some_2 _ _ Hh) as [h Eh].
  destruct (lookup_lt_is_Some_2 _ _ Hp) as [a Ea].
  rewrite Eh, Ea. destruct h.
  - exists false. split; [reflexivity|]. split; [discriminate|].
    intros [? _]. discriminate.
  - case_bool_decide as Hin.
    + exists false. split; [reflexivity|]. split; [discriminate|].
      intros (_ & Hn & _). contradiction.
    + exists a. split; [reflexivity|]. split.
      * intros ->. auto.
      * intros (_ & _ & E). congruence.
Qed.

Lemma collect_candidates_returns pm peer_has_pieces indexes :
  (forall i, i ∈ indexes ->
             i < length (have_pieces pm) /\ i < length peer_has_pieces) ->
  exists cs, collect_candidates pm peer_has_pieces indexes = Returns cs
             /\ forall i, i ∈ cs <-> i ∈ indexes /\ wanted pm peer_has_pieces i.
Proof.
  induction indexes as [|i rest IH]; intros Hin; simpl.
  - exists []. split; [reflexivity|]. intros i. split.
    + intros H. inversion H.
    + intros [H _]. inversion H.
  - destruct (Hin i) as [Hh Hp]; [left|].
    destruct (is_candidate_returns pm peer_has_pieces i Hh Hp)
      as (b & -> & Hb).
    destruct IH as (cs & -> & Hcs).
    { intros j Hj. apply Hin. right. exact Hj. }
    simpl. eexists. split; [reflexivity|]. intros j.
    destruct b.
    + rewrite !elem_of_cons, Hcs. split.
      * intros [-> | [? ?]]; [split; [auto | apply Hb; reflexivity] | auto].
      * intros [[-> | ?] ?]; auto.
    + rewrite elem_of_cons, Hcs. split.
      * intros [? ?]; auto.
      * intros [[-> | ?] Hw]; [|auto].
        apply Hb in Hw. discriminate.
Qed.

Lemma random_choice_elem {A} r (xs : list A) :
  xs <> [] -> exists x, random_choice r xs = Some x /\ x ∈ xs.
Proof.
  intros Hne. unfold random_choice.
  assert (r mod length xs < length xs) as Hlt.
  { apply Nat.mod_upper_bound. destruct xs; [congruence | simpl; lia]. }
  destruct (lookup_lt_is_Some_2 _ _ Hlt) as [x Hx].
  exists x. split; [exact Hx|]. eapply list_elem_of_lookup_2. exact Hx.
Qed.

Lemma wanted_in_range pm peer_has_pieces i :
  well_formed pm -> wanted pm peer_has_pieces i -> i < piece_count pm.
Proof.
  intros Hwf (Hh & _). rewrite <- Hwf. eapply lookup_lt_Some. exact Hh.
Qed.

Lemma candidates_of_request pm peer_has_pieces :
  well_formed pm ->
  piece_count pm <= length peer_has_pieces ->
  exists cs,
    collect_candidates pm peer_has_pieces (seq 0 (piece_count pm))
    = Returns cs
    /\ forall i, i ∈ cs <-> wanted pm peer_has_pieces i.
Proof.
  intros Hwf Hlen.
  destruct (collect_candidates_returns pm peer_has_pieces
              (seq 0 (piece_count pm))) as (cs & E & Hcs).
  { intros i Hi. apply elem_of_seq in Hi. rewrite Hwf. lia. }
  exists cs. split; [exact E|]. intros i. rewrite Hcs. split.
  - intros [_ ?]. assumption.
  - intros Hw. split; [|assumption]. apply elem_of_seq.
    pose proof (wanted_in_range _ _ _ Hwf Hw). lia.
Qed.


(** What [receive_piece] does to the return value, [have_pieces] and
    [requested_pieces], by the path it takes: too long, digest mismatch,
    a failure before the piece is marked, or the piece marked. *)
Lemma receive_piece_outcome io i data pm :
  let r := receive_piece io i data pm in
  (piece_length pm < length data /\ r = (false, pm))
  \/ (length data <= piece_length pm /\ verify_piece pm i data = false
      /\ r = (false, set_requested_pieces (requested_pieces pm ∖ {[i]}) pm))
  \/ (length data <= piece_length pm /\ verify_piece pm i data = true
      /\ r.1 = false
      /\ have_pieces r.2 = have_pieces pm
      /\ requested_pieces r.2 = requested_pieces pm)
  \/ (length data <= piece_length pm /\ verify_piece pm i data = true
      /\ i < length (have_pieces pm)
      /\ have_pieces r.2 = <[i:=true]> (have_pieces pm)
      /\ requested_pieces r.2 = requested_pieces pm ∖ {[i]}).
Proof.
  unfold receive_piece.
  destruct (piece_length pm <? length data) eqn:Elen.
  { left. apply Nat.ltb_lt in Elen. auto. }
  apply Nat.ltb_ge in Elen. right.
  destruct (verify_piece pm i data) eqn:Ever; simpl.
  2: { left. auto. }
  right.
  destruct (can_write io); simpl.
  2: { left. auto. }
  case_bool_decide as Hi; simpl in *.
  2: { left. auto. }
  right.
  destruct (forallb id _); [|simpl; auto].
  destruct (can_assemble io); [|simpl; auto].
  unfold _assemble_files; simpl.
  destruct (files pm); [simpl; auto|].
  destruct (piece_length pm =? 0); simpl; auto.
Qed.

Lemma receive_piece_true io i data pm :
  (receive_piece io i data pm).1 = true ->
  length data <= piece_length pm /\ verify_piece pm i data = true
  /\ i < length (have_pieces pm)
  /\ have_pieces (receive_piece io i data pm).2 = <[i:=true]> (have_pieces pm)
  /\ requested_pieces (receive_piece io i data pm).2
     = requested_pieces pm ∖ {[i]}.
Proof.
  intros Ht.
  destruct (receive_piece_outcome io i data pm)
    as [[_ E] | [(_ & _ & E) | [(_ & _ & E & _) | H]]].
  - rewrite E in Ht. discriminate.
  - rewrite E in Ht. discriminate.
  - rewrite E in Ht. discriminate.
  - exact H.
Qed.

Lemma verify_piece_hash pm i data h :
  piece_hashes pm !! i = Some h ->
  verify_piece pm i data = true <-> SHA1.hexdigest data = h.
Proof.
  intros Eh. unfold verify_piece. rewrite Eh.
  case_bool_decide; split; congruence.
Qed.

Example asked_requested :
  requested_pieces Sample.asked = {[1]}
  /\ have_pieces Sample.asked = [false; false]
  /\ last_piece_length Sample.asked = 2.
Proof. vm_compute. auto. Qed.






Example receive_piece_accepts :
  (receive_piece Sample.disk_ok 1 Sample.piece1 Sample.asked).1 = true.
Proof. vm_compute. reflexivity. Qed.


(** C4, as the code has it.  For the final piece [P-1], data longer than
    [piece_length] is refused and nothing changes.  Data of any other
    length is not compared with [last_piece_length]: it is refused when
    [verify_piece] fails, which takes [P-1] out of [requested_pieces], and
    it is accepted when [verify_piece] passes and the files can be
    written. *)
Theorem receive_final_piece io pm data :
  let i := piece_count pm - 1 in
  (piece_length pm < length data -> receive_piece io i data pm = (false, pm))
  /\ (length data <= piece_length pm ->
      verify_piece pm i data = false ->
      receive_piece io i data pm
      = (false, set_requested_pieces (requested_pieces pm ∖ {[i]}) pm))
  /\ ((receive_piece io i data pm).1 = true ->
      length data <= piece_length pm /\ verify_piece pm i data = true)
  /\ (length data <= piece_length pm ->
      verify_piece pm i data = true ->
      can_write io = true -> can_assemble io = true ->
      i < length (have_pieces pm) -> 0 < piece_length pm ->
      (receive_piece io i data pm).1 = true).
Proof.
  intros i. repeat split.
  - intros Hl. unfold receive_piece.
    apply Nat.ltb_lt in Hl. rewrite Hl. reflexivity.
  - intros Hl Hv. unfold receive_piece.
    apply Nat.ltb_ge in Hl. rewrite Hl, Hv. reflexivity.
  - apply receive_piece_true in H. tauto.
  - apply receive_piece_true in H. tauto.
  - intros Hl Hv Hw Ha Hi Hp. unfold receive_piece.
    apply Nat.ltb_ge in Hl. rewrite Hl, Hv, Hw. simpl.
    rewrite bool_decide_eq_true_2 by exact Hi.
    destruct (forallb id _); [|reflexivity].
    rewrite Ha. unfold _assemble_files. simpl.
    destruct (files pm); [reflexivity|].
    destruct (piece_length pm =? 0) eqn:E; [|reflexivity].
    apply Nat.eqb_eq in E. lia.
Qed.

(** C4 as stated fails: one byte for the final piece, whose length is 2,
    is refused for its digest, and the piece leaves [requested_pieces]. *)
Lemma receive_final_piece_short_frees_request :
  ~ (length [x61] <> last_piece_length Sample.asked ->
     (receive_piece Sample.disk_ok (piece_count Sample.asked - 1) [x61]
        Sample.asked).1 = false
     /\ have_pieces
          (receive_piece Sample.disk_ok (piece_count Sample.asked - 1) [x61]
             Sample.asked).2 = have_pieces Sample.asked
     /\ requested_pieces
          (receive_piece Sample.disk_ok (piece_count Sample.asked - 1) [x61]
             Sample.asked).2 = requested_pieces Sample.asked).
Proof.
  intros H. destruct H as (_ & _ & Hr).
  - vm_compute. lia.
  - apply (f_equal (fun s : gset nat => bool_decide (1 ∈ s))) in Hr.
    vm_compute in Hr. discriminate.
Qed.

(** Without piece hashes one byte is accepted as the final piece of two. *)
Example receive_final_piece_short_accepted :
  last_piece_length Sample.unhashed = 2
  /\ (receive_piece Sample.disk_ok (piece_count Sample.unhashed - 1) [x61]
        Sample.unhashed).1 = true.
Proof. vm_compute. auto. Qed.

Lemma check_piece_requested pm i :
  requested_pieces (check_piece pm i) = requested_pieces pm.
Proof.
  unfold check_piece. destruct (piece_files pm !! i); [|reflexivity].
  case_bool_decide; [destruct (verify_piece pm i _)|]; reflexivity.
Qed.

Lemma check_pieces_requested indexes pm :
  requested_pieces (foldl check_piece pm indexes) = requested_pieces pm.
Proof.
  revert pm. induction indexes as [|i rest IH]; intros pm; simpl.
  - reflexivity.
  - rewrite IH. apply check_piece_requested.
Qed.

Lemma _check_existing_data_requested pm :
  requested_pieces (_check_existing_data pm) = requested_pieces pm.
Proof.
  unfold _check_existing_data.
  assert (forall (fs : list (string * nat)) st,
            requested_pieces
              (foldl (fun st _ => foldl check_piece st (seq 0 (piece_count st)))
                     st fs)
            = requested_pieces st) as Hfold.
  { intros fs. induction fs as [|f fs IH]; intros st; simpl.
    - reflexivity.
    - rewrite IH. apply check_pieces_requested. }
  destruct (0 <? total_size pm); simpl; apply Hfold.
Qed.

Lemma collect_candidates_wanted pm peer_has_pieces indexes cs :
  collect_candidates pm peer_has_pieces indexes = Returns cs ->
  forall i, i ∈ cs -> have_pieces pm !! i = Some false.
Proof.
  revert cs. induction indexes as [|j rest IH]; intros cs; simpl.
  - intros [= <-] i Hi. inversion Hi.
  - unfold is_candidate.
    destruct (have_pieces pm !! j) as [[|]|] eqn:Ej; simpl; try discriminate.
    + destruct (collect_candidates pm peer_has_pieces rest);
        simpl; [|discriminate].
      intros [= <-]. apply IH. reflexivity.
    + case_bool_decide; simpl.
      * destruct (collect_candidates pm peer_has_pieces rest);
          simpl; [|discriminate].
        intros [= <-]. apply IH. reflexivity.
      * destruct (peer_has_pieces !! j) as [b|]; simpl; [|discriminate].
        destruct (collect_candidates pm peer_has_pieces rest);
          simpl; [|discriminate].
        intros [= <-] i Hi. destruct b.
        -- apply elem_of_cons in Hi as [-> | Hi]; [exact Ej|].
           eapply IH; [reflexivity | exact Hi].
        -- eapply IH; [reflexivity | exact Hi].
Qed.

Lemma get_next_request_invariant r peer_has_pieces pm res pm' :
  get_next_request r peer_has_pieces pm = Returns (res, pm') ->
  held_not_requested pm -> held_not_requested pm'.
Proof.
  unfold get_next_request.
  destruct (collect_candidates pm peer_has_pieces (seq 0 (piece_count pm)))
    as [cs|] eqn:Ecs; simpl; [|discriminate].
  pose proof (collect_candidates_wanted _ _ _ _ Ecs) as Hcs.
  destruct cs as [|c cs].
  - intros [= <- <-]. auto.
  - assert (forall x, x ∈ c :: cs ->
              held_not_requested pm ->
              held_not_requested
                (set_requested_pieces ({[x]} ∪ requested_pieces pm) pm))
      as Hadd.
    { intros x Hx Hinv i Hi. simpl in *.
      rewrite elem_of_union, elem_of_singleton. intros [-> | Hin].
      - rewrite (Hcs _ Hx) in Hi. discriminate.
      - exact (Hinv i Hi Hin). }
    unfold get_rarest_piece.
    destruct (random_choice r (c :: cs)) as [x|] eqn:Ex.
    + intros [= <- <-]. apply Hadd.
      unfold random_choice in Ex. eapply list_elem_of_lookup_2. exact Ex.
    + intros [= <- <-]. apply Hadd. left.
Qed.

Lemma receive_piece_invariant io i data pm :
  held_not_requested pm ->
  held_not_requested (receive_piece io i data pm).2.
Proof.
  intros Hinv j.
  destruct (receive_piece_outcome io i data pm)
    as [[_ E] | [(_ & _ & E) | [(_ & _ & _ & Eh & Er) | (_ & _ & _ & Eh & Er)]]].
  - rewrite E. apply Hinv.
  - rewrite E. simpl. intros Hj Hin.
    apply elem_of_difference in Hin as [Hin _]. exact (Hinv j Hj Hin).
  - rewrite Eh, Er. apply Hinv.
  - rewrite Eh, Er. intros Hj Hin.
    apply elem_of_difference in Hin as [Hin Hne].
    rewrite elem_of_singleton in Hne.
    rewrite list_lookup_insert_ne in Hj by congruence.
    exact (Hinv j Hj Hin).
Qed.

Lemma check_piece_shape pm i :
  length (have_pieces (check_piece pm i)) = length (have_pieces pm)
  /\ piece_count (check_piece pm i) = piece_count pm.
Proof.
  unfold check_piece. destruct (piece_files pm !! i); [|auto].
  case_bool_decide; [destruct (verify_piece pm i _)|]; simpl;
    rewrite ?length_insert; auto.
Qed.

Lemma check_pieces_shape indexes pm :
  length (have_pieces (foldl check_piece pm indexes)) = length (have_pieces pm)
  /\ piece_count (foldl check_piece pm indexes) = piece_count pm.
Proof.
  revert pm. induction indexes as [|i rest IH]; intros pm; simpl; [auto|].
  destruct (IH (check_piece pm i)) as [-> ->]. apply check_piece_shape.
Qed.

Lemma _check_existing_data_shape pm :
  length (have_pieces (_check_existing_data pm)) = length (have_pieces pm)
  /\ piece_count (_check_existing_data pm) = piece_count pm.
Proof.
  unfold _check_existing_data.
  assert (forall (fs : list (string * nat)) st,
            let st' :=
              foldl (fun st _ => foldl check_piece st (seq 0 (piece_count st)))
                    st fs in
            length (have_pieces st') = length (have_pieces st)
            /\ piece_count st' = piece_count st) as Hfold.
  { intros fs. induction fs as [|f fs IH]; intros st; simpl; [auto|].
    destruct (IH (foldl check_piece st (seq 0 (piece_count st)))) as [-> ->].
    apply check_pieces_shape. }
  destruct (0 <? total_size pm); simpl; apply Hfold.
Qed.

Lemma receive_piece_piece_count io i data pm :
  piece_count (receive_piece io i data pm).2 = piece_count pm.
Proof.
  unfold receive_piece.
  destruct (piece_length pm <? length data); [reflexivity|].
  destruct (verify_piece pm i data); simpl; [|reflexivity].
  destruct (can_write io); simpl; [|reflexivity].
  case_bool_decide; simpl; [|reflexivity].
  destruct (forallb id _); [|reflexivity].
  destruct (can_assemble io); [|reflexivity].
  unfold _assemble_files; simpl.
  destruct (files pm); [reflexivity|].
  destruct (piece_length pm =? 0); reflexivity.
Qed.

(** [have_pieces] keeps the length that [__init__] gives it. *)
Lemma reachable_well_formed pm : reachable pm -> well_formed pm.
Proof.
  unfold well_formed.
  induction 1 as [pl pc fs pf out | hs pm _ IH | r ph pm res pm' _ IH E
                 | io i data pm _ IH].
  - unfold __init__.
    destruct (_check_existing_data_shape
                (Build pl pc fs (replicate pc false) ∅ [] 0 0 pf out))
      as [-> ->].
    simpl. apply length_replicate.
  - exact IH.
  - unfold get_next_request in E.
    destruct (collect_candidates pm ph (seq 0 (piece_count pm))) as [cs|];
      simpl in E; [|discriminate].
    destruct cs as [|c cs]; [injection E as <- <-; exact IH|].
    destruct (get_rarest_piece r (c :: cs)); injection E as <- <-; exact IH.
  - rewrite receive_piece_piece_count.
    destruct (receive_piece_outcome io i data pm)
      as [[_ E] | [(_ & _ & E) | [(_ & _ & _ & E & _) | (_ & _ & _ & E & _)]]];
      rewrite E; simpl; rewrite ?length_insert; exact IH.
Qed.

(** C10.  In every piece manager that [__init__], [set_piece_hashes],
    [get_next_request] and [receive_piece] can build, no piece is at once
    held and requested. *)
Theorem reachable_held_not_requested pm :
  reachable pm -> held_not_requested pm.
Proof.
  induction 1 as [pl pc fs pf out | hs pm _ IH | r ph pm res pm' _ IH E
                 | io i data pm _ IH].
  - intros i _. unfold __init__.
    rewrite _check_existing_data_requested. simpl. apply not_elem_of_empty.
  - exact IH.
  - eapply get_next_request_invariant; eassumption.
  - apply receive_piece_invariant. exact IH.
Qed.

Lemma reachable_held_not_requested_witness :
  held_not_requested
    (receive_piece Sample.disk_ok 1 Sample.piece1 Sample.asked).2.
Proof.
  apply reachable_held_not_requested.
  apply reach_receive_piece.
  apply (reach_get_next_request 1 [true; true] Sample.fresh (Some 1)).
  - apply reach_set_piece_hashes. apply reach_init.
  - reflexivity.
Defined.

(** C3, as the code has it.  [get_next_request] draws its piece with
    [random.choice] among all the pieces that are missing, unrequested and
    available at the peer: what it returns is one of them, and each of them
    is returned for some draw.  No count of holders enters the choice, and
    there is no setting that changes it. *)
Theorem get_next_request_any_candidate peer_has_pieces pm :
  well_formed pm ->
  piece_count pm <= length peer_has_pieces ->
  (forall r i pm',
      get_next_request r peer_has_pieces pm = Returns (Some i, pm') ->
      wanted pm peer_has_pieces i)
  /\ (forall j,
        wanted pm peer_has_pieces j ->
        exists r,
          get_next_request r peer_has_pieces pm
          = Returns (Some j,
                     set_requested_pieces ({[j]} ∪ requested_pieces pm) pm)).
Proof.
  intros Hwf Hlen. split.
  - intros r i pm' E. unfold get_next_request in E.
    destruct (candidates_of_request pm peer_has_pieces Hwf Hlen)
      as (cs & Ecs & Hcs).
    rewrite Ecs in E. simpl in E.
    destruct cs as [|c cs]; [discriminate|].
    unfold get_rarest_piece in E.
    destruct (random_choice_elem r (c :: cs)) as (x & Ex & Hx);
      [discriminate|].
    rewrite Ex in E. injection E as <- <-. apply Hcs. exact Hx.
  - intros j Hj. unfold get_next_request.
    destruct (candidates_of_request pm peer_has_pieces Hwf Hlen)
      as (cs & -> & Hcs).
    apply Hcs in Hj. simpl.
    destruct (list_elem_of_lookup_1 _ _ Hj) as [k Hk].
    exists k. destruct cs as [|c cs]; [inversion Hj|].
    unfold get_rarest_piece, random_choice.
    rewrite Nat.mod_small by (eapply lookup_lt_Some; exact Hk).
    rewrite Hk. reflexivity.
Qed.

Lemma get_next_request_any_candidate_witness :
  (forall r i pm',
      get_next_request r [true; true] Sample.fresh = Returns (Some i, pm') ->
      wanted Sample.fresh [true; true] i)
  /\ (forall j,
        wanted Sample.fresh [true; true] j ->
        exists r,
          get_next_request r [true; true] Sample.fresh
          = Returns (Some j,
                     set_requested_pieces
                       ({[j]} ∪ requested_pieces Sample.fresh) Sample.fresh)).
Proof.
  apply get_next_request_any_candidate; [reflexivity | vm_compute; lia].
Defined.

(** C3 as stated fails: two peers hold piece 0 and one holds piece 1, both
    pieces are candidates, and the draw 0 returns piece 0. *)
Lemma get_next_request_not_rarest :
  ~ (forall i pm',
       get_next_request 0 [true; true] Sample.fresh = Returns (Some i, pm') ->
       forall j, wanted Sample.fresh [true; true] j ->
                 holders Sample.swarm i <= holders Sample.swarm j).
Proof.
  intros H.
  assert (exists pm', get_next_request 0 [true; true] Sample.fresh
                      = Returns (Some 0, pm')) as [pm' E].
  { eexists. vm_compute. reflexivity. }
  specialize (H 0 pm' E 1).
  assert (wanted Sample.fresh [true; true] 1) as Hw.
  { split; [reflexivity|]. split; [decide_by_computation | reflexivity]. }
  specialize (H Hw). vm_compute in H. lia.
Qed.

End PieceManagerFacts.

(** ** The peer session *)

Section PeerConnectionFacts.

Import PeerConnection.

Lemma _send_message_same now msg_id payload c :
  same_session c (_send_message now msg_id payload c).2
  /\ connected (_send_message now msg_id payload c).2 = connected c.
Proof.
  unfold _send_message, same_session.
  destruct (connected c) eqn:Ec; simpl; [|rewrite Ec; auto].
  destruct (socket c) as [s|]; simpl; [|rewrite Ec; auto].
  destruct (int_to_bytes4 _); [|simpl; rewrite ?Ec; auto].
  destruct (msg_id <? 256); [|simpl; rewrite ?Ec; auto].
  destruct (sendall _ s); simpl; rewrite ?Ec; auto.
Qed.

Lemma int_to_bytes4_Some n :
  (N.of_nat n < 4294967296)%N -> int_to_bytes4 n = Some (to_bytes4 n).
Proof.
  intros H. unfold int_to_bytes4.
  destruct (N.ltb_spec (N.of_nat n) 4294967296); [reflexivity | lia].
Qed.

Lemma int_to_bytes4_is_Some n b :
  int_to_bytes4 n = Some b ->
  (N.of_nat n < 4294967296)%N /\ b = to_bytes4 n.
Proof.
  unfold int_to_bytes4.
  destruct (N.ltb_spec (N.of_nat n) 4294967296); [|discriminate].
  intros [= <-]. auto.
Qed.

(** A message without payload is never too long. *)
Lemma _send_message_empty now msg_id c e :
  (_send_message now msg_id [] c).1 = Failed e -> 256 <= msg_id.
Proof.
  unfold _send_message.
  destruct (connected c); cbn [negb]; [|discriminate].
  destruct (socket c) as [s|]; [|discriminate].
  change (int_to_bytes4 (length (@nil byte) + 1)) with (Some (to_bytes4 1)).
  destruct (Nat.ltb_spec msg_id 256); [|intros _; assumption].
  destruct (sendall _ s); discriminate.
Qed.

Lemma _send_interested_never_fails now c e :
  (_send_interested now c).1 <> Failed e.
Proof.
  unfold _send_interested.
  pose proof (_send_message_empty now 2 c) as H.
  destruct (_send_message now 2 [] c) as [[| | |x] c']; cbn [fst];
    try discriminate.
  intros _. specialize (H x eq_refl). lia.
Qed.

Lemma _send_interested_same now c :
  same_session c (_send_interested now c).2
  /\ connected (_send_interested now c).2 = connected c.
Proof.
  unfold _send_interested.
  pose proof (_send_message_same now 2 [] c) as H.
  destruct (_send_message now 2 [] c) as [[] c']; exact H.
Qed.

Lemma _send_keep_alive_same now c :
  same_session c (_send_keep_alive now c).2.
Proof.
  unfold _send_keep_alive, same_session.
  destruct (connected c); simpl; [|auto].
  destruct (socket c) as [s|]; simpl; [|auto].
  destruct (sendall _ s); simpl; auto.
Qed.



(** The same on the wire: the frame 00 00 00 01 00 is a [choke]. *)
Example receiver_turn_choke :
  let c :=
    set_peer_choking false
      (set_socket (Some (Tcp [x00; x00; x00; x01; x00] [] 1)) Sample.waiting) in
  let r := receiver_turn Sample.unit_env c Sample.asked in
  r.1.1 = Continue
  /\ peer_choking r.1.2 = true
  /\ request_queue r.1.2 = [(1, 0, 2)].
Proof. vm_compute. auto. Qed.

Lemma has_piece_testbit x k :
  (Nat.land (Nat.shiftr x k) 1 =? 0) = negb (Nat.testbit x k).
Proof.
  change 1 with (Nat.ones 1) at 1.
  rewrite Nat.land_ones, Nat.shiftr_div_pow2, Nat.pow_1_r.
  rewrite <- Nat.testbit_spec'.
  destruct (Nat.testbit x k); reflexivity.
Qed.

Lemma bitfield_loop_lookup payload indexes bitfield i :
  (forall j, j ∈ indexes -> j / 8 < length payload) ->
  bitfield_loop payload indexes bitfield !! i
  = (fun old => old || (bool_decide (i ∈ indexes) && bitfield_bit payload i))
      <$> bitfield !! i.
Proof.
  revert bitfield.
  induction indexes as [|j rest IH]; intros bitfield Hin;
    cbn [bitfield_loop].
  - destruct (bitfield !! i) as [old|]; simpl; [|reflexivity].
    rewrite orb_false_r. reflexivity.
  - destruct (lookup_lt_is_Some_2 payload (j / 8)) as [b Eb].
    { apply Hin. left. }
    rewrite Eb, IH by (intros k Hk; apply Hin; right; exact Hk).
    rewrite has_piece_testbit.
    destruct (decide (j = i)) as [->|Hne].
    + unfold bitfield_bit. rewrite Eb.
      rewrite (bool_decide_eq_true_2 (i ∈ i :: rest)) by left.
      destruct (Nat.testbit (byte_val b) (7 - i mod 8)); simpl.
      * destruct (decide (i < length bitfield)) as [Hlt|Hge].
        -- rewrite list_lookup_insert_eq by exact Hlt.
           destruct (lookup_lt_is_Some_2 bitfield i Hlt) as [old ->].
           simpl. rewrite orb_true_r. reflexivity.
        -- rewrite list_insert_ge by lia.
           rewrite (lookup_ge_None_2 bitfield i) by lia. reflexivity.
      * destruct (bitfield !! i) as [old|]; simpl; [|reflexivity].
        rewrite andb_false_r. reflexivity.
    + assert (bool_decide (i ∈ j :: rest) = bool_decide (i ∈ rest)) as ->.
      { apply bool_decide_ext. rewrite elem_of_cons. split; [|auto].
        intros [->|?]; [congruence | assumption]. }
      destruct (negb _); [reflexivity|].
      rewrite list_lookup_insert_ne by exact Hne. reflexivity.
Qed.

Lemma _process_bitfield_lookup payload c i :
  (length (peer_bitfield c) + 7) / 8 <= length payload ->
  peer_bitfield (_process_bitfield payload c) !! i
  = (fun old => old || bitfield_bit payload i) <$> peer_bitfield c !! i.
Proof.
  intros Hlen. unfold _process_bitfield.
  destruct (length payload <? _) eqn:E; [apply Nat.ltb_lt in E; lia|].
  simpl. rewrite bitfield_loop_lookup.
  - destruct (peer_bitfield c !! i) as [old|] eqn:Ei; simpl; [|reflexivity].
    rewrite bool_decide_eq_true_2; [reflexivity|].
    apply elem_of_seq. apply lookup_lt_Some in Ei. lia.
  - intros j Hj. apply elem_of_seq in Hj.
    eapply Nat.lt_le_trans; [|exact Hlen].
    apply Nat.Div0.div_lt_upper_bound.
    pose proof (Nat.div_mod_eq (length (peer_bitfield c) + 7) 8) as Hd.
    pose proof (Nat.mod_upper_bound (length (peer_bitfield c) + 7) 8).
    lia.
Qed.

Lemma bitfield_interest_same now i bitfield c pm :
  same_session c (bitfield_interest now i bitfield c pm).1.2.
Proof.
  revert i. induction bitfield as [|b rest IH]; intros i; simpl.
  - repeat split.
  - destruct b; [|apply IH].
    destruct (PieceManager.have_pieces pm !! i) as [[|]|];
      [apply IH | | repeat split].
    destruct (am_interested c); [repeat split|].
    pose proof (_send_interested_same now c) as [H _].
    unfold after_send. destruct (_send_interested now c) as [[] c']; exact H.
Qed.

(** C7, as the code has it.  When a [bitfield] message of at least
    [ceil(P/8)] bytes is dispatched, every piece [i < P] whose bit
    [7 - i mod 8] of byte [i div 8] is set becomes available; a piece that
    was available before stays available, also when its bit is clear. *)
Theorem dispatch_bitfield e payload c pm i old :
  (length (peer_bitfield c) + 7) / 8 <= length payload ->
  peer_bitfield c !! i = Some old ->
  peer_bitfield (dispatch e 5 (Some payload) c pm).1.2 !! i
  = Some (old || bitfield_bit payload i).
Proof.
  intros Hlen Hold.
  assert (peer_bitfield (dispatch e 5 (Some payload) c pm).1.2
          = peer_bitfield (_process_bitfield payload
                             (set_last_activity (t_frame e) c))) as ->.
  { unfold dispatch. simpl.
    set (c1 := _process_bitfield payload (set_last_activity (t_frame e) c)).
    pose proof (bitfield_interest_same (t_sent e) 0 (peer_bitfield c1) c1 pm)
      as (_ & _ & Hb & _).
    destruct (bitfield_interest (t_sent e) 0 (peer_bitfield c1) c1 pm)
      as [[[] c2] pm2]; simpl in *; try exact Hb.
    destruct (Qle_bool _ _); simpl; [exact Hb|].
    destruct (_send_keep_alive_same (t_alive e) c2) as (_ & _ & Hk & _).
    rewrite Hk. exact Hb. }
  rewrite _process_bitfield_lookup by exact Hlen.
  simpl. rewrite Hold. reflexivity.
Qed.

Lemma dispatch_bitfield_witness :
  peer_bitfield
    (dispatch Sample.unit_env 5 (Some [x40]) (Sample.session [true; false])
       Sample.asked).1.2 !! 1
  = Some (false || bitfield_bit [x40] 1).
Proof.
  apply (dispatch_bitfield Sample.unit_env [x40]
           (Sample.session [true; false]) Sample.asked 1 false).
  - vm_compute. lia.
  - reflexivity.
Defined.

(** C7 as stated fails: piece 0 was available, the bitfield [00] clears
    its bit, and piece 0 is still available. *)
Lemma dispatch_bitfield_keeps_old :
  ~ (forall i, i < 2 ->
       peer_bitfield
         (dispatch Sample.unit_env 5 (Some [x00])
            (Sample.session [true; false]) Sample.asked).1.2 !! i
       = Some (bitfield_bit [x00] i)).
Proof.
  intros H. specialize (H 0). vm_compute in H.
  assert (Some true = Some false) by (apply H; lia). discriminate.
Qed.

Lemma handshake_frame_length c frame :
  handshake_frame c = Some frame -> 0 < length frame.
Proof.
  unfold handshake_frame.
  destruct (match info_hash c with
            | HashStr s => fromhex s
            | HashBytes b => Some b
            end); [|discriminate].
  intros [= <-]. simpl. lia.
Qed.


Lemma _perform_handshake_raises decode c s frame :
  socket c = Some s ->
  handshake_frame c = Some frame ->
  answered c frame s = false ->
  exists e sk, _perform_handshake decode c = (Raises e, set_socket sk c).
Proof.
  intros Hs Hf. unfold _perform_handshake, answered, answer.
  pose proof (handshake_frame_length c frame Hf) as Hpos.
  rewrite Hf, Hs. unfold sendall.
  destruct (tx_left s) as [|k] eqn:Ek; simpl.
  { intros _. exists OSError, (Some s). destruct c; simpl in *.
    subst. reflexivity. }
  unfold _read_exactly.
  destruct (length frame =? 0) eqn:E0; [apply Nat.eqb_eq in E0; lia|].
  simpl.
  destruct (length frame <=? length (rx s)) eqn:El; simpl.
  - destruct (take (length frame) (rx s)) as [|b rest] eqn:Et.
    { intros _. eexists _, _. reflexivity. }
    case_bool_decide; [discriminate|].
    intros _. eexists _, _. reflexivity.
  - intros _. eexists _, _. reflexivity.
Qed.




Lemma connect_fails decode net now later c :
  connected c = false ->
  (forall s frame, net = Some s -> handshake_frame c = Some frame ->
                   answered c frame s = false) ->
  (connect decode net now later c).1 = Returned false
  /\ connected (connect decode net now later c).2 = false
  /\ socket (connect decode net now later c).2 = None.
Proof.
  intros Hc Hno. unfold connect. rewrite Hc.
  destruct net as [s|]; [|simpl; auto].
  destruct (handshake_frame c) as [frame|] eqn:Hf.
  - destruct (_perform_handshake_raises decode (set_socket (Some s) c) s
                frame) as (e & sk & ->); simpl; auto.
    apply (Hno s frame); reflexivity.
  - unfold _perform_handshake.
    change (handshake_frame (set_socket (Some s) c))
      with (handshake_frame c).
    rewrite Hf. simpl. auto.
Qed.




(** The peer of the example answers with its own id: no warning. *)
Example connect_odd_peer :
  (connect decode_ascii (Some Sample.odd_peer) 0 0 Sample.dialing).1
  = Returned true
  /\ warnings
       (connect decode_ascii (Some Sample.odd_peer) 0 0 Sample.dialing).2
     = [].
Proof. vm_compute. auto. Qed.

(** The same peer when its socket takes the handshake frame and nothing
    behind it: the session is marked connected and [connect] does not
    return. *)
Example connect_hangs :
  (connect decode_ascii (Some (Tcp Sample.odd_answer [] 1)) 0 0
     Sample.dialing).1 = Hangs
  /\ connected
       (connect decode_ascii (Some (Tcp Sample.odd_answer [] 1)) 0 0
          Sample.dialing).2 = true.
Proof. vm_compute. auto. Qed.

(** A peer that closes its stream after ten bytes: no connection. *)
Example connect_short_answer :
  connect decode_ascii (Some (Tcp (take 10 Sample.odd_answer) [] 2)) 0 0
    Sample.dialing
  = (Returned false, Sample.dialing).
Proof. vm_compute. reflexivity. Qed.

End PeerConnectionFacts.

(** ** The announce client *)

Section PeerFacts.

Import Peer.

Lemma _announce_to_tracker_peers data :
  _announce_to_tracker (Response 200 (Some (JDict data)))
  = dict_get "peers" data (JList []).
Proof. reflexivity. Qed.

(** The dictionary mode: the list of the [peers] field is returned. *)
Lemma _announce_to_tracker_list peers :
  _announce_to_tracker
    (Response 200 (Some (JDict [("peers", JList peers)])))
  = JList peers.
Proof. reflexivity. Qed.

(** C8 at the compact answer of the spec: the six bytes 7F 00 00 01 1A E1
    stand for the peer 127.0.0.1:6881, and [_announce_to_tracker] returns
    the packed string as it came, not that peer. *)
Theorem announce_compact_not_decoded :
  let packed := [x7f; x00; x00; x01; x1a; xe1] in
  let answer :=
    Response 200
      (Some (JDict [("tracker_id", JStr "simple_tracker_v1");
                    ("failure_reason", JNull);
                    ("peers", JStr (string_of_list_byte packed));
                    ("warning", JNull)])) in
  spec_peer_list packed
  = JList [JDict [("ip", JStr "127.0.0.1"); ("port", JInt 6881)]]
  /\ _announce_to_tracker answer = JStr (string_of_list_byte packed)
  /\ _announce_to_tracker answer <> spec_peer_list packed.
Proof.
  split; [vm_compute; reflexivity|].
  split; [reflexivity|].
  vm_compute. discriminate.
Qed.

End PeerFacts.

(** ** Magnet links *)

Lemma string_append_assoc (a b c : string) :
  (a +:+ b) +:+ c = a +:+ (b +:+ c).
Proof.
  induction a as [|x a IH]; [reflexivity|].
  change (String x ((a +:+ b) +:+ c) = String x (a +:+ (b +:+ c))).
  rewrite IH. reflexivity.
Qed.

Lemma string_append_nil (a : string) : a +:+ "" = a.
Proof.
  induction a as [|x a IH]; [reflexivity|].
  change (String x (a +:+ "") = String x a). rewrite IH. reflexivity.
Qed.

Lemma occurs_append c a b :
  occurs c (a +:+ b) = occurs c a || occurs c b.
Proof.
  induction a as [|x a IH]; [reflexivity|].
  change (bool_decide (x = c) || occurs c (a +:+ b)
          = bool_decide (x = c) || occurs c a || occurs c b).
  rewrite IH. apply orb_assoc.
Qed.

Lemma split_on_head sep s : exists first others, split_on sep s = first :: others.
Proof.
  induction s as [|c rest IH]; simpl; [eauto|].
  case_bool_decide; [eauto|].
  destruct IH as (f & o & ->). eauto.
Qed.

Lemma split_on_clean sep a : occurs sep a = false -> split_on sep a = [a].
Proof.
  induction a as [|c rest IH]; simpl; [reflexivity|].
  intros H. apply orb_false_iff in H as [Hc Hr].
  rewrite Hc, (IH Hr). reflexivity.
Qed.

Lemma split_on_app sep a b :
  occurs sep a = false ->
  split_on sep (a +:+ String sep b) = a :: split_on sep b.
Proof.
  induction a as [|c rest IH]; simpl.
  - intros _. rewrite bool_decide_eq_true_2 by reflexivity. reflexivity.
  - intros H. apply orb_false_iff in H as [Hc Hr].
    rewrite Hc, (IH Hr). reflexivity.
Qed.

Lemma prefix_append p s :
  String.prefix p s = true <-> exists rest, s = p +:+ rest.
Proof.
  revert s. induction p as [|c p IH]; intros s.
  - split; [intros _; exists s; reflexivity | intros _; destruct s; reflexivity].
  - destruct s as [|d s]; cbn [String.prefix].
    + split; [discriminate | intros [r H]; discriminate H].
    + destruct (ascii_dec c d) as [->|Hne].
      * rewrite IH. split; intros [r H]; exists r.
        -- rewrite H. reflexivity.
        -- change (String d s = String d (p +:+ r)) in H.
           injection H as ->. reflexivity.
      * split; [discriminate|]. intros [r H].
        change (String d s = String c (p +:+ r)) in H.
        injection H as -> _. congruence.
Qed.

Lemma skip_append p rest : skip (String.length p) (p +:+ rest) = rest.
Proof. induction p as [|c p IH]; [destruct rest; reflexivity | exact IH]. Qed.

Lemma replace_plus_spec s : replace_plus s = plus_as_space s.
Proof.
  induction s as [|c rest IH]; [reflexivity|].
  change (String (if bool_decide (c = "+"%char) then " "%char else c)
            (replace_plus rest)
          = String (if bool_decide (c = "+"%char) then " "%char else c)
              (plus_as_space rest)).
  rewrite IH. reflexivity.
Qed.

Lemma split_once_pair name value :
  occurs "=" name = false ->
  split_once "=" (name +:+ String "=" value) = Some (name, value).
Proof.
  induction name as [|c rest IH]; simpl; [reflexivity|].
  intros H. apply orb_false_iff in H as [Hc Hr].
  rewrite Hc, (IH Hr). reflexivity.
Qed.

Lemma split_once_bare text :
  occurs "=" text = false -> split_once "=" text = None.
Proof.
  induction text as [|c rest IH]; simpl; [reflexivity|].
  intros H. apply orb_false_iff in H as [Hc Hr].
  rewrite Hc, (IH Hr). reflexivity.
Qed.

Lemma well_cut_render f : well_cut f -> occurs "&" (render f) = false.
Proof.
  destruct f as [name value | text]; cbn [well_cut render].
  - intros (_ & Hn & Hv).
    rewrite occurs_append, Hn.
    change (occurs "&" ("=" +:+ value)) with (false || occurs "&" value).
    rewrite Hv. reflexivity.
  - intros [_ H]. exact H.
Qed.

Lemma split_on_join fields :
  fields <> [] -> Forall well_cut fields ->
  split_on "&" (join_fields fields) = render <$> fields.
Proof.
  intros Hne Hall. induction Hall as [|f rest Hf Hrest IH]; [congruence|].
  destruct rest as [|g rest].
  - cbn [join_fields]. apply split_on_clean, well_cut_render. exact Hf.
  - change (join_fields (f :: g :: rest))
      with (render f +:+ String "&" (join_fields (g :: rest))).
    rewrite split_on_app by (apply well_cut_render; exact Hf).
    rewrite IH by discriminate. reflexivity.
Qed.

(** Every query is a list of fields. *)
Lemma query_fields query :
  exists fields,
    fields <> [] /\ Forall well_cut fields /\ query = join_fields fields.
Proof.
  induction query as [|c rest (fields & Hne & Hall & ->)].
  - exists [Bare ""]. repeat split; [discriminate|].
    repeat constructor.
  - destruct fields as [|f fields]; [congruence|].
    apply Forall_cons in Hall as [Hf Hall].
    assert (forall g,
              render g = String c (render f) -> well_cut g ->
              exists fields' : list field,
                fields' <> [] /\ Forall well_cut fields'
                /\ String c (join_fields (f :: fields))
                   = join_fields fields') as Hfirst.
    { intros g Hg Hwc. exists (g :: fields).
      split; [discriminate|]. split; [constructor; assumption|].
      destruct fields as [|f' fields]; cbn [join_fields]; rewrite Hg;
        reflexivity. }
    destruct (decide (c = "&"%char)) as [->|Hamp].
    { exists (Bare "" :: f :: fields).
      split; [discriminate|]. split; [|reflexivity].
      repeat constructor; assumption. }
    assert (bool_decide (c = "&"%char) = false) as Eamp
      by (apply bool_decide_eq_false; exact Hamp).
    destruct (decide (c = "="%char)) as [->|Heq].
    { apply (Hfirst (Pair "" (render f))); [reflexivity|].
      cbn [well_cut]. repeat split. apply well_cut_render. exact Hf. }
    assert (bool_decide (c = "="%char) = false) as Eeq
      by (apply bool_decide_eq_false; exact Heq).
    destruct f as [name value | text].
    + apply (Hfirst (Pair (String c name) value)); [reflexivity|].
      destruct Hf as (H1 & H2 & H3). cbn [well_cut occurs].
      rewrite Eamp, Eeq, H1, H2. auto.
    + apply (Hfirst (Bare (String c text))); [reflexivity|].
      destruct Hf as (H1 & H2). cbn [well_cut occurs].
      rewrite Eamp, Eeq, H1, H2. auto.
Qed.

Section MagnetFacts.

Import magnet_utils.

Variable unquote : string -> string.
Variable lower : string -> string.

Lemma parse_qsl_fields fields :
  Forall well_cut fields ->
  parse_qsl unquote (join_fields fields)
  = decoded_pairs (fun s => unquote (plus_as_space s)) fields.
Proof.
  intros Hall.
  set (read := fun name_value =>
                 match split_once "="%char name_value with
                 | None => None
                 | Some (name, value) =>
                     match value with
                     | EmptyString => None
                     | _ => Some (unquote (replace_plus name),
                                  unquote (replace_plus value))
                     end
                 end).
  assert (forall q, parse_qsl unquote q = omap read (split_on "&"%char q))
    as ->.
  { intros q. destruct q; reflexivity. }
  destruct fields as [|f fields]; [reflexivity|].
  rewrite split_on_join by (discriminate || exact Hall).
  unfold decoded_pairs.
  induction Hall as [|g rest Hg _ IH]; [reflexivity|].
  rewrite fmap_cons. cbn [omap list_omap]. rewrite IH.
  assert (read (render g)
          = match g with
            | Pair name value =>
                if bool_decide (value = "") then None
                else Some (unquote (plus_as_space name),
                           unquote (plus_as_space value))
            | Bare _ => None
            end) as ->; [|reflexivity].
  unfold read. destruct g as [name value | text]; cbn [render well_cut] in *.
  - change (name +:+ "=" +:+ value) with (name +:+ String "=" value).
    rewrite split_once_pair by tauto.
    rewrite !replace_plus_spec. destruct value; reflexivity.
  - rewrite split_once_bare by tauto. reflexivity.
Qed.

Lemma parse_qs_fold name (l : list (string * string))
    (m : gmap string (list string)) :
  foldl (fun parsed_result nv =>
           match parsed_result !! nv.1 with
           | Some values => <[nv.1 := values ++ [nv.2]]> parsed_result
           | None => <[nv.1 := [nv.2]]> parsed_result
           end) m l !! name
  = match m !! name with
    | Some old => Some (old ++ values_of name l)
    | None =>
        if bool_decide (values_of name l = []) then None
        else Some (values_of name l)
    end.
Proof.
  revert m. induction l as [|nv l IH]; intros m; cbn [foldl].
  - unfold values_of. cbn. destruct (m !! name); [|reflexivity].
    rewrite app_nil_r. reflexivity.
  - rewrite IH. unfold values_of.
    destruct (decide (nv.1 = name)) as [E|E].
    + rewrite filter_cons_True by exact E. rewrite fmap_cons.
      rewrite E. destruct (m !! name) as [old|].
      * rewrite lookup_insert_eq, <- app_assoc. reflexivity.
      * rewrite lookup_insert_eq. reflexivity.
    + rewrite filter_cons_False by exact E.
      destruct (m !! nv.1); rewrite lookup_insert_ne by exact E;
        reflexivity.
Qed.

Lemma parse_qs_fields fields name :
  Forall well_cut fields ->
  parse_qs unquote (join_fields fields) !! name
  = let values :=
      values_of name
        (decoded_pairs (fun s => unquote (plus_as_space s)) fields) in
    if bool_decide (values = []) then None else Some values.
Proof.
  intros Hall. unfold parse_qs.
  rewrite parse_qsl_fields by exact Hall.
  rewrite parse_qs_fold, lookup_empty. reflexivity.
Qed.

Lemma first_btih_none xts :
  (forall h, "urn:btih:" +:+ h ∉ xts) -> first_btih lower xts = None.
Proof.
  induction xts as [|xt rest IH]; intros Hno; cbn [first_btih];
    [reflexivity|].
  destruct (String.prefix "urn:btih:" xt) eqn:E.
  - apply prefix_append in E as [h ->]. exfalso. apply (Hno h). left.
  - apply IH. intros h Hin. apply (Hno h). right. exact Hin.
Qed.

Lemma first_btih_first before h after :
  (forall h', "urn:btih:" +:+ h' ∉ before) ->
  first_btih lower (before ++ ("urn:btih:" +:+ h) :: after) = Some (lower h).
Proof.
  induction before as [|xt rest IH]; intros Hno.
  - cbn [app first_btih].
    rewrite (proj2 (prefix_append "urn:btih:" ("urn:btih:" +:+ h)))
      by (exists h; reflexivity).
    change 9 with (String.length "urn:btih:").
    rewrite skip_append. reflexivity.
  - cbn [app first_btih].
    destruct (String.prefix "urn:btih:" xt) eqn:E.
    + apply prefix_append in E as [h' ->]. exfalso. apply (Hno h'). left.
    + apply IH. intros h' Hin. apply (Hno h'). right. exact Hin.
Qed.

(** C9.  [parse_magnet] raises a [ValueError] when the URL does not begin
    with [magnet:?].  Otherwise the text behind [magnet:?] is a list of
    fields separated by [&], and its parameters are the fields [name=value]
    with a value that is not empty, name and value decoded.  When no value
    of the parameter [xt] is [urn:btih:] followed by a text, [parse_magnet]
    raises a [ValueError]; otherwise it returns the dictionary that has
    under [info_hash] the text behind [urn:btih:] of the first such value,
    in lower case, under [name] the first value of [dn] when there is one,
    and under [trackers] the values of [tr] when there are some. *)
Theorem parse_magnet_correct magnet_url :
  ((forall query, magnet_url <> "magnet:?" +:+ query) ->
   parse_magnet unquote lower magnet_url = Raises ValueError)
  /\ (forall query,
        magnet_url = "magnet:?" +:+ query ->
        exists fields, Forall well_cut fields /\ query = join_fields fields)
  /\ (forall fields,
        Forall well_cut fields ->
        magnet_url = "magnet:?" +:+ join_fields fields ->
        let values name :=
          values_of name
            (decoded_pairs (fun s => unquote (plus_as_space s)) fields) in
        ((forall h, "urn:btih:" +:+ h ∉ values "xt") ->
         parse_magnet unquote lower magnet_url = Raises ValueError)
        /\ (forall before h after,
              values "xt" = before ++ ("urn:btih:" +:+ h) :: after ->
              (forall h', "urn:btih:" +:+ h' ∉ before) ->
              parse_magnet unquote lower magnet_url
              = Returns
                  ((if bool_decide (values "tr" = []) then id
                    else <["trackers" := StrList (values "tr")]>)
                     ((match head (values "dn") with
                       | Some name => <["name" := Str name]>
                       | None => id
                       end)
                        (<["info_hash" := Str (lower h)]> ∅))))).
Proof.
  split; [|split].
  - intros Hno. unfold parse_magnet.
    destruct (String.prefix "magnet:?" magnet_url) eqn:E; [|reflexivity].
    apply prefix_append in E as [query ->]. destruct (Hno query eq_refl).
  - intros query _. destruct (query_fields query) as (fields & _ & H & ->).
    exists fields. auto.
  - intros fields Hall -> values.
    unfold parse_magnet.
    rewrite (proj2 (prefix_append "magnet:?" _)) by (eexists; reflexivity).
    cbn [negb].
    change 8 with (String.length "magnet:?"). rewrite skip_append.
    rewrite !(parse_qs_fields _ _ Hall). cbv zeta.
    fold (values "xt") (values "dn") (values "tr").
    split.
    + intros Hno.
      assert ((if bool_decide (values "xt" = []) then None
               else Some (values "xt")) = None
              \/ (if bool_decide (values "xt" = []) then None
                  else Some (values "xt")) = Some (values "xt"))
        as [-> | ->] by (case_bool_decide; auto).
      * destruct (values "dn") as [|name names];
          destruct (values "tr") as [|t trs]; reflexivity.
      * rewrite (first_btih_none _ Hno).
        destruct (values "dn") as [|name names];
          destruct (values "tr") as [|t trs]; reflexivity.
    + intros before h after Hxt Hbefore.
      rewrite Hxt.
      rewrite (bool_decide_eq_false_2 (before ++ _ :: after = []))
        by (destruct before; discriminate).
      rewrite (first_btih_first before h after Hbefore).
      destruct (values "dn") as [|name names];
        destruct (values "tr") as [|t trs]; reflexivity.
Qed.

End MagnetFacts.

Lemma parse_magnet_correct_witness :
  magnet_utils.parse_magnet unquote_ascii lower_ascii
    "magnet:?xt=urn:sha1:AB&x%74=urn:btih:ABCDEF0123&dn=&dn=my+file&flag&tr=http%3A%2F%2Ft1&tr=http://t2"
  = Returns (<["trackers" := StrList ["http://t1"; "http://t2"]]>
               (<["name" := Str "my file"]>
                  (<["info_hash" := Str "abcdef0123"]> ∅))).
Proof.
  destruct (parse_magnet_correct unquote_ascii lower_ascii
              "magnet:?xt=urn:sha1:AB&x%74=urn:btih:ABCDEF0123&dn=&dn=my+file&flag&tr=http%3A%2F%2Ft1&tr=http://t2")
    as (_ & _ & H).
  destruct (H [Pair "xt" "urn:sha1:AB"; Pair "x%74" "urn:btih:ABCDEF0123";
               Pair "dn" ""; Pair "dn" "my+file"; Bare "flag";
               Pair "tr" "http%3A%2F%2Ft1"; Pair "tr" "http://t2"]
              ltac:(repeat constructor) eq_refl) as [_ Hret].
  rewrite (Hret ["urn:sha1:AB"] "ABCDEF0123" []).
  - vm_compute. reflexivity.
  - vm_compute. reflexivity.
  - intros h' Hin. apply list_elem_of_singleton in Hin. discriminate Hin.
Defined.

(** Empty values and fields without [=] are no parameters, and the
    namespace is compared as it is written. *)
Example parse_magnet_no_fingerprint :
  magnet_utils.parse_magnet unquote_ascii lower_ascii
    "magnet:?xt=&xt&dn=file&xt=URN:BTIH:AB"
  = Raises ValueError.
Proof. vm_compute. reflexivity. Qed.

Example parse_magnet_link :
  magnet_utils.parse_magnet unquote_ascii lower_ascii
    "magnet:?xt=urn:btih:ABCDEF0123&dn=my+file&tr=http%3A%2F%2Ft1&tr=http://t2"
  = Returns (<["trackers" := StrList ["http://t1"; "http://t2"]]>
               (<["name" := Str "my file"]>
                  (<["info_hash" := Str "abcdef0123"]> ∅))).
Proof. vm_compute. reflexivity. Qed.

Example parse_magnet_other_namespace :
  magnet_utils.parse_magnet unquote_ascii lower_ascii
    "magnet:?xt=urn:sha1:ABCDEF0123&dn=file"
  = Raises ValueError.
Proof. vm_compute. reflexivity. Qed.

Example parse_magnet_other_scheme :
  magnet_utils.parse_magnet unquote_ascii lower_ascii
    "http://tracker/?xt=urn:btih:ABCDEF0123"
  = Raises ValueError.
Proof. vm_compute. reflexivity. Qed.

(** * Further properties of the code *)


(** ** The wire format *)

Lemma byte_val_of_nat n : byte_val (byte_of_nat n) = n mod 256.
Proof.
  unfold byte_val, byte_of_nat.
  destruct (Byte.of_N (N.of_nat (n mod 256))) as [b|] eqn:E.
  - apply Byte.to_of_N in E. rewrite E. apply Nat2N.id.
  - apply Byte.of_N_None_iff in E.
    pose proof (Nat.mod_upper_bound n 256). lia.
Qed.

Lemma byte_val_lt b : byte_val b < 256.
Proof. unfold byte_val. pose proof (Byte.to_N_bounded b). lia. Qed.

Lemma byte_of_nat_val b : byte_of_nat (byte_val b) = b.
Proof.
  unfold byte_of_nat. rewrite Nat.mod_small by apply byte_val_lt.
  unfold byte_val. rewrite N2Nat.id, Byte.of_to_N. reflexivity.
Qed.

(** [int.from_bytes] undoes [to_bytes(4, 'big')] below [2^32]. *)
Lemma int_from_to_bytes4 n :
  (N.of_nat n < 4294967296)%N -> int_from_bytes (to_bytes4 n) = n.
Proof.
  intros Hn. unfold to_bytes4, int_from_bytes.
  cbv beta iota delta [map foldl].
  rewrite !byte_val_of_nat, !N.shiftr_div_pow2.
  set (m := N.of_nat n) in *.
  apply Nat2N.inj. fold m.
  repeat first [rewrite Nat2N.inj_add | rewrite Nat2N.inj_mul
               | rewrite Nat2N.inj_mod | rewrite N2Nat.id].
  replace (N.of_nat 256) with 256%N by reflexivity.
  replace (N.of_nat 0) with 0%N by reflexivity.
  rewrite !N.Div0.mod_mod.
  change (2 ^ 24)%N with 16777216%N. change (2 ^ 16)%N with 65536%N.
  change (2 ^ 8)%N with 256%N. change (2 ^ 0)%N with 1%N.
  rewrite N.div_1_r.
  zify. Z.to_euclidean_division_equations. lia.
Qed.

Section WireFacts.

Import PeerConnection.

Lemma _read_exactly_prefix n c s front rest :
  socket c = Some s -> rx s = front ++ rest -> length front = n -> 0 < n ->
  _read_exactly n c
  = (Some front, set_socket (Some (Tcp rest (tx s) (tx_left s))) c).
Proof.
  intros Hs Hrx Hlen Hn. unfold _read_exactly.
  destruct (n =? 0) eqn:E; [apply Nat.eqb_eq in E; lia|].
  rewrite Hs, Hrx.
  destruct (n <=? length (front ++ rest)) eqn:El.
  - rewrite take_app_length', drop_app_length' by congruence. reflexivity.
  - apply Nat.leb_gt in El. rewrite length_app in El. lia.
Qed.

Lemma receiver_turn_frame e c pm s msg_id payload rest :
  socket c = Some s ->
  rx s = frame msg_id payload ++ rest ->
  msg_id < 256 ->
  (N.of_nat (length payload + 1) < 4294967296)%N ->
  receiver_turn e c pm
  = dispatch e msg_id (Some payload)
      (set_socket (Some (Tcp rest (tx s) (tx_left s))) c) pm.
Proof.
  intros Hs Hrx Hid Hlen. unfold receiver_turn, frame in *.
  rewrite <- !app_assoc in Hrx.
  rewrite (_read_exactly_prefix 4 c s (to_bytes4 (length payload + 1))
             ([byte_of_nat msg_id] ++ payload ++ rest)) by (auto; lia).
  destruct (to_bytes4 (length payload + 1)) as [|b0 bs] eqn:Eb;
    [discriminate|].
  rewrite <- Eb. rewrite int_from_to_bytes4 by exact Hlen.
  destruct (length payload + 1 =? 0) eqn:E0; [apply Nat.eqb_eq in E0; lia|].
  erewrite (_read_exactly_prefix 1 _ _ [byte_of_nat msg_id] (payload ++ rest));
    [|reflexivity|reflexivity|reflexivity|lia].
  rewrite byte_val_of_nat, Nat.mod_small by exact Hid.
  destruct payload as [|p ps].
  - reflexivity.
  - replace (1 <? length (p :: ps) + 1) with true
      by (symmetry; apply Nat.ltb_lt; simpl; lia).
    erewrite (_read_exactly_prefix _ _ _ (p :: ps) rest);
      [|reflexivity|reflexivity|simpl; lia|simpl; lia].
    reflexivity.
Qed.

Lemma _send_message_writes now msg_id payload c c' :
  _send_message now msg_id payload c = (Sent, c') ->
  exists s, socket c = Some s /\ connected c = true /\ 0 < tx_left s
            /\ c' = set_last_activity now
                      (set_socket
                         (Some (Tcp (rx s) (tx s ++ frame msg_id payload)
                                    (tx_left s - 1))) c).
Proof.
  unfold _send_message. destruct (connected c); cbn [negb]; [|discriminate].
  destruct (socket c) as [s|]; [|discriminate].
  destruct (int_to_bytes4 (length payload + 1)) as [b|] eqn:Eb;
    [|discriminate].
  apply int_to_bytes4_is_Some in Eb as [_ ->].
  destruct (msg_id <? 256); [|discriminate].
  unfold sendall. destruct (tx_left s) as [|k] eqn:Ek; [discriminate|].
  intros [= <-]. exists s. repeat split; [lia|].
  rewrite Ek. simpl. rewrite Nat.sub_0_r. reflexivity.
Qed.

Lemma _send_message_sent now msg_id payload c s :
  connected c = true -> socket c = Some s -> 0 < tx_left s ->
  msg_id < 256 ->
  (N.of_nat (length payload + 1) < 4294967296)%N ->
  _send_message now msg_id payload c
  = (Sent,
     set_last_activity now
       (set_socket
          (Some (Tcp (rx s) (tx s ++ frame msg_id payload) (tx_left s - 1)))
          c)).
Proof.
  intros Hc Hs Ht Hid Hlen. unfold _send_message. rewrite Hc, Hs.
  cbn [negb]. rewrite (int_to_bytes4_Some _ Hlen).
  destruct (Nat.ltb_spec msg_id 256); [|lia].
  unfold sendall. destruct (tx_left s) as [|k] eqn:Ek; [lia|].
  simpl. rewrite Nat.sub_0_r. reflexivity.
Qed.

(** X1.  What [_send_message] writes for a message is read back by one turn
    of the receive loop of the session at the other end as the same message
    id and the same payload, and dispatched. *)
Theorem sent_message_is_dispatched now e a a' b pm sa sa' sb msg_id payload
    rest :
  _send_message now msg_id payload a = (Sent, a') ->
  socket a = Some sa -> socket a' = Some sa' ->
  socket b = Some sb ->
  rx sb = drop (length (tx sa)) (tx sa') ++ rest ->
  msg_id < 256 ->
  (N.of_nat (length payload + 1) < 4294967296)%N ->
  receiver_turn e b pm
  = dispatch e msg_id (Some payload)
      (set_socket (Some (Tcp rest (tx sb) (tx_left sb))) b) pm.
Proof.
  intros Hsend Ha Ha' Hb Hrx Hid Hlen.
  apply _send_message_writes in Hsend as (s & Hs & _ & _ & ->).
  rewrite Ha in Hs. injection Hs as <-.
  simpl in Ha'. injection Ha' as <-. simpl in Hrx.
  rewrite drop_app_length in Hrx.
  eapply receiver_turn_frame; eassumption.
Qed.

End WireFacts.


Section RequestFacts.

Import PeerConnection.

Lemma length_to_bytes4 n : length (to_bytes4 n) = 4.
Proof. reflexivity. Qed.

Lemma slice_request {A} (x y z : list A) :
  length x = 4 -> length y = 4 -> length z = 4 ->
  slice 0 4 (x ++ y ++ z) = x
  /\ slice 4 8 (x ++ y ++ z) = y
  /\ slice 8 12 (x ++ y ++ z) = z.
Proof.
  intros Hx Hy Hz. unfold slice. repeat split.
  - rewrite drop_0. apply take_app_length'. lia.
  - rewrite drop_app_length' by lia. apply take_app_length'. lia.
  - rewrite app_assoc, drop_app_length' by (rewrite length_app; lia).
    apply take_ge. lia.
Qed.

(** X2.  The request that [_send_request] writes for a block lying inside a
    piece file is answered, by a session that holds the piece and does not
    choke, with one [piece] message that carries the piece index, the offset
    and exactly the bytes [content[begin:begin+length]]; both upload counters
    grow by the length of the block.  The [piece] message, nine bytes longer
    than the block, must fit the length prefix of four bytes. *)
Theorem request_is_served now c pm s piece_index begin length_ content :
  am_choking c = false ->
  connected c = true -> socket c = Some s -> 0 < tx_left s ->
  PieceManager.have_pieces pm !! piece_index = Some true ->
  PieceManager.piece_files pm !! piece_index = Some content ->
  begin + length_ <= length content ->
  (N.of_nat piece_index < 4294967296)%N ->
  (N.of_nat begin < 4294967296)%N ->
  (N.of_nat (length_ + 9) < 4294967296)%N ->
  _process_request now true
    (to_bytes4 piece_index ++ to_bytes4 begin ++ to_bytes4 length_) c pm
  = (Sent,
     set_bytes_uploaded (bytes_uploaded c + length_)
       (set_last_activity now
          (set_socket
             (Some (Tcp (rx s)
                      (tx s ++ frame 7 (to_bytes4 piece_index
                                          ++ to_bytes4 begin
                                          ++ take length_ (drop begin content)))
                      (tx_left s - 1))) c)),
     PieceManager.set_bytes_uploaded
       (PieceManager.bytes_uploaded pm + length_) pm).
Proof.
  intros Hch Hcon Hs Ht Hh Hf Hin Hi Hb Hl. unfold _process_request.
  rewrite Hch.
  destruct (slice_request (to_bytes4 piece_index) (to_bytes4 begin)
              (to_bytes4 length_)) as (-> & -> & ->); try reflexivity.
  rewrite !int_from_to_bytes4 by (assumption || lia).
  replace (length (to_bytes4 piece_index ++ to_bytes4 begin
                     ++ to_bytes4 length_) <? 12) with false by reflexivity.
  rewrite Hh, Hf. cbn [negb].
  assert (length (take length_ (drop begin content)) = length_) as Hlen.
  { rewrite length_take, length_drop. lia. }
  rewrite Hlen, Nat.eqb_refl. cbn [negb].
  unfold _send_piece.
  rewrite (int_to_bytes4_Some _ Hi), (int_to_bytes4_Some _ Hb).
  rewrite (_send_message_sent now 7 _ c s Hcon Hs Ht).
  - reflexivity.
  - lia.
  - rewrite !length_app, !length_to_bytes4, Hlen. lia.
Qed.

(** X3.  A session that chokes its peer, or does not hold the piece asked
    for, or whose piece file has fewer bytes behind the offset than the
    request asks for, answers a request with nothing: nothing is written and
    no counter moves. *)
Theorem request_is_dropped now readable payload c pm :
  am_choking c = true
  \/ PieceManager.have_pieces pm
       !! int_from_bytes (slice 0 4 payload) <> Some true
  \/ (forall content,
        PieceManager.piece_files pm !! int_from_bytes (slice 0 4 payload)
        = Some content ->
        length content - int_from_bytes (slice 4 8 payload)
        < int_from_bytes (slice 8 12 payload)) ->
  _process_request now readable payload c pm = (NotSent, c, pm).
Proof.
  intros H. unfold _process_request.
  destruct (am_choking c) eqn:Ech; [reflexivity|].
  destruct (length payload <? 12); [reflexivity|].
  destruct H as [H | [H | H]]; [discriminate | |].
  - destruct (PieceManager.have_pieces pm !! _) as [[|]|];
      [congruence | reflexivity | reflexivity].
  - destruct (PieceManager.have_pieces pm !! _) as [[|]|];
      [| reflexivity | reflexivity].
    destruct (PieceManager.piece_files pm !! _) as [content|] eqn:Ef;
      [|reflexivity].
    destruct readable; [|reflexivity]. cbn [negb].
    specialize (H content eq_refl).
    replace (length (take _ (drop _ content)) =? _) with false;
      [reflexivity|].
    symmetry. apply Nat.eqb_neq. rewrite length_take, length_drop. lia.
Qed.

End RequestFacts.


Section BlockFacts.

Import PeerConnection.

Lemma sum_block_lengths bs size m :
  sum_list ((fun k => bs `min` (size - k * bs)) <$> seq 0 m)
  = (m * bs) `min` size.
Proof.
  induction m as [|m IH].
  - reflexivity.
  - rewrite seq_S, fmap_app, sum_list_with_app, IH. simpl. nia.
Qed.

Lemma block_count_bounds bs size :
  0 < bs -> 0 < size ->
  let n := (size + bs - 1) / bs in
  (n - 1) * bs < size /\ size <= n * bs /\ 0 < n.
Proof.
  intros Hbs Hsize n.
  pose proof (Nat.div_mod_eq (size + bs - 1) bs) as Hd.
  pose proof (Nat.mod_upper_bound (size + bs - 1) bs) as Hm.
  fold n in Hd. nia.
Qed.

(** X4.  For a piece of positive size the block requests cut the piece
    without gap or overlap: every block starts where the blocks before it
    end, has between 1 and 16384 bytes, and the lengths add up to the size of
    the piece. *)
Theorem piece_blocks_cover piece_index piece_size :
  0 < piece_size ->
  exists blocks,
    piece_blocks piece_index piece_size = Returns blocks
    /\ sum_list (snd <$> blocks) = piece_size
    /\ forall k i begin length_,
         blocks !! k = Some (i, begin, length_) ->
         i = piece_index
         /\ begin = sum_list (snd <$> take k blocks)
         /\ 0 < length_ <= block_limit.
Proof.
  intros Hsize. unfold piece_blocks.
  set (bs := block_limit `min` piece_size).
  assert (0 < bs) as Hbs by (unfold bs, block_limit; lia).
  destruct (bs =? 0) eqn:E; [apply Nat.eqb_eq in E; lia|].
  set (n := (piece_size + bs - 1) / bs).
  destruct (block_count_bounds bs piece_size Hbs Hsize) as (Hlo & Hhi & Hn).
  fold n in Hlo, Hhi, Hn.
  set (f := fun k => bs `min` (piece_size - k * bs)).
  set (g := fun i => (piece_index, i * bs, bs `min` (piece_size - i * bs))).
  assert (forall m, snd <$> (g <$> seq 0 m) = f <$> seq 0 m) as Hsnd.
  { intros m. rewrite <- list_fmap_compose. reflexivity. }
  exists (g <$> seq 0 n). split; [reflexivity|]. split.
  - rewrite Hsnd. unfold f. rewrite sum_block_lengths. lia.
  - intros k i b l Hk.
    rewrite list_lookup_fmap in Hk.
    destruct (seq 0 n !! k) as [j|] eqn:Ej; [|discriminate].
    apply lookup_seq in Ej as [-> Hlt]. simpl in Hk.
    injection Hk as <- <- <-.
    split; [reflexivity|]. split.
    + rewrite <- fmap_take, take_seq, Hsnd.
      replace (k `min` n) with k by lia. simpl in Hlt |- *.
      unfold f. rewrite sum_block_lengths. nia.
    + assert (bs <= block_limit) as Hle by (unfold bs; lia).
      simpl in Hlt. clearbody bs n. nia.
Qed.

Lemma _fill_request_queue_socket r c pm :
  socket (_fill_request_queue r c pm).1.2 = socket c
  /\ peer_choking (_fill_request_queue r c pm).1.2 = peer_choking c
  /\ max_requests (_fill_request_queue r c pm).1.2 = max_requests c.
Proof.
  unfold _fill_request_queue.
  destruct (_ <=? _); [auto|].
  destruct (PieceManager.get_next_request r (peer_bitfield c) pm)
    as [[[i|] pm1]|e]; [|auto|auto].
  destruct (piece_blocks i (PieceManager.piece_length pm1)); auto.
Qed.

(** X5.  A turn of the request loop never writes to the socket.  While the
    peer chokes, the turn changes nothing at all; otherwise it may fill the
    queue, and when it comes to send it has taken the first request off the
    queue and waits for the lock that it holds itself. *)
Theorem request_turn_sends_nothing r c pm :
  socket (request_turn r c pm).1.2 = socket c
  /\ (peer_choking c = true -> request_turn r c pm = (Continue, c, pm))
  /\ ((request_turn r c pm).1.1 = Stuck ->
      peer_choking c = false
      /\ exists first filled,
           length filled <= max_requests c
           /\ filled = first :: request_queue (request_turn r c pm).1.2).
Proof.
  unfold request_turn.
  destruct (peer_choking c) eqn:Ech; [repeat split; discriminate|].
  set (filled :=
         if length (request_queue c) <? max_requests c
         then _fill_request_queue r c pm else (Returns (), c, pm)).
  assert (socket filled.1.2 = socket c
          /\ max_requests filled.1.2 = max_requests c) as [Hs Hm].
  { unfold filled. destruct (_ <? _); [|auto].
    destruct (_fill_request_queue_socket r c pm) as (? & _ & ?). auto. }
  destruct filled as [[[[]|e] c1] pm1]; simpl in *.
  2: { repeat split; [exact Hs | discriminate | discriminate]. }
  destruct (request_queue c1) as [|[[piece_index begin] length_] rest] eqn:Eq;
    simpl.
  { repeat split; [exact Hs | discriminate | discriminate]. }
  destruct (_ =? 0) eqn:E0; simpl.
  { repeat split; [exact Hs | discriminate | discriminate]. }
  destruct (request_payload piece_index begin length_); simpl.
  2: { repeat split; [exact Hs | discriminate | discriminate]. }
  repeat split; [exact Hs | discriminate |].
  exists (piece_index, begin, length_), ((piece_index, begin, length_) :: rest).
  split; [|reflexivity].
  apply Nat.eqb_neq in E0. simpl in *. lia.
Qed.

End BlockFacts.


Section StoreFacts.

Import PieceManager.

(** Without hashes, a pass of [check_piece] over [indexes] marks the
    indexes that have a piece file. *)
Lemma check_pieces_unhashed indexes pm i :
  piece_hashes pm = [] ->
  let pm' := foldl check_piece pm indexes in
  piece_hashes pm' = [] /\ piece_files pm' = piece_files pm
  /\ have_pieces pm' !! i
     = (fun old => old || (bool_decide (i ∈ indexes)
                           && bool_decide (is_Some (piece_files pm !! i))))
         <$> have_pieces pm !! i.
Proof.
  revert pm. induction indexes as [|j rest IH]; intros pm Hh; simpl.
  - repeat split; [assumption|].
    destruct (have_pieces pm !! i); simpl; [|reflexivity].
    rewrite orb_false_r. reflexivity.
  - assert (piece_hashes (check_piece pm j) = []
            /\ piece_files (check_piece pm j) = piece_files pm
            /\ have_pieces (check_piece pm j)
               = if bool_decide (is_Some (piece_files pm !! j))
                 then <[j:=true]> (have_pieces pm) else have_pieces pm)
      as (Hh' & Hf' & Hv').
    { unfold check_piece. rewrite Hh.
      destruct (piece_files pm !! j) as [data|] eqn:Ej.
      - rewrite bool_decide_eq_false_2 by (simpl; lia).
        rewrite bool_decide_eq_true_2 by eauto. auto.
      - rewrite bool_decide_eq_false_2 by (intros [? ?]; discriminate). auto. }
    destruct (IH (check_piece pm j) Hh') as (H1 & H2 & H3).
    split; [exact H1|]. split; [congruence|].
    rewrite H3, Hf', Hv'. clear H1 H2 H3 IH.
    destruct (decide (j = i)) as [->|Hne].
    + rewrite (bool_decide_eq_true_2 (i ∈ i :: rest)) by left.
      destruct (bool_decide (is_Some (piece_files pm !! i))) eqn:Ei.
      * destruct (decide (i < length (have_pieces pm))) as [Hlt|Hge].
        -- rewrite list_lookup_insert_eq by exact Hlt.
           destruct (lookup_lt_is_Some_2 _ _ Hlt) as [old ->]. simpl.
           rewrite orb_true_r. reflexivity.
        -- rewrite list_insert_ge by lia.
           rewrite (lookup_ge_None_2 (have_pieces pm) i) by lia. reflexivity.
      * destruct (have_pieces pm !! i); simpl; [|reflexivity].
        rewrite !andb_false_r. reflexivity.
    + assert (bool_decide (i ∈ j :: rest) = bool_decide (i ∈ rest)) as ->.
      { apply bool_decide_ext. rewrite elem_of_cons. split; [|auto].
        intros [->|?]; [congruence | assumption]. }
      destruct (bool_decide (is_Some (piece_files pm !! j))); [|reflexivity].
      rewrite list_lookup_insert_ne by exact Hne. reflexivity.
Qed.

(** X6.  A new piece manager trusts the piece files it finds: piece [i] is
    held from the start exactly when the torrent has at least one payload
    file and a file [piece_<i>.tmp] is on disk.  The content is not verified,
    the hashes being installed only afterwards, and nothing is requested. *)
Theorem init_trusts_piece_files piece_length piece_count files piece_files
    payload_files i :
  i < piece_count ->
  let pm := __init__ piece_length piece_count files piece_files
              payload_files in
  have_pieces pm !! i
  = Some (bool_decide (files <> [])
          && bool_decide (is_Some (piece_files !! i)))
  /\ requested_pieces pm = ∅
  /\ piece_hashes pm = [].
Proof.
  intros Hi pm. subst pm. unfold __init__, _check_existing_data.
  set (pm0 := Build piece_length piece_count files
                (replicate piece_count false) ∅ [] 0 0 piece_files
                payload_files).
  assert (forall (fs : list (string * nat)) st,
            PieceManager.piece_hashes st = [] ->
            PieceManager.piece_count st = piece_count ->
            let st' :=
              foldl (fun st _ =>
                       foldl check_piece st
                         (seq 0 (PieceManager.piece_count st))) st fs in
            PieceManager.piece_hashes st' = []
            /\ requested_pieces st' = requested_pieces st
            /\ have_pieces st' !! i
               = (fun old =>
                    old || (bool_decide (fs <> [])
                            && bool_decide
                                 (is_Some (PieceManager.piece_files st !! i))))
                   <$> have_pieces st !! i) as Hfold.
  { induction fs as [|f fs IH]; intros st Hh Hc; cbn [foldl].
    - repeat split; [assumption|].
      rewrite (bool_decide_eq_false_2 ([] <> [])) by (intros H; apply H; reflexivity).
      destruct (have_pieces st !! i); simpl; [|reflexivity].
      rewrite orb_false_r. reflexivity.
    - destruct (check_pieces_unhashed
                  (seq 0 (PieceManager.piece_count st)) st i Hh)
        as (H1 & H2 & H3).
      destruct (IH (foldl check_piece st
                      (seq 0 (PieceManager.piece_count st))) H1)
        as (H4 & H5 & H6).
      { destruct (check_pieces_shape
                    (seq 0 (PieceManager.piece_count st)) st) as [_ ->].
        exact Hc. }
      split; [exact H4|]. split.
      { rewrite H5. apply check_pieces_requested. }
      rewrite H6, H3, H2.
      rewrite (bool_decide_eq_true_2 (i ∈ seq 0 _))
        by (apply elem_of_seq; lia).
      rewrite (bool_decide_eq_true_2 (f :: fs <> [])) by discriminate.
      destruct (have_pieces st !! i) as [old|]; simpl; [|reflexivity].
      destruct old, (bool_decide (fs <> [])),
        (bool_decide (is_Some (PieceManager.piece_files st !! i)));
        reflexivity. }
  destruct (Hfold files pm0 eq_refl eq_refl) as (H1 & H2 & H3).
  assert (have_pieces pm0 !! i = Some false) as H0.
  { simpl. apply lookup_replicate_2. exact Hi. }
  rewrite H0 in H3. simpl in H3.
  destruct (0 <? total_size pm0); simpl; auto.
Qed.

End StoreFacts.


Section ProgressFacts.

Import PieceManager.

Lemma get_next_request_have r peer_has_pieces pm res pm' :
  get_next_request r peer_has_pieces pm = Returns (res, pm') ->
  have_pieces pm' = have_pieces pm /\ piece_hashes pm' = piece_hashes pm.
Proof.
  unfold get_next_request.
  destruct (collect_candidates pm peer_has_pieces (seq 0 (piece_count pm)))
    as [cs|]; simpl; [|discriminate].
  destruct cs as [|c cs]; [intros [= <- <-]; auto|].
  destruct (get_rarest_piece r (c :: cs)); intros [= <- <-]; auto.
Qed.

Lemma get_next_request_not_held r peer_has_pieces pm i pm' :
  get_next_request r peer_has_pieces pm = Returns (Some i, pm') ->
  have_pieces pm !! i = Some false.
Proof.
  unfold get_next_request.
  destruct (collect_candidates pm peer_has_pieces (seq 0 (piece_count pm)))
    as [cs|] eqn:Ecs; simpl; [|discriminate].
  pose proof (collect_candidates_wanted _ _ _ _ Ecs) as Hcs.
  destruct cs as [|c cs]; [discriminate|].
  unfold get_rarest_piece.
  destruct (random_choice r (c :: cs)) as [x|] eqn:Ex; intros [= <- <-].
  - apply Hcs. unfold random_choice in Ex.
    eapply list_elem_of_lookup_2. exact Ex.
  - apply Hcs. left.
Qed.

Lemma receive_piece_keeps_held io i data pm j :
  have_pieces pm !! j = Some true ->
  have_pieces (receive_piece io i data pm).2 !! j = Some true.
Proof.
  intros Hj.
  destruct (receive_piece_outcome io i data pm)
    as [[_ E] | [(_ & _ & E) | [(_ & _ & _ & E & _) | (_ & _ & _ & E & _)]]];
    rewrite E; simpl; try exact Hj.
  destruct (decide (i = j)) as [->|Hne].
  - apply list_lookup_insert_eq. eapply lookup_lt_Some. exact Hj.
  - rewrite list_lookup_insert_ne by exact Hne. exact Hj.
Qed.

(** X7.  A piece that is held stays held through every later call of
    [set_piece_hashes], [get_next_request] and [receive_piece], and
    [get_next_request] never hands it out again. *)
Theorem held_piece_is_final pm pm' i :
  have_pieces pm !! i = Some true ->
  evolves pm pm' ->
  have_pieces pm' !! i = Some true
  /\ forall r peer_has_pieces j pm'',
       get_next_request r peer_has_pieces pm' = Returns (Some j, pm'') ->
       j <> i.
Proof.
  intros Hi Hev.
  assert (have_pieces pm' !! i = Some true) as Hheld.
  { induction Hev as [pm | pm pm' hs _ IH | pm pm' r ph res pm'' _ IH E
                     | pm pm' io k data _ IH].
    - exact Hi.
    - exact (IH Hi).
    - apply get_next_request_have in E as [-> _]. exact (IH Hi).
    - apply receive_piece_keeps_held. exact (IH Hi). }
  split; [exact Hheld|].
  intros r ph j pm'' E ->.
  apply get_next_request_not_held in E. congruence.
Qed.

(** X8.  A piece that fails verification can be asked for again: after
    [receive_piece] has refused data of admissible length for its digest, every
    peer that has the piece is asked for it by some draw of the next
    [get_next_request]. *)
Theorem refused_piece_is_requested_again io pm i data h peer_has_pieces :
  well_formed pm ->
  piece_count pm <= length peer_has_pieces ->
  have_pieces pm !! i = Some false ->
  piece_hashes pm !! i = Some h ->
  SHA1.hexdigest data <> h ->
  length data <= piece_length pm ->
  peer_has_pieces !! i = Some true ->
  (receive_piece io i data pm).1 = false
  /\ exists r pm',
       get_next_request r peer_has_pieces (receive_piece io i data pm).2
       = Returns (Some i, pm').
Proof.
  intros Hwf Hlen Hi Hh Hne Hl Hp.
  assert (verify_piece pm i data = false) as Hv.
  { destruct (verify_piece pm i data) eqn:E; [|reflexivity].
    exfalso. apply Hne. eapply verify_piece_hash; eassumption. }
  assert (receive_piece io i data pm
          = (false, set_requested_pieces (requested_pieces pm ∖ {[i]}) pm))
    as ->.
  { unfold receive_piece. apply Nat.ltb_ge in Hl. rewrite Hl, Hv. reflexivity. }
  split; [reflexivity|]. simpl.
  set (pm1 := set_requested_pieces (requested_pieces pm ∖ {[i]}) pm).
  destruct (candidates_of_request pm1 peer_has_pieces Hwf Hlen)
    as (cs & Ecs & Hcs).
  assert (i ∈ cs) as Hin.
  { apply Hcs. split; [exact Hi|]. split; [|exact Hp].
    simpl. rewrite elem_of_difference, elem_of_singleton. tauto. }
  destruct (list_elem_of_lookup_1 _ _ Hin) as [k Hk].
  exists k. unfold get_next_request. rewrite Ecs. simpl.
  destruct cs as [|c cs]; [inversion Hin|].
  unfold get_rarest_piece, random_choice.
  rewrite Nat.mod_small by (eapply lookup_lt_Some; exact Hk).
  rewrite Hk. eexists. reflexivity.
Qed.

End ProgressFacts.




(** ** The directory of a torrent *)

Lemma as_piece_sound path i :
  as_piece path = Some i -> path = piece_file_name i.
Proof.
  unfold as_piece.
  destruct (NilZero.uint_of_string _) as [d|]; [|discriminate].
  cbv zeta. case_bool_decide as E; [|discriminate].
  intros [= <-]. congruence.
Qed.

Lemma string_length_append (a b : string) :
  String.length (a +:+ b) = String.length a + String.length b.
Proof.
  induction a as [|c a IH]; [reflexivity|].
  change (S (String.length (a +:+ b)) = S (String.length a + String.length b)).
  rewrite IH. reflexivity.
Qed.

Lemma substring_append (a b : string) :
  substring 0 (String.length a) (a +:+ b) = a.
Proof.
  induction a as [|c a IH]; [destruct b; reflexivity|].
  change (String c (substring 0 (String.length a) (a +:+ b)) = String c a).
  rewrite IH. reflexivity.
Qed.

(** The name of a piece file is read back as its index. *)
Lemma as_piece_name i : as_piece (piece_file_name i) = Some i.
Proof.
  unfold as_piece.
  set (d := NilZero.string_of_uint (Nat.to_uint i)).
  assert (substring 6 (String.length (piece_file_name i) - 10)
            (piece_file_name i) = d) as ->.
  { unfold piece_file_name. fold d.
    rewrite !string_length_append.
    replace (String.length "piece_" + (String.length d + String.length ".tmp")
             - 10) with (String.length d) by (simpl; lia).
    change (substring 0 (String.length d) (d +:+ ".tmp") = d).
    apply substring_append. }
  unfold d. rewrite NilZero.usu.
  - cbv zeta. rewrite Unsigned.of_to.
    rewrite bool_decide_eq_true_2 by reflexivity. reflexivity.
  - intros E. apply (unorm_nonnil (Nat.to_uint i)).
    rewrite <- Unsigned.to_of, Unsigned.of_to. exact E.
Qed.

Lemma piece_file_name_inj i j :
  piece_file_name i = piece_file_name j -> i = j.
Proof.
  intros E. apply (f_equal as_piece) in E.
  rewrite !as_piece_name in E. congruence.
Qed.


Lemma write_file_in_step path content d :
  in_step d -> in_step (write_file path content d).
Proof.
  intros H i. unfold write_file. cbn [fst snd].
  destruct (as_piece path) as [k|] eqn:E.
  - apply as_piece_sound in E. subst path.
    destruct (decide (i = k)) as [->|Hne].
    + rewrite !lookup_insert_eq. reflexivity.
    + rewrite !lookup_insert_ne; [apply H | | congruence].
      intros Eq. apply Hne. symmetry. apply piece_file_name_inj. exact Eq.
  - rewrite lookup_insert_ne; [apply H|].
    intros ->. rewrite as_piece_name in E. discriminate.
Qed.

Lemma write_piece_file_in_step i content d :
  in_step d -> in_step (write_piece_file i content d).
Proof.
  intros H j. unfold write_piece_file. cbn [fst snd].
  destruct (decide (j = i)) as [->|Hne].
  - rewrite !lookup_insert_eq. reflexivity.
  - rewrite !lookup_insert_ne; [apply H | | congruence].
    intros Eq. apply Hne. symmetry. apply piece_file_name_inj. exact Eq.
Qed.

Lemma unlink_piece_file_in_step i d :
  in_step d -> in_step (unlink_piece_file i d).
Proof.
  intros H j. unfold unlink_piece_file. cbn [fst snd].
  destruct (decide (j = i)) as [->|Hne].
  - rewrite !lookup_delete_eq. reflexivity.
  - rewrite !lookup_delete_ne; [apply H | | congruence].
    intros Eq. apply Hne. symmetry. apply piece_file_name_inj. exact Eq.
Qed.

Section AssemblyFacts.

Import PieceManager.










(** The two views of the directory stay in step. *)
Lemma remove_piece_files_in_step io pm d :
  in_step d -> in_step (remove_piece_files io pm d).
Proof.
  unfold remove_piece_files. generalize (seq 0 (piece_count pm)).
  intros l. revert d. induction l as [|i l IH]; intros d Hd; cbn [foldl];
    [exact Hd|].
  apply IH. destruct (d.1 !! i); [|exact Hd].
  destruct (can_unlink io i); [|exact Hd].
  apply unlink_piece_file_in_step. exact Hd.
Qed.

Lemma assemble_step_in_step io pm (l : list (string * nat)) st :
  in_step st.2 -> in_step (foldl (assemble_step io pm) st l).2.
Proof.
  revert st. induction l as [|f l IH]; intros [offset d] Hd; cbn [foldl];
    [exact Hd|].
  apply IH. cbn [assemble_step snd].
  apply write_file_in_step, write_file_in_step. exact Hd.
Qed.

Lemma _assemble_files_in_step io pm :
  in_step (piece_files pm, payload_files pm) ->
  in_step (piece_files (_assemble_files io pm).2,
           payload_files (_assemble_files io pm).2).
Proof.
  intros Hd. unfold _assemble_files.
  destruct (PieceManager.files pm) as [|f l] eqn:Ef.
  - cbn [snd piece_files payload_files set_disk].
    rewrite <- surjective_pairing.
    apply remove_piece_files_in_step. exact Hd.
  - destruct (piece_length pm =? 0);
      cbn [snd piece_files payload_files set_disk];
      rewrite <- surjective_pairing.
    + apply write_file_in_step. exact Hd.
    + apply remove_piece_files_in_step.
      apply (assemble_step_in_step io pm (f :: l) (0, _)). exact Hd.
Qed.

Lemma receive_piece_in_step io i data pm :
  in_step (piece_files pm, payload_files pm) ->
  in_step (piece_files (receive_piece io i data pm).2,
           payload_files (receive_piece io i data pm).2).
Proof.
  intros Hd. unfold receive_piece.
  destruct (piece_length pm <? length data); [exact Hd|].
  destruct (negb (verify_piece pm i data)); [exact Hd|].
  destruct (negb (can_write io)); [exact Hd|].
  pose proof (write_piece_file_in_step i data _ Hd) as Hw.
  cbv zeta.
  case_bool_decide;
    [|cbn [snd piece_files payload_files set_disk];
      rewrite <- surjective_pairing; exact Hw].
  destruct (forallb id _);
    [|cbn [snd piece_files payload_files set_disk set_bytes_downloaded
           set_requested_pieces set_have_pieces];
      rewrite <- surjective_pairing; exact Hw].
  destruct (can_assemble io);
    [|cbn [snd piece_files payload_files set_disk set_bytes_downloaded
           set_requested_pieces set_have_pieces];
      rewrite <- surjective_pairing; exact Hw].
  match goal with
  | |- context [_assemble_files io ?s] =>
      pose proof (_assemble_files_in_step io s) as Ha;
      destruct (_assemble_files io s) as [[[]|e] pm3]
  end; cbn [snd] in *; apply Ha;
    cbn [piece_files payload_files set_disk set_bytes_downloaded
         set_requested_pieces set_have_pieces];
    rewrite <- surjective_pairing; exact Hw.
Qed.

(** A payload file with the name of a piece file: opening it empties the
    piece, and it is removed with the piece files. *)
Example payload_named_as_piece :
  let pm :=
    __init__ 4 1 [("piece_0.tmp", 4)] {[0 := Sample.piece0]}
      {["piece_0.tmp" := Sample.piece0]} in
  have_pieces pm = [true]
  /\ payload_files (_assemble_files Sample.disk_ok pm).2 !! "piece_0.tmp"
     = None.
Proof. vm_compute. auto. Qed.

End AssemblyFacts.

(** ** The descriptor *)

Section PieceCutting.

Variable pl : nat.
Hypothesis pl_pos : 0 < pl.


Lemma full_short x : length x < pl -> full_pieces pl x = [] /\ last_part pl x = x.
Proof.
  intros H. unfold full_pieces, last_part. rewrite Nat.div_small by exact H.
  split; reflexivity.
Qed.

Lemma full_cons (a b : bytes) :
  length a = pl -> full_pieces pl (a ++ b) = a :: full_pieces pl b /\ last_part pl (a ++ b) = last_part pl b.
Proof.
  intros Ha. unfold full_pieces, last_part.
  assert (length (a ++ b) / pl = S (length b / pl)) as ->.
  { rewrite length_app, Ha.
    replace (pl + length b) with (1 * pl + length b) by lia.
    rewrite Nat.div_add_l by lia. reflexivity. }
  split.
  - cbn [seq fmap list_fmap]. f_equal.
    + unfold piece_of. simpl. rewrite drop_0. apply take_app_length'. lia.
    + rewrite <- fmap_S_seq, <- list_fmap_compose.
      apply list_fmap_ext. intros _ i _. unfold compose, piece_of.
      f_equal. rewrite drop_app_ge by (rewrite Ha; lia).
      f_equal. rewrite Ha. lia.
  - rewrite drop_app_ge by (rewrite Ha; lia). f_equal. rewrite Ha. lia.
Qed.

Lemma length_rest_of x : length (last_part pl x) < pl.
Proof.
  unfold last_part. rewrite length_drop.
  pose proof (Nat.div_mod_eq (length x) pl).
  pose proof (Nat.mod_upper_bound (length x) pl). nia.
Qed.

Lemma full_app x y :
  full_pieces pl (x ++ y) = full_pieces pl x ++ full_pieces pl (last_part pl x ++ y)
  /\ last_part pl (x ++ y) = last_part pl (last_part pl x ++ y).
Proof.
  remember (length x) as n eqn:Hn. revert x Hn.
  induction n as [n IH] using lt_wf_ind. intros x Hn.
  destruct (decide (length x < pl)) as [Hlt|Hge].
  - destruct (full_short x Hlt) as [-> ->]. split; reflexivity.
  - set (a := take pl x). set (x' := drop pl x).
    assert (x = a ++ x') as Hx by (symmetry; apply take_drop).
    assert (length a = pl) as Ha by (unfold a; rewrite length_take; lia).
    assert (length x' < n) as Hx'.
    { unfold x'. rewrite length_drop. lia. }
    clearbody a x'. subst x. rewrite <- app_assoc.
    destruct (full_cons a (x' ++ y) Ha) as [-> ->].
    destruct (full_cons a x' Ha) as [-> ->].
    destruct (IH (length x') Hx' x' eq_refl) as [-> ->].
    split; reflexivity.
Qed.

Import metainfo_manager.

Lemma read_pieces_full fuel content hashes current :
  length current < pl ->
  length content <= fuel ->
  read_pieces fuel pl content (hashes, current)
  = (hashes ++ (SHA1.hexdigest <$> full_pieces pl (current ++ content)),
     last_part pl (current ++ content)).
Proof.
  revert content hashes current.
  assert (forall hashes current,
            length current < pl ->
            (hashes, current)
            = (hashes ++ (SHA1.hexdigest <$> full_pieces pl (current ++ [])),
               last_part pl (current ++ []))) as Hend.
  { intros hashes current Hc. rewrite !app_nil_r.
    destruct (full_short current Hc) as [-> ->].
    simpl. rewrite app_nil_r. reflexivity. }
  induction fuel as [|fuel IH]; intros content hashes current Hc Hf.
  - destruct content; [|simpl in Hf; lia]. apply Hend. exact Hc.
  - cbn [read_pieces].
    set (n := pl - length current).
    destruct (take n content) as [|d ds] eqn:Et.
    { assert (content = []) as ->.
      { destruct content; [reflexivity|].
        destruct n eqn:En; [unfold n in En; lia | discriminate]. }
      apply Hend. exact Hc. }
    assert (0 < length content) as Hpos.
    { destruct content; [rewrite take_nil in Et; discriminate | simpl; lia]. }
    rewrite <- Et. clear d ds Et.
    assert (0 < n) as Hn by (unfold n; lia).
    destruct (length (current ++ take n content) =? pl) eqn:Efull.
    + apply Nat.eqb_eq in Efull.
      rewrite IH by (simpl; rewrite ?length_drop; lia).
      replace (current ++ content)
        with ((current ++ take n content) ++ drop n content)
        by (rewrite <- app_assoc, take_drop; reflexivity).
      destruct (full_cons (current ++ take n content) (drop n content) Efull)
        as [-> ->].
      simpl. rewrite <- app_assoc. reflexivity.
    + apply Nat.eqb_neq in Efull.
      rewrite length_app, length_take in Efull.
      assert (length content < n) as Hshort by lia.
      rewrite take_ge, drop_ge by lia.
      rewrite IH by (simpl; rewrite ?length_app; lia).
      rewrite app_nil_r. reflexivity.
Qed.

Lemma calculate_state files hashes current :
  length current < pl ->
  foldl (fun st content => read_pieces (length content) pl content st)
        (hashes, current) files
  = (hashes ++ (SHA1.hexdigest <$> full_pieces pl (current ++ concat files)),
     last_part pl (current ++ concat files)).
Proof.
  revert hashes current.
  induction files as [|content files IH]; intros hashes current Hc;
    cbn [foldl concat].
  - rewrite app_nil_r. destruct (full_short current Hc) as [-> ->].
    simpl. rewrite app_nil_r. reflexivity.
  - rewrite read_pieces_full by (exact Hc || lia).
    rewrite IH by apply length_rest_of.
    rewrite app_assoc.
    destruct (full_app (current ++ content) (concat files)) as [-> ->].
    rewrite fmap_app, app_assoc. reflexivity.
Qed.

Lemma sum_lengths (files : list bytes) :
  sum_list (length <$> files) = length (concat files).
Proof.
  induction files as [|f fs IH]; simpl; [reflexivity|].
  rewrite length_app, <- IH. reflexivity.
Qed.

Lemma calculate_pieces_hash_pieces files :
  calculate_pieces_hash files pl
  = (fun i => SHA1.hexdigest (piece_of pl (concat files) i))
      <$> seq 0 ((length (concat files) + pl - 1) / pl).
Proof.
  unfold calculate_pieces_hash.
  rewrite calculate_state by (simpl; lia). cbn [app].
  set (x := concat files).
  pose proof (length_rest_of x) as Hr.
  pose proof (Nat.div_mod_eq (length x) pl) as Hd.
  assert (length x mod pl < pl) as Hm by (apply Nat.mod_upper_bound; lia).
  assert (length (last_part pl x) = length x mod pl) as Hlen.
  { unfold last_part. rewrite length_drop. nia. }
  set (q := length x / pl) in *. set (r := length x mod pl) in *.
  unfold full_pieces. rewrite <- list_fmap_compose.
  destruct (last_part pl x) as [|b bs] eqn:Er.
  - simpl in Hlen.
    replace ((length x + pl - 1) / pl) with q; [reflexivity|].
    apply (Nat.div_unique _ _ _ (pl - 1)); clearbody q r; lia.
  - replace ((length x + pl - 1) / pl) with (S q).
    2: { apply (Nat.div_unique _ _ _ (r - 1));
           simpl in Hlen; clearbody q r; nia. }
    rewrite seq_S, fmap_app. f_equal. cbn [fmap list_fmap]. f_equal.
    unfold piece_of. simpl.
    change (drop (q * pl) x) with (last_part pl x). rewrite Er.
    f_equal. symmetry. apply take_ge. lia.
Qed.

End PieceCutting.

Section DescriptorFacts.

Import metainfo_manager.

Lemma calculate_pieces_hash_lookup files piece_length i :
  0 < piece_length ->
  i < length (calculate_pieces_hash files piece_length) ->
  calculate_pieces_hash files piece_length !! i
  = Some (SHA1.hexdigest (piece_of piece_length (concat files) i)).
Proof.
  intros Hpl. rewrite (calculate_pieces_hash_pieces _ Hpl).
  rewrite length_fmap, length_seq. intros Hi.
  rewrite list_lookup_fmap, lookup_seq_lt by exact Hi. reflexivity.
Qed.

(** X11.  The hashes that [calculate_pieces_hash] writes are those of the
    pieces of the payload, the files laid end to end and cut every
    [piece_length] bytes, and there are as many as the [piece_count] that
    [create_metainfo] writes. *)
Lemma pieces_hash_of_payload files piece_length :
  0 < piece_length ->
  piece_count files piece_length
  = Returns (length (calculate_pieces_hash files piece_length))
  /\ forall i,
       i < length (calculate_pieces_hash files piece_length) ->
       calculate_pieces_hash files piece_length !! i
       = Some (SHA1.hexdigest (piece_of piece_length (concat files) i)).
Proof.
  intros Hpl. split.
  - rewrite (calculate_pieces_hash_pieces _ Hpl).
    rewrite length_fmap, length_seq.
    unfold piece_count. rewrite sum_lengths.
    destruct (piece_length =? 0) eqn:E; [|reflexivity].
    apply Nat.eqb_eq in E. lia.
  - intros i. apply calculate_pieces_hash_lookup. exact Hpl.
Qed.

Import PieceManager.

(** X12.  A downloader that holds the hashes of [calculate_pieces_hash]
    accepts every piece cut from the payload that was hashed, when the disk
    takes it. *)
Lemma cut_piece_is_accepted io files i pm :
  0 < piece_length pm ->
  piece_hashes pm = calculate_pieces_hash files (piece_length pm) ->
  i < length (have_pieces pm) ->
  can_write io = true ->
  can_assemble io = true ->
  (receive_piece io i (piece_of (piece_length pm) (concat files) i) pm).1
  = true.
Proof.
  intros Hpl Hh Hi Hw Ha.
  set (data := piece_of (piece_length pm) (concat files) i).
  assert (length data <= piece_length pm) as Hlen.
  { unfold data, piece_of. rewrite length_take. lia. }
  assert (verify_piece pm i data = true) as Hv.
  { unfold verify_piece.
    destruct (piece_hashes pm !! i) as [h|] eqn:E; [|reflexivity].
    apply bool_decide_eq_true_2.
    rewrite Hh in E.
    rewrite (calculate_pieces_hash_lookup files (piece_length pm) i Hpl) in E.
    - injection E as <-. reflexivity.
    - apply lookup_lt_Some in E. exact E. }
  unfold receive_piece.
  destruct (piece_length pm <? length data) eqn:E;
    [apply Nat.ltb_lt in E; lia|].
  rewrite Hv, Hw. cbn [negb].
  rewrite bool_decide_eq_true_2 by exact Hi.
  cbv zeta. destruct (forallb id _); [|reflexivity].
  rewrite Ha. unfold _assemble_files. simpl.
  destruct (PieceManager.files pm); [reflexivity|].
  destruct (piece_length pm =? 0) eqn:E0; [|reflexivity].
  apply Nat.eqb_eq in E0. lia.
Qed.

End DescriptorFacts.

(** ** The tracker *)

Section TrackerFacts.

Import state_manager.

Variable inet_aton : string -> option bytes.

Lemma update_first_ids pid f l :
  (forall p, peer_id p = pid -> peer_id (f p) = pid) ->
  peer_id <$> update_first pid f l = peer_id <$> l.
Proof.
  intros Hf. induction l as [|p rest IH]; cbn [update_first]; [reflexivity|].
  case_bool_decide as Hp; rewrite !fmap_cons.
  - rewrite (Hf p Hp), Hp. reflexivity.
  - rewrite IH. reflexivity.
Qed.

Lemma update_first_others pid f l p :
  (forall q, peer_id q = pid -> peer_id (f q) = pid) ->
  peer_id p <> pid -> p ∈ update_first pid f l <-> p ∈ l.
Proof.
  intros Hf Hp. induction l as [|q rest IH]; cbn [update_first];
    [reflexivity|].
  case_bool_decide as Hq; rewrite !elem_of_cons.
  - split; intros [->|?]; auto.
    + specialize (Hf q Hq). congruence.
    + congruence.
  - rewrite IH. reflexivity.
Qed.

Lemma update_first_hit pid f l :
  pid ∈ peer_id <$> l ->
  exists p, p ∈ l /\ peer_id p = pid /\ f p ∈ update_first pid f l.
Proof.
  induction l as [|q rest IH]; cbn [update_first].
  - intros H. inversion H.
  - case_bool_decide as Hq.
    + intros _. exists q. repeat split; [left | assumption | left].
    + rewrite fmap_cons, elem_of_cons. intros [H | H]; [congruence|].
      destruct (IH H) as (p & Hp & Hid & Hin).
      exists p. repeat split; [right | |right]; assumption.
Qed.

Lemma filter_ids_NoDup pid (l : list peer_info) :
  NoDup (peer_id <$> l) ->
  NoDup (peer_id <$> filter (fun p => peer_id p <> pid) l).
Proof.
  induction l as [|p rest IH]; [auto|].
  rewrite fmap_cons, NoDup_cons. intros [Hp Hnd].
  rewrite filter_cons. case_decide; [|auto].
  rewrite fmap_cons, NoDup_cons. split; [|auto].
  intros Hin. apply Hp. apply list_elem_of_fmap in Hin as (q & -> & Hq).
  apply list_elem_of_filter in Hq as [_ Hq].
  apply list_elem_of_fmap_2. exact Hq.
Qed.

(** The swarm of the request after [manage_peer], and how it comes from
    the swarm before. *)
Lemma manage_peer_swarm peer peer_registry :
  let pid := peer_id (info peer) in
  let swarm := default [] (peer_registry !! info_hash peer) in
  exists swarm1,
    (manage_peer inet_aton peer peer_registry).2
    = <[info_hash peer := swarm1]> peer_registry
    /\ (manage_peer inet_aton peer peer_registry).1
       = (if bool_decide (compact peer = 0%Z)
          then PeerList (filter (fun p => peer_id p <> pid) swarm1)
          else Packed (concat (compact_peer inet_aton
                                 <$> filter (fun p => peer_id p <> pid) swarm1)))
    /\ (NoDup (peer_id <$> swarm) -> NoDup (peer_id <$> swarm1))
    /\ (forall p, peer_id p <> pid -> p ∈ swarm1 <-> p ∈ swarm)
    /\ (event peer = "started" -> info peer ∈ swarm1)
    /\ (event peer = "completed" ->
        exists p, p ∈ swarm1 /\ peer_id p = pid /\ left p = 0%Z)
    /\ (event peer = "stopped" -> pid ∉ peer_id <$> swarm1).
Proof.
  intros pid swarm. unfold manage_peer. fold pid. fold swarm.
  eexists. split; [reflexivity|]. split; [reflexivity|].
  assert (peer_id (info peer) = pid) as Hpid by reflexivity.
  clearbody pid swarm.
  case_bool_decide as Hst; [|case_bool_decide as Hco;
                              [|case_bool_decide as Hsp]].
  - (* started *)
    case_bool_decide as Hex.
    + repeat split.
      * rewrite update_first_ids; auto.
      * apply update_first_others; auto.
      * apply update_first_others; auto.
      * intros _. destruct (update_first_hit pid (fun _ => info peer) swarm Hex)
          as (_ & _ & _ & H). exact H.
      * rewrite Hst. discriminate.
      * rewrite Hst. discriminate.
    + repeat split.
      * intros Hnd. rewrite fmap_app. apply NoDup_app. repeat split; auto.
        -- intros x Hx Hin. simpl in Hin. apply list_elem_of_singleton in Hin.
           subst x. simpl in Hx. rewrite Hpid in Hx. contradiction.
        -- simpl. apply NoDup_singleton.
      * rewrite elem_of_app, list_elem_of_singleton.
        intros [?| ->]; [assumption | congruence].
      * intros ?. apply elem_of_app. auto.
      * intros _. apply elem_of_app. right. apply list_elem_of_singleton.
        reflexivity.
      * rewrite Hst. discriminate.
      * rewrite Hst. discriminate.
  - (* completed *)
    case_bool_decide as Hex.
    + repeat split.
      * rewrite update_first_ids; auto.
      * apply update_first_others; auto.
      * apply update_first_others; auto.
      * congruence.
      * intros _. destruct (update_first_hit pid (set_left 0) swarm Hex)
          as (p & _ & Hid & H).
        exists (set_left 0 p). repeat split; assumption.
      * rewrite Hco. discriminate.
    + repeat split.
      * intros Hnd. rewrite fmap_app. apply NoDup_app. repeat split; auto.
        -- intros x Hx Hin. simpl in Hin. apply list_elem_of_singleton in Hin.
           subst x. simpl in Hx. rewrite Hpid in Hx. contradiction.
        -- simpl. apply NoDup_singleton.
      * rewrite elem_of_app, list_elem_of_singleton.
        intros [?| ->]; [assumption | simpl in *; congruence].
      * intros ?. apply elem_of_app. auto.
      * congruence.
      * intros _. exists (set_left 0 (info peer)).
        split; [|split; [exact Hpid | reflexivity]].
        apply elem_of_app. right. apply list_elem_of_singleton. reflexivity.
      * rewrite Hco. discriminate.
  - (* stopped *)
    repeat split.
    + apply filter_ids_NoDup.
    + intros Hin. apply list_elem_of_filter in Hin. tauto.
    + intros Hin. apply list_elem_of_filter. auto.
    + congruence.
    + congruence.
    + intros _ Hin. apply list_elem_of_fmap in Hin as (q & Hq & Hin).
      apply list_elem_of_filter in Hin as [Hne _]. congruence.
  - repeat split; auto; congruence.
Qed.

Lemma manage_peer_other_swarms peer peer_registry h :
  h <> info_hash peer ->
  (manage_peer inet_aton peer peer_registry).2 !! h = peer_registry !! h.
Proof.
  intros Hh. unfold manage_peer. cbn [snd].
  rewrite lookup_insert_ne by congruence. reflexivity.
Qed.

(** X13.  The tracker never lists a peer twice.  If no swarm of the registry
    holds two entries with the same peer id, no swarm does after an
    announce, whatever its event. *)
Lemma manage_peer_keeps_distinct peer peer_registry :
  distinct_peers peer_registry ->
  distinct_peers (manage_peer inet_aton peer peer_registry).2.
Proof.
  intros Hd h sw Hl.
  destruct (manage_peer_swarm peer peer_registry) as (s1 & Hreg & _ & Hnd & _).
  rewrite Hreg in Hl. destruct (decide (h = info_hash peer)) as [->|Hne].
  - rewrite lookup_insert_eq in Hl. injection Hl as <-. apply Hnd.
    destruct (peer_registry !! info_hash peer) as [sw0|] eqn:E; simpl.
    + exact (Hd _ _ E).
    + apply NoDup_nil_2.
  - rewrite lookup_insert_ne in Hl by congruence. exact (Hd _ _ Hl).
Qed.

(** X14.  A peer that announced [started] is told to the next peer that
    announces for the same torrent in dictionary mode, with the address it
    announced; and the answer never holds the asking peer itself. *)
Lemma started_peer_is_listed a b peer_registry :
  event a = "started" ->
  info_hash b = info_hash a ->
  peer_id (info b) <> peer_id (info a) ->
  compact b = 0%Z ->
  exists l,
    (manage_peer inet_aton b (manage_peer inet_aton a peer_registry).2).1
    = PeerList l
    /\ info a ∈ l
    /\ (forall p, p ∈ l -> peer_id p <> peer_id (info b)).
Proof.
  intros Hev Hh Hne Hc.
  destruct (manage_peer_swarm a peer_registry)
    as (s1 & Hreg & _ & _ & _ & Hin & _).
  destruct (manage_peer_swarm b (manage_peer inet_aton a peer_registry).2)
    as (s2 & _ & Hresp & _ & Hkeep & _).
  rewrite Hresp, Hc. rewrite bool_decide_eq_true_2 by reflexivity.
  eexists. split; [reflexivity|]. split.
  - apply list_elem_of_filter. split; [congruence|].
    apply Hkeep; [congruence|].
    rewrite Hreg, Hh, lookup_insert_eq. simpl. auto.
  - intros p Hp. apply list_elem_of_filter in Hp. tauto.
Qed.

(** X15.  A peer that announced [stopped] is told to nobody who announces
    next for the same torrent in dictionary mode. *)
Lemma stopped_peer_is_forgotten a b peer_registry :
  event a = "stopped" ->
  info_hash b = info_hash a ->
  compact b = 0%Z ->
  exists l,
    (manage_peer inet_aton b (manage_peer inet_aton a peer_registry).2).1
    = PeerList l
    /\ (forall p, p ∈ l -> peer_id p <> peer_id (info a)).
Proof.
  intros Hev Hh Hc.
  destruct (manage_peer_swarm a peer_registry)
    as (s1 & Hreg & _ & _ & _ & _ & _ & Hout).
  destruct (manage_peer_swarm b (manage_peer inet_aton a peer_registry).2)
    as (s2 & _ & Hresp & _ & Hkeep & _).
  rewrite Hresp, Hc. rewrite bool_decide_eq_true_2 by reflexivity.
  eexists. split; [reflexivity|].
  intros p Hp Hid. apply list_elem_of_filter in Hp as [Hpb Hp].
  apply Hkeep in Hp; [|exact Hpb].
  rewrite Hreg, Hh, lookup_insert_eq in Hp. simpl in Hp.
  apply (Hout Hev). rewrite <- Hid. apply list_elem_of_fmap_2. exact Hp.
Qed.

End TrackerFacts.

Section StatsFacts.

Import state_manager.

Lemma length_filter_left (l : list peer_info) :
  length l
  = length (filter (fun p => left p = 0%Z) l)
    + length (filter (fun p => (0 < left p)%Z) l)
    + length (filter (fun p => (left p < 0)%Z) l).
Proof.
  induction l as [|p rest IH]; [reflexivity|].
  rewrite !filter_cons.
  repeat case_decide; cbn [length]; lia.
Qed.

(** X16.  [get_stats] counts every registered peer once as a seeder or as a
    leecher, but for the peers that announced a negative [left], which are
    counted as peers only. *)
Lemma get_stats_counts peer_registry :
  peers (get_stats peer_registry)
  = seeders (get_stats peer_registry) + leechers (get_stats peer_registry)
    + sum_list ((fun l => length (filter (fun p => (left p < 0)%Z) l))
                  <$> (map_to_list peer_registry).*2).
Proof.
  unfold get_stats. cbn [peers seeders leechers].
  induction ((map_to_list peer_registry).*2) as [|l rest IH];
    [reflexivity|].
  rewrite !fmap_cons. cbn [sum_list sum_list_with].
  rewrite (length_filter_left l), IH. unfold id. lia.
Qed.

(** X17.  Every announce registers its torrent: after an announce for a
    torrent that the registry does not know, also one with the event
    [stopped], [get_stats] counts one torrent more. *)
Lemma announce_registers_torrent inet_aton peer peer_registry :
  peer_registry !! info_hash peer = None ->
  torrents (get_stats (manage_peer inet_aton peer peer_registry).2)
  = S (torrents (get_stats peer_registry)).
Proof.
  intros Hn. unfold manage_peer, get_stats. cbn [snd torrents].
  rewrite map_size_insert, Hn. reflexivity.
Qed.

End StatsFacts.

(** ** Messages that change what is asked for *)

Section MessageFacts.

Import PeerConnection.

Lemma dispatch_next e msg_id payload c pm c1 pm1 :
  handle e msg_id payload (set_last_activity (t_frame e) c) pm
  = (Next, c1, pm1) ->
  (dispatch e msg_id payload c pm).1.1 = Continue
  /\ same_session c1 (dispatch e msg_id payload c pm).1.2
  /\ (dispatch e msg_id payload c pm).2 = pm1.
Proof.
  intros Hh. unfold dispatch. rewrite Hh.
  destruct (Qle_bool _ _); cbn [fst snd].
  - repeat split.
  - split; [reflexivity|]. split; [|reflexivity].
    apply _send_keep_alive_same.
Qed.

(** X18.  A [piece] message whose block the piece manager accepts completes
    the piece, whatever its offset and however short the block: the piece is
    held, and no request for another block of it stays in the queue. *)
Theorem block_is_taken_for_piece e c pm index begin block :
  (N.of_nat index < 4294967296)%N ->
  (PieceManager.receive_piece (disk e) index block pm).1 = true ->
  let r :=
    dispatch e 7 (Some (to_bytes4 index ++ to_bytes4 begin ++ block)) c pm in
  r.1.1 = Continue
  /\ r.2 = (PieceManager.receive_piece (disk e) index block pm).2
  /\ PieceManager.have_pieces r.2 !! index = Some true
  /\ (forall q, q ∈ request_queue r.1.2 -> q.1.1 <> index).
Proof.
  intros Hi Hacc r.
  destruct (PieceManager.receive_piece (disk e) index block pm)
    as [ok pm1] eqn:Er.
  cbn [fst snd] in Hacc. subst ok.
  set (c0 := set_last_activity (t_frame e) c).
  set (c1 := set_bytes_downloaded (bytes_downloaded c0 + length block) c0).
  assert (handle e 7 (Some (to_bytes4 index ++ to_bytes4 begin ++ block)) c0 pm
          = (Next,
             set_request_queue
               (filter (fun q => q.1.1 <> index) (request_queue c1)) c1,
             pm1)) as Hh.
  { cbn [handle].
    destruct (length (to_bytes4 index ++ to_bytes4 begin ++ block) <? 8)
      eqn:El.
    { apply Nat.ltb_lt in El. rewrite !length_app, !length_to_bytes4 in El.
      lia. }
    assert (slice 0 4 (to_bytes4 index ++ to_bytes4 begin ++ block)
            = to_bytes4 index) as ->.
    { unfold slice. rewrite drop_0. apply take_app_length'. reflexivity. }
    assert (drop 8 (to_bytes4 index ++ to_bytes4 begin ++ block) = block)
      as ->.
    { rewrite app_assoc. apply drop_app_length'.
      rewrite length_app, !length_to_bytes4. reflexivity. }
    rewrite (int_from_to_bytes4 index Hi), Er. reflexivity. }
  destruct (dispatch_next _ _ _ _ _ _ _ Hh) as (Hst & Hsame & Hpm).
  fold r in Hst, Hsame, Hpm.
  split; [exact Hst|]. split; [exact Hpm|]. split.
  - rewrite Hpm.
    destruct (receive_piece_true (disk e) index block pm) as (_ & _ & Hlt & Hhave & _).
    { rewrite Er. reflexivity. }
    rewrite Er in Hhave. cbn [snd] in Hhave. rewrite Hhave.
    apply list_lookup_insert_eq. exact Hlt.
  - destruct Hsame as (_ & Hq & _). rewrite Hq. cbn [request_queue set_request_queue].
    intros q Hin. apply list_elem_of_filter in Hin. tauto.
Qed.

(** X19.  After a [have] for a piece that we lack and have asked from
    nobody, the next [get_next_request] for the session finds a piece to ask
    for. *)
Theorem have_makes_piece_requestable e r c pm body :
  let i := int_from_bytes body in
  well_formed pm ->
  PieceManager.piece_count pm <= length (peer_bitfield c) ->
  PieceManager.have_pieces pm !! i = Some false ->
  i ∉ PieceManager.requested_pieces pm ->
  let d := dispatch e 4 (Some body) c pm in
  d.1.1 <> Break
  /\ exists j pm',
       PieceManager.get_next_request r (peer_bitfield d.1.2) d.2
       = Returns (Some j, pm')
       /\ wanted pm (<[i:=true]> (peer_bitfield c)) j.
Proof.
  intros i Hwf Hlen Hlack Hreq d.
  assert (i < length (peer_bitfield c)) as Hi.
  { apply lookup_lt_Some in Hlack. rewrite Hwf in Hlack. lia. }
  set (c0 := set_last_activity (t_frame e) c).
  set (c1 := set_peer_bitfield (<[i:=true]> (peer_bitfield c0)) c0).
  assert (exists fl c2,
            handle e 4 (Some body) c0 pm = (fl, c2, pm)
            /\ (fl = Next \/ fl = Waits)
            /\ peer_bitfield c2 = <[i:=true]> (peer_bitfield c))
    as (fl & c2 & Hh & Hfl & Hbf).
  { cbn [handle]. fold i.
    rewrite bool_decide_eq_true_2 by exact Hi. fold c1. rewrite Hlack.
    destruct (am_interested c1); [exists Next, c1; auto|].
    pose proof (_send_interested_same (t_sent e) c1) as [(_ & _ & Hb & _) _].
    pose proof (_send_interested_never_fails (t_sent e) c1) as Hnf.
    destruct (_send_interested (t_sent e) c1) as [[| | |x] c2]; cbn [after_send];
      [exists Next, c2 | exists Next, c2 | exists Waits, c2
       | exfalso; exact (Hnf x eq_refl)];
      cbn [snd] in Hb; rewrite Hb; auto. }
  assert (d.1.1 <> Break /\ peer_bitfield d.1.2 = <[i:=true]> (peer_bitfield c)
          /\ d.2 = pm) as (Hst & Hd & Hpm).
  { unfold d, dispatch. fold c0. rewrite Hh.
    destruct Hfl as [-> | ->].
    - destruct (Qle_bool _ _); cbn [fst snd].
      + repeat split; [discriminate | exact Hbf].
      + repeat split; [discriminate|].
        destruct (_send_keep_alive_same (t_alive e) c2) as (_ & _ & Hb & _).
        rewrite Hb. exact Hbf.
    - cbn [fst snd]. repeat split; [discriminate | exact Hbf]. }
  split; [exact Hst|]. rewrite Hd, Hpm.
  set (bf := <[i:=true]> (peer_bitfield c)).
  assert (PieceManager.piece_count pm <= length bf) as Hlen'.
  { unfold bf. rewrite length_insert. exact Hlen. }
  destruct (candidates_of_request pm bf Hwf Hlen') as (cs & Ecs & Hcs).
  assert (wanted pm bf i) as Hw.
  { repeat split; [exact Hlack | exact Hreq |].
    unfold bf. apply list_lookup_insert_eq. exact Hi. }
  unfold PieceManager.get_next_request. rewrite Ecs. cbn [bind].
  destruct cs as [|first rest].
  { apply Hcs in Hw. inversion Hw. }
  unfold PieceManager.get_rarest_piece.
  destruct (random_choice r (first :: rest)) as [x|] eqn:Ex.
  - eexists _, _. split; [reflexivity|]. apply Hcs.
    unfold random_choice in Ex. eapply list_elem_of_lookup_2. exact Ex.
  - eexists _, _. split; [reflexivity|]. apply Hcs. left.
Qed.

End MessageFacts.

(** ** Requests for whole pieces *)

Section PieceRequestFacts.

Import PeerConnection.

Lemma piece_blocks_last piece_index piece_size :
  0 < piece_size ->
  exists blocks begin length_,
    piece_blocks piece_index piece_size = Returns blocks
    /\ last blocks = Some (piece_index, begin, length_)
    /\ begin + length_ = piece_size
    /\ 0 < length_.
Proof.
  intros Hsize. unfold piece_blocks.
  set (bs := block_limit `min` piece_size).
  assert (0 < bs) as Hbs by (unfold bs, block_limit; lia).
  destruct (bs =? 0) eqn:E; [apply Nat.eqb_eq in E; lia|].
  set (n := (piece_size + bs - 1) / bs).
  destruct (block_count_bounds bs piece_size Hbs Hsize) as (Hlo & Hhi & Hn).
  fold n in Hlo, Hhi, Hn.
  eexists _, ((n - 1) * bs), (bs `min` (piece_size - (n - 1) * bs)).
  split; [reflexivity|]. fold n. clearbody n bs.
  destruct n as [|m]; [lia|]. split.
  - rewrite seq_S, map_app. cbn [map]. rewrite last_snoc. simpl.
    rewrite Nat.sub_0_r. reflexivity.
  - simpl in Hlo. rewrite Nat.sub_0_r in Hlo. simpl. rewrite Nat.sub_0_r. nia.
Qed.

(** X20.  The blocks of a piece are asked for with the piece length of the
    torrent.  A peer whose piece file is shorter, as the file of the last
    piece of a payload that is no multiple of the piece length is, answers
    the last block of the piece with nothing. *)
Theorem short_piece_is_not_served now readable c pm piece_index piece_size
    content :
  0 < piece_size ->
  (N.of_nat piece_size < 4294967296)%N ->
  (N.of_nat piece_index < 4294967296)%N ->
  PieceManager.piece_files pm !! piece_index = Some content ->
  length content < piece_size ->
  exists blocks begin length_,
    piece_blocks piece_index piece_size = Returns blocks
    /\ last blocks = Some (piece_index, begin, length_)
    /\ _process_request now readable
         (to_bytes4 piece_index ++ to_bytes4 begin ++ to_bytes4 length_) c pm
       = (NotSent, c, pm).
Proof.
  intros Hsize Hps Hi Hf Hshort.
  destruct (piece_blocks_last piece_index piece_size Hsize)
    as (blocks & begin & length_ & Hb & Hlast & Hsum & Hpos).
  exists blocks, begin, length_. split; [exact Hb|]. split; [exact Hlast|].
  unfold _process_request.
  destruct (am_choking c); [reflexivity|].
  destruct (slice_request (to_bytes4 piece_index) (to_bytes4 begin)
              (to_bytes4 length_)) as (-> & -> & ->); try reflexivity.
  rewrite !int_from_to_bytes4 by lia.
  destruct (length _ <? 12); [reflexivity|].
  destruct (PieceManager.have_pieces pm !! piece_index) as [[|]|];
    [|reflexivity|reflexivity].
  rewrite Hf. destruct readable; [|reflexivity]. cbn [negb].
  replace (length (take length_ (drop begin content)) =? length_) with false;
    [reflexivity|].
  symmetry. apply Nat.eqb_neq. rewrite length_take, length_drop. lia.
Qed.

(** X21.  [request_piece] puts the blocks of the piece in front of the queue,
    the last block first, and does not remember that it did: a second call
    puts them there again. *)
Theorem request_piece_repeats piece_index c pm c1 :
  request_piece piece_index c pm = (Returns true, c1) ->
  exists blocks c2,
    piece_blocks piece_index (PieceManager.piece_length pm) = Returns blocks
    /\ request_queue c1 = reverse blocks ++ request_queue c
    /\ request_piece piece_index c1 pm = (Returns true, c2)
    /\ request_queue c2
       = reverse blocks ++ reverse blocks ++ request_queue c.
Proof.
  unfold request_piece.
  destruct (peer_bitfield c !! piece_index) as [[|]|] eqn:Ebf;
    try discriminate.
  destruct (PieceManager.have_pieces pm !! piece_index) as [[|]|] eqn:Eh;
    try discriminate.
  destruct (peer_choking c) eqn:Ech; try discriminate.
  destruct (piece_blocks piece_index (PieceManager.piece_length pm))
    as [blocks|] eqn:Eb; try discriminate.
  intros [= <-]. exists blocks. eexists. split; [reflexivity|].
  split; [reflexivity|].
  cbn [peer_bitfield peer_choking set_request_queue request_queue].
  rewrite Ebf, Ech. split; reflexivity.
Qed.

End PieceRequestFacts.

(** ** Magnet links *)

Lemma replace_plus_clean s : occurs "+" s = false -> replace_plus s = s.
Proof.
  induction s as [|c rest IH]; simpl; [reflexivity|].
  intros H. apply orb_false_iff in H as [Hc Hr].
  rewrite Hc, (IH Hr). reflexivity.
Qed.

Lemma unquote_ascii_clean s : occurs "%" s = false -> unquote_ascii s = s.
Proof.
  induction s as [|c rest IH]; [reflexivity|].
  cbn [occurs]. intros H. apply orb_false_iff in H as [Hc Hr].
  apply bool_decide_eq_false in Hc.
  destruct c as [[] [] [] [] [] [] [] []]; try congruence;
    cbn [unquote_ascii]; rewrite (IH Hr); reflexivity.
Qed.

Lemma unquote_quote_ascii s : unquote_ascii (quote_ascii s) = s.
Proof.
  induction s as [|c rest IH]; [reflexivity|].
  destruct c as [[] [] [] [] [] [] [] []];
    match goal with
    | |- unquote_ascii (quote_ascii (String ?c rest)) = _ =>
        change (String c (unquote_ascii (quote_ascii rest)) = String c rest)
    end; rewrite IH; reflexivity.
Qed.

Lemma quote_ascii_clean c s :
  is_unreserved c = false -> c <> "%"%char -> occurs c (quote_ascii s) = false.
Proof.
  intros Hc Hp. induction s as [|d rest IH]; [reflexivity|].
  cbn [quote_ascii]. destruct (is_unreserved d) eqn:Ed.
  - cbn [occurs]. rewrite IH, orb_false_r. apply bool_decide_eq_false.
    congruence.
  - cbn [occurs]. rewrite IH, !orb_false_r.
    rewrite (bool_decide_eq_false_2 ("%"%char = c)) by congruence.
    assert (forall n, is_unreserved (hex_digit_upper n) = true) as Hu.
    { intros n. do 16 (destruct n as [|n]; [reflexivity|]). reflexivity. }
    rewrite !bool_decide_eq_false_2; [reflexivity| |];
      intros E; rewrite <- E, Hu in Hc; discriminate.
Qed.

(** X22.  [create_magnet] refuses an empty info hash with a [ValueError],
    and fails with an [UnboundLocalError] exactly when trackers are given
    without a name: [quote] is imported only where the name is added. *)
Theorem create_magnet_fails quote info_hash name trackers :
  (magnet_utils.create_magnet quote info_hash name trackers
   = inl magnet_utils.CreateValueError
   <-> info_hash = "")
  /\ (magnet_utils.create_magnet quote info_hash name trackers
      = inl magnet_utils.CreateUnboundLocalError
      <-> info_hash <> "" /\ (name = None \/ name = Some "")
          /\ trackers <> None /\ trackers <> Some []).
Proof.
  unfold magnet_utils.create_magnet.
  destruct info_hash as [|c h].
  { split; [tauto|]. split; [discriminate | tauto]. }
  destruct name as [[|d n]|], trackers as [[|t trs]|];
    (split; split; intros H; try discriminate H; try reflexivity;
     try (destruct H as (_ & [?|?] & ? & ?); congruence);
     repeat split; auto; discriminate).
Qed.

Section MagnetRoundTrip.

Import magnet_utils.

Variable quote unquote lower : string -> string.

(** What [urllib.parse] promises of [quote] and [unquote]. *)
Hypothesis quote_no_amp : forall s, occurs "&" (quote s) = false.
Hypothesis quote_no_plus : forall s, occurs "+" (quote s) = false.
Hypothesis unquote_quote : forall s, unquote (quote s) = s.
Hypothesis unquote_clean : forall s, occurs "%" s = false -> unquote s = s.

Lemma quote_not_empty s : s <> "" -> quote s <> "".
Proof.
  intros Hs E. apply Hs. rewrite <- (unquote_quote s), E.
  apply unquote_clean. reflexivity.
Qed.

Lemma foldl_trackers m trs :
  foldl (fun m tracker => m +:+ "&tr=" +:+ quote tracker) m trs
  = m +:+ foldr (fun tracker acc => "&tr=" +:+ quote tracker +:+ acc) "" trs.
Proof.
  revert m. induction trs as [|t trs IH]; intros m; cbn [foldl foldr].
  - rewrite string_append_nil. reflexivity.
  - rewrite IH, !string_append_assoc. reflexivity.
Qed.

Lemma split_trackers trs first :
  occurs "&" first = false ->
  split_on "&"
    (first +:+ foldr (fun tracker acc => "&tr=" +:+ quote tracker +:+ acc)
                 "" trs)
  = first :: ((fun tracker => "tr=" +:+ quote tracker) <$> trs).
Proof.
  revert first. induction trs as [|t trs IH]; intros first Hf; cbn [foldr].
  - rewrite string_append_nil. apply split_on_clean. exact Hf.
  - change ("&tr=" +:+ quote t +:+ ?x)
      with (String "&" ("tr=" +:+ quote t +:+ x)).
    rewrite split_on_app by exact Hf.
    rewrite fmap_cons. f_equal.
    rewrite <- string_append_assoc. apply IH.
    rewrite occurs_append, quote_no_amp. reflexivity.
Qed.

Lemma parse_field name value :
  occurs "%" name = false -> occurs "+" name = false ->
  occurs "=" name = false ->
  value <> "" ->
  match split_once "=" (name +:+ String "=" value) with
  | None => None
  | Some (name, value) =>
      match value with
      | EmptyString => None
      | _ => Some (unquote (replace_plus name), unquote (replace_plus value))
      end
  end
  = Some (name, unquote (replace_plus value)).
Proof.
  intros Hp Hplus Heq Hv.
  assert (split_once "=" (name +:+ String "=" value) = Some (name, value))
    as ->.
  { clear Hp Hplus. induction name as [|c rest IH]; simpl.
    - reflexivity.
    - simpl in Heq. apply orb_false_iff in Heq as [Hc Hr].
      rewrite Hc, (IH Hr). reflexivity. }
  destruct value; [congruence|].
  rewrite (replace_plus_clean name Hplus), (unquote_clean name Hp).
  reflexivity.
Qed.

Lemma parse_qs_trackers trs (m : gmap string (list string)) :
  m !! "tr" = None ->
  foldl (fun parsed_result nv =>
           match parsed_result !! nv.1 with
           | Some values => <[nv.1 := values ++ [nv.2]]> parsed_result
           | None => <[nv.1 := [nv.2]]> parsed_result
           end) m ((fun t => ("tr", t)) <$> trs)
  = if bool_decide (trs = []) then m else <["tr" := trs]> m.
Proof.
  assert (forall trs (m : gmap string (list string)) vs,
            foldl (fun parsed_result (nv : string * string) =>
                     match parsed_result !! nv.1 with
                     | Some values =>
                         <[nv.1 := values ++ [nv.2]]> parsed_result
                     | None => <[nv.1 := [nv.2]]> parsed_result
                     end) (<["tr" := vs]> m) ((fun t => ("tr", t)) <$> trs)
            = <["tr" := vs ++ trs]> m) as Hsome.
  { clear. induction trs as [|t trs IH]; intros m vs.
    - rewrite app_nil_r. reflexivity.
    - rewrite fmap_cons. cbn [foldl fst snd].
      rewrite lookup_insert_eq, insert_insert_eq, IH, <- app_assoc.
      reflexivity. }
  intros Hm. destruct trs as [|t trs]; [reflexivity|].
  rewrite bool_decide_eq_false_2 by discriminate.
  rewrite fmap_cons. cbn [foldl fst snd]. rewrite Hm.
  rewrite Hsome. reflexivity.
Qed.

(** X23.  A magnet link that [create_magnet] writes with a name is read back
    by [parse_magnet]: the info hash in lower case, the name, and the
    trackers when there are some.  The hash must be free of the characters
    [&], [+] and [%], and no tracker may be empty. *)
Theorem magnet_round_trip info_hash name trackers :
  info_hash <> "" ->
  occurs "&" info_hash = false ->
  occurs "+" info_hash = false ->
  occurs "%" info_hash = false ->
  name <> "" ->
  Forall (fun tracker => tracker <> "") trackers ->
  exists magnet,
    create_magnet quote info_hash (Some name) (Some trackers) = inr magnet
    /\ parse_magnet unquote lower magnet
       = Returns
           ((if bool_decide (trackers = []) then id
             else <["trackers" := StrList trackers]>)
              (<["name" := Str name]>
                 (<["info_hash" := Str (lower info_hash)]> ∅))).
Proof.
  intros Hh Hamp Hplus Hpct Hn Htrs.
  set (query :=
         ("xt=urn:btih:" +:+ info_hash +:+ "&dn=" +:+ quote name)
         +:+ foldr (fun tracker acc => "&tr=" +:+ quote tracker +:+ acc)
               "" trackers).
  exists ("magnet:?" +:+ query). split.
  { assert (create_magnet quote info_hash (Some name) (Some trackers)
            = inr (foldl (fun m tracker => m +:+ "&tr=" +:+ quote tracker)
                     ("magnet:?xt=urn:btih:" +:+ info_hash
                        +:+ "&dn=" +:+ quote name) trackers)) as ->.
    { unfold create_magnet.
      destruct info_hash; [congruence|]. destruct name; [congruence|].
      destruct trackers; reflexivity. }
    rewrite foldl_trackers. reflexivity. }
  assert (parse_qsl unquote query
          = ("xt", "urn:btih:" +:+ info_hash) :: ("dn", name)
              :: ((fun t => ("tr", t)) <$> trackers)) as Hqsl.
  { assert (forall q, q <> "" ->
              parse_qsl unquote q
              = omap (fun name_value =>
                        match split_once "="%char name_value with
                        | None => None
                        | Some (name, value) =>
                            match value with
                            | EmptyString => None
                            | _ => Some (unquote (replace_plus name),
                                         unquote (replace_plus value))
                            end
                        end)
                     (split_on "&"%char q)) as ->.
    { intros q Hq. destruct q; [congruence | reflexivity]. }
    2: { unfold query. discriminate. }
    assert (query
            = ("xt=urn:btih:" +:+ info_hash)
              +:+ String "&"
                    (("dn=" +:+ quote name)
                     +:+ foldr (fun tracker acc =>
                                  "&tr=" +:+ quote tracker +:+ acc)
                           "" trackers)) as ->.
    { unfold query. rewrite !string_append_assoc. reflexivity. }
    rewrite split_on_app by (rewrite occurs_append, Hamp; reflexivity).
    rewrite split_trackers
      by (rewrite occurs_append, quote_no_amp; reflexivity).
    cbn [omap list_omap].
    change ("xt=urn:btih:" +:+ info_hash)
      with ("xt" +:+ String "=" ("urn:btih:" +:+ info_hash)).
    change ("dn=" +:+ quote name) with ("dn" +:+ String "=" (quote name)).
    rewrite (parse_field "xt" ("urn:btih:" +:+ info_hash))
      by (reflexivity || discriminate).
    rewrite (parse_field "dn" (quote name))
      by (reflexivity || apply quote_not_empty; exact Hn).
    rewrite (replace_plus_clean ("urn:btih:" +:+ info_hash))
      by (rewrite occurs_append, Hplus; reflexivity).
    rewrite (unquote_clean ("urn:btih:" +:+ info_hash))
      by (rewrite occurs_append, Hpct; reflexivity).
    rewrite (replace_plus_clean (quote name)), unquote_quote
      by apply quote_no_plus.
    do 2 f_equal.
    induction Htrs as [|t trs Ht _ IH]; [reflexivity|].
    rewrite !fmap_cons. cbn [omap list_omap].
    change ("tr=" +:+ quote t) with ("tr" +:+ String "=" (quote t)).
    rewrite (parse_field "tr" (quote t))
      by (reflexivity || apply quote_not_empty; exact Ht).
    rewrite (replace_plus_clean (quote t)), unquote_quote
      by apply quote_no_plus.
    f_equal. exact IH. }
  unfold parse_magnet.
  change (String.prefix "magnet:?" ("magnet:?" +:+ query)) with true.
  cbn [negb]. change (skip 8 ("magnet:?" +:+ query)) with query.
  assert (parse_qs unquote query
          = if bool_decide (trackers = [])
            then <["dn" := [name]]>
                   (<["xt" := ["urn:btih:" +:+ info_hash]]> ∅)
            else <["tr" := trackers]>
                   (<["dn" := [name]]>
                      (<["xt" := ["urn:btih:" +:+ info_hash]]> ∅))) as Hqs.
  { unfold parse_qs. rewrite Hqsl. cbn [foldl fst snd].
    rewrite lookup_empty. rewrite lookup_insert_ne by done.
    rewrite lookup_empty. apply parse_qs_trackers.
    rewrite !lookup_insert_ne by done. apply lookup_empty. }
  assert (parse_qs unquote query !! "xt"
          = Some ["urn:btih:" +:+ info_hash]) as Hxt.
  { rewrite Hqs. case_bool_decide;
      repeat first [rewrite lookup_insert_eq
                   | rewrite lookup_insert_ne by done]; reflexivity. }
  assert (parse_qs unquote query !! "dn" = Some [name]) as Hdn.
  { rewrite Hqs. case_bool_decide;
      repeat first [rewrite lookup_insert_eq
                   | rewrite lookup_insert_ne by done]; reflexivity. }
  assert (parse_qs unquote query !! "tr"
          = if bool_decide (trackers = []) then None else Some trackers)
    as Htr.
  { rewrite Hqs. case_bool_decide;
      repeat first [rewrite lookup_insert_eq
                   | rewrite lookup_insert_ne by done]; reflexivity. }
  rewrite Hxt, Hdn, Htr. cbn [first_btih].
  assert (String.prefix "urn:btih:" ("urn:btih:" +:+ info_hash) = true)
    as ->.
  { cbn. destruct info_hash; reflexivity. }
  change (skip 9 ("urn:btih:" +:+ info_hash)) with info_hash.
  cbn [bind].
  case_bool_decide;
    repeat first [rewrite lookup_insert_eq
                 | rewrite lookup_insert_ne by done]; reflexivity.
Qed.

End MagnetRoundTrip.

(** ** What a session never sends *)

Section SilenceFacts.

Import PeerConnection.

Lemma _send_message_tx now msg_id payload c s :
  socket c = Some s ->
  exists first k,
    socket (_send_message now msg_id payload c).2
    = Some (Tcp (rx s) (tx s ++ first) k)
    /\ (first = [] \/ first = frame msg_id payload).
Proof.
  intros Hs. unfold _send_message.
  assert (Some s = Some (Tcp (rx s) (tx s ++ []) (tx_left s))) as Hsame.
  { destruct s. cbn [rx tx tx_left]. rewrite app_nil_r. reflexivity. }
  destruct (connected c); cbn [negb].
  2: { exists [], (tx_left s). cbn [snd]. rewrite Hs. auto. }
  rewrite Hs.
  destruct (int_to_bytes4 (length payload + 1)) as [length_prefix|] eqn:El.
  2: { exists [], (tx_left s). cbn [snd]. rewrite Hs. auto. }
  apply int_to_bytes4_is_Some in El as [_ ->].
  destruct (msg_id <? 256).
  2: { exists [], (tx_left s). cbn [snd]. rewrite Hs. auto. }
  unfold sendall. destruct (tx_left s) as [|k] eqn:Ek.
  - exists [], 0. cbn [snd]. split; [|auto].
    rewrite Hs. destruct s. cbn [rx tx tx_left] in *. subst.
    rewrite app_nil_r. reflexivity.
  - exists (frame msg_id payload), k. cbn [snd]. split; [reflexivity|auto].
Qed.

Lemma after_send_tx (r : sending * t) pm s msg_id payload :
  (exists first k,
     socket r.2 = Some (Tcp (rx s) (tx s ++ first) k)
     /\ (first = [] \/ first = frame msg_id payload)) ->
  msg_id = 1 \/ msg_id = 2 \/ msg_id = 7 ->
  exists first k,
    socket (after_send r pm).1.2 = Some (Tcp (rx s) (tx s ++ first) k)
    /\ answer_message first.
Proof.
  intros (first & k & Hs & Hf) Hid. exists first, k. split.
  - destruct r as [[] c']; exact Hs.
  - destruct Hf as [-> | ->]; [left; reflexivity | right; eauto].
Qed.

Lemma _send_interested_tx now c s :
  socket c = Some s ->
  exists first k,
    socket (_send_interested now c).2 = Some (Tcp (rx s) (tx s ++ first) k)
    /\ (first = [] \/ first = frame 2 []).
Proof.
  intros Hs. destruct (_send_message_tx now 2 [] c s Hs) as (f & k & H & Hf).
  exists f, k. split; [|exact Hf]. unfold _send_interested.
  destruct (_send_message now 2 [] c) as [[] c']; exact H.
Qed.

Lemma _send_unchoke_tx now c s :
  socket c = Some s ->
  exists first k,
    socket (_send_unchoke now c).2 = Some (Tcp (rx s) (tx s ++ first) k)
    /\ (first = [] \/ first = frame 1 []).
Proof.
  intros Hs. destruct (_send_message_tx now 1 [] c s Hs) as (f & k & H & Hf).
  exists f, k. split; [|exact Hf]. unfold _send_unchoke.
  destruct (_send_message now 1 [] c) as [[] c']; exact H.
Qed.

Lemma quiet_tx c s :
  socket c = Some s ->
  exists first k,
    socket c = Some (Tcp (rx s) (tx s ++ first) k) /\ answer_message first.
Proof.
  intros Hs. exists [], (tx_left s). split; [|left; reflexivity].
  rewrite Hs. destruct s. cbn [rx tx tx_left]. rewrite app_nil_r.
  reflexivity.
Qed.

Lemma bitfield_interest_tx now i bitfield c pm s :
  socket c = Some s ->
  exists first k,
    socket (bitfield_interest now i bitfield c pm).1.2
    = Some (Tcp (rx s) (tx s ++ first) k)
    /\ answer_message first.
Proof.
  intros Hs. revert i.
  induction bitfield as [|b rest IH]; intros i; cbn [bitfield_interest].
  - apply quiet_tx. exact Hs.
  - destruct b; [|apply IH].
    destruct (PieceManager.have_pieces pm !! i) as [[|]|];
      [apply IH | | apply quiet_tx; exact Hs].
    destruct (am_interested c); [apply quiet_tx; exact Hs|].
    apply (after_send_tx _ pm s 2 []); [|auto].
    apply _send_interested_tx. exact Hs.
Qed.

Lemma _process_request_tx now readable payload c pm s :
  socket c = Some s ->
  exists first k,
    socket (_process_request now readable payload c pm).1.2
    = Some (Tcp (rx s) (tx s ++ first) k)
    /\ answer_message first.
Proof.
  intros Hs. unfold _process_request.
  destruct (am_choking c); [apply quiet_tx; exact Hs|].
  destruct (length payload <? 12); [apply quiet_tx; exact Hs|].
  destruct (PieceManager.have_pieces pm !! _) as [[|]|];
    [|apply quiet_tx; exact Hs|apply quiet_tx; exact Hs].
  destruct (PieceManager.piece_files pm !! _) as [content|];
    [|apply quiet_tx; exact Hs].
  destruct readable; cbn [negb]; [|apply quiet_tx; exact Hs].
  destruct (negb _); [apply quiet_tx; exact Hs|].
  unfold _send_piece.
  destruct (int_to_bytes4 _) as [index_bytes|];
    [|apply quiet_tx; exact Hs].
  destruct (int_to_bytes4 _) as [begin_bytes|];
    [|apply quiet_tx; exact Hs].
  match goal with
  | |- context [_send_message now 7 ?p c] =>
      destruct (_send_message_tx now 7 p c s Hs) as (f & k & H & Hf);
      destruct (_send_message now 7 p c) as [[] c']
  end; exists f, k; (split; [exact H|]);
    (destruct Hf as [-> | ->];
     [left; reflexivity
     | right; eexists 7, _; split; [auto | reflexivity]]).
Qed.

Lemma handle_tx e msg_id payload c pm s :
  socket c = Some s ->
  exists first k,
    socket (handle e msg_id payload c pm).1.2
    = Some (Tcp (rx s) (tx s ++ first) k)
    /\ answer_message first.
Proof.
  intros Hs.
  assert (forall c', socket c' = socket c ->
            exists first k,
              socket c' = Some (Tcp (rx s) (tx s ++ first) k)
              /\ answer_message first) as Hq.
  { intros c' E. apply quiet_tx. congruence. }
  unfold handle.
  destruct msg_id as [|[|[|[|[|[|[|[|n]]]]]]]];
    try (apply Hq; reflexivity).
  - (* interested *)
    destruct (am_choking _); [|apply Hq; reflexivity].
    apply (after_send_tx _ pm s 1 []); [|auto].
    apply _send_unchoke_tx. exact Hs.
  - (* have *)
    destruct payload as [body|]; [|apply Hq; reflexivity].
    case_bool_decide; [|apply Hq; reflexivity].
    destruct (PieceManager.have_pieces pm !! _) as [[|]|];
      try (apply Hq; reflexivity).
    destruct (am_interested _); [apply Hq; reflexivity|].
    apply (after_send_tx _ pm s 2 []); [|auto].
    apply _send_interested_tx. exact Hs.
  - (* bitfield *)
    destruct payload as [body|]; [|apply Hq; reflexivity].
    apply bitfield_interest_tx.
    unfold _process_bitfield. destruct (_ <? _); exact Hs.
  - (* request *)
    destruct payload as [body|].
    + destruct (_process_request_tx (t_sent e) (readable e) body c pm s Hs)
        as (f & k & H & Hf).
      exists f, k. split; [|exact Hf].
      destruct (_process_request (t_sent e) (readable e) body c pm)
        as [[[] c1] pm1]; exact H.
    + destruct (am_choking c); apply Hq; reflexivity.
  - (* piece *)
    destruct payload as [body|]; [|apply Hq; reflexivity].
    destruct (length body <? 8); [apply Hq; reflexivity|].
    destruct (PieceManager.receive_piece _ _ _ pm) as [[|] pm1];
      apply Hq; reflexivity.
Qed.

(** X24.  A turn of the receive loop never tells the peer which pieces we
    hold: whatever message comes in, what is written in answer is at most one
    [unchoke], [interested] or [piece] message and a keep-alive, never a
    [have] or a [bitfield]; and nothing more is read. *)
Theorem dispatch_never_announces e msg_id payload c pm s s' :
  socket c = Some s ->
  socket (dispatch e msg_id payload c pm).1.2 = Some s' ->
  rx s' = rx s /\ exists w, tx s' = tx s ++ w /\ reply w.
Proof.
  intros Hs. unfold dispatch.
  destruct (handle_tx e msg_id payload (set_last_activity (t_frame e) c) pm s
              Hs) as (first & k & H1 & Hf).
  destruct (handle e msg_id payload (set_last_activity (t_frame e) c) pm)
    as [[fl c1] pm1]. cbn [fst snd] in H1.
  assert (socket c1 = Some s' ->
          rx s' = rx s /\ exists w, tx s' = tx s ++ w /\ reply w) as Hplain.
  { rewrite H1. intros [= <-]. split; [reflexivity|].
    exists first. split; [reflexivity|].
    exists first, []. rewrite app_nil_r. auto. }
  destruct fl; cbn [fst snd]; try exact Hplain.
  destruct (Qle_bool _ _); cbn [fst snd]; [exact Hplain|].
  unfold _send_keep_alive.
  destruct (connected c1); cbn [negb snd]; [|exact Hplain].
  rewrite H1. unfold sendall. cbn [tx_left rx tx].
  destruct k as [|k']; cbn [snd].
  - discriminate.
  - cbn [socket set_last_activity set_socket]. intros [= <-].
    split; [reflexivity|]. exists (first ++ to_bytes4 0).
    split; [cbn [tx]; rewrite app_assoc; reflexivity|].
    exists first, (to_bytes4 0). auto.
Qed.

End SilenceFacts.

(** ** Counting what was downloaded *)

Section CountingFacts.

Import PieceManager.

Lemma receive_piece_accepted_iff io i data pm :
  (receive_piece io i data pm).1 = true
  <-> length data <= piece_length pm
      /\ verify_piece pm i data = true
      /\ can_write io = true
      /\ i < length (have_pieces pm)
      /\ (forallb id (<[i:=true]> (have_pieces pm)) = true ->
          can_assemble io = true
          /\ (files pm = [] \/ 0 < piece_length pm)).
Proof.
  unfold receive_piece.
  destruct (piece_length pm <? length data) eqn:El.
  { apply Nat.ltb_lt in El. split; [discriminate | lia]. }
  apply Nat.ltb_ge in El.
  destruct (verify_piece pm i data); cbn [negb];
    [|split; [discriminate | intros (_ & ? & _); discriminate]].
  destruct (can_write io); cbn [negb];
    [|split; [discriminate | intros (_ & _ & ? & _); discriminate]].
  cbn [have_pieces set_disk].
  case_bool_decide as Hi;
    [|split; [discriminate | intros (_ & _ & _ & ? & _); lia]].
  cbv zeta.
  cbn [have_pieces set_bytes_downloaded set_requested_pieces set_have_pieces
       set_disk].
  destruct (forallb id (<[i:=true]> (have_pieces pm))) eqn:Eall.
  2: { split; [|reflexivity]. intros _.
       repeat split; auto; try lia; discriminate. }
  destruct (can_assemble io).
  2: { split; [discriminate|]. intros (_ & _ & _ & _ & H).
       destruct (H eq_refl). discriminate. }
  unfold _assemble_files.
  cbn [files piece_length set_bytes_downloaded set_requested_pieces
       set_have_pieces set_disk].
  destruct (files pm) as [|f fs].
  { split; [|reflexivity]. intros _. repeat split; auto; lia. }
  destruct (piece_length pm =? 0) eqn:E0.
  - apply Nat.eqb_eq in E0. split; [discriminate|].
    intros (_ & _ & _ & _ & H). destruct (H eq_refl) as [_ [?|?]];
      [discriminate | lia].
  - apply Nat.eqb_neq in E0. split; [|reflexivity].
    intros _. repeat split; auto; try lia; try (right; lia).
Qed.

Lemma receive_piece_fields io i data pm :
  (receive_piece io i data pm).1 = true ->
  let pm' := (receive_piece io i data pm).2 in
  piece_length pm' = piece_length pm
  /\ files pm' = files pm
  /\ piece_hashes pm' = piece_hashes pm
  /\ have_pieces pm' = <[i:=true]> (have_pieces pm)
  /\ bytes_downloaded pm' = bytes_downloaded pm + length data.
Proof.
  unfold receive_piece.
  destruct (piece_length pm <? length data); [discriminate|].
  destruct (verify_piece pm i data); cbn [negb]; [|discriminate].
  destruct (can_write io); cbn [negb]; [|discriminate].
  case_bool_decide; [|discriminate]. cbv zeta.
  destruct (forallb id _); [|intros _; repeat split].
  destruct (can_assemble io); [|discriminate].
  unfold _assemble_files. simpl.
  destruct (files pm) eqn:Ef;
    [intros _; simpl; rewrite ?Ef; repeat split|].
  destruct (piece_length pm =? 0) eqn:E0; simpl; [discriminate|].
  intros _. rewrite ?Ef. repeat split.
Qed.

(** X25.  [receive_piece] does not look whether it holds the piece already:
    a piece that it accepted is accepted again when it arrives again, and
    its bytes are counted again, so that [bytes_left] can reach zero while
    pieces are missing. *)
Theorem duplicate_piece_is_counted_again io i data pm :
  (receive_piece io i data pm).1 = true ->
  let pm1 := (receive_piece io i data pm).2 in
  let pm2 := (receive_piece io i data pm1).2 in
  (receive_piece io i data pm1).1 = true
  /\ have_pieces pm2 = have_pieces pm1
  /\ bytes_downloaded pm2 = bytes_downloaded pm + 2 * length data
  /\ bytes_left pm2 = total_size pm - (bytes_downloaded pm + 2 * length data).
Proof.
  intros Hacc pm1 pm2.
  destruct (receive_piece_fields io i data pm Hacc)
    as (Hpl & Hfiles & Hhash & Hhave & Hbytes).
  fold pm1 in Hpl, Hfiles, Hhash, Hhave, Hbytes.
  apply receive_piece_accepted_iff in Hacc as (Hlen & Hver & Hw & Hi & Hasm).
  assert ((receive_piece io i data pm1).1 = true) as Hacc1.
  { apply receive_piece_accepted_iff.
    rewrite Hpl, Hfiles, Hhave, length_insert, list_insert_insert_eq.
    repeat split; auto.
    - unfold verify_piece in *. rewrite Hhash. exact Hver.
    - apply Hasm. assumption.
    - apply Hasm. assumption. }
  destruct (receive_piece_fields io i data pm1 Hacc1)
    as (Hpl2 & Hfiles2 & _ & Hhave2 & Hbytes2).
  fold pm2 in Hpl2, Hfiles2, Hhave2, Hbytes2.
  split; [exact Hacc1|]. split.
  { rewrite Hhave2, Hhave, list_insert_insert_eq. reflexivity. }
  split; [lia|].
  unfold bytes_left, total_size. rewrite Hfiles2, Hfiles, Hbytes2, Hbytes.
  f_equal. lia.
Qed.

End CountingFacts.

(** ** A piece that comes after the download is complete *)

Section LatePieceFacts.

Import PieceManager.





End LatePieceFacts.

(** ** The connection loop *)

Section ConnectionLoopFacts.

Import ConnectionManager.

Variable decode : bytes -> string.

Lemma no_retries_insert rc pid :
  no_retries rc -> no_retries (<[pid := 0]> rc).
Proof.
  intros H p n. destruct (decide (p = pid)) as [->|Hne].
  - rewrite lookup_insert_eq. congruence.
  - rewrite lookup_insert_ne by congruence. apply H.
Qed.

(** X27.  The connection loop takes every attempt for a success.  While no
    failure is on the count, which is so from the start, a peer that is not
    marked as connected is dialled and then marked as connected whatever
    [connect] returned, also when the dial failed and the session is closed;
    and again no failure is on the count, so the back-off after three
    failures never begins. *)
Theorem attempt_is_taken_for_success net t_retry now later retry_counter
    peer_id peer peer' retry_counter' :
  no_retries retry_counter ->
  connected peer = false ->
  connection_attempt decode net t_retry now later retry_counter peer_id peer
  = Some (peer', retry_counter') ->
  connected peer' = true
  /\ handler peer'
     = (PeerConnection.connect decode net now later (handler peer)).2
  /\ no_retries retry_counter'
  /\ (PeerConnection.connected (handler peer) = false ->
      net = None ->
      PeerConnection.connected (handler peer') = false).
Proof.
  intros Hno Hc. unfold connection_attempt. rewrite Hc.
  set (rc1 := match retry_counter !! peer_id with
              | None => <[peer_id := 0]> retry_counter
              | Some _ => retry_counter
              end).
  assert (no_retries rc1) as Hno1.
  { unfold rc1. destruct (retry_counter !! peer_id);
      [exact Hno | apply no_retries_insert; exact Hno]. }
  assert (default 0 (rc1 !! peer_id) = 0) as ->.
  { destruct (rc1 !! peer_id) as [n|] eqn:E; [|reflexivity].
    simpl. exact (Hno1 _ _ E). }
  cbn [Nat.leb].
  destruct (PeerConnection.connect decode net now later (handler peer))
    as [[b|] h] eqn:Econ; [|discriminate].
  intros [= <- <-]. cbn [connected handler snd].
  split; [reflexivity|]. split; [reflexivity|].
  split; [apply no_retries_insert; exact Hno1|].
  intros Hh ->.
  destruct (connect_fails decode None now later (handler peer) Hh)
    as (_ & Hf & _); [discriminate|].
  rewrite Econ in Hf. exact Hf.
Qed.

End ConnectionLoopFacts.

(** ** The properties on the small torrent *)

Section Witnesses.

Import PeerConnection.

Lemma sent_message_is_dispatched_witness :
  receiver_turn Sample.unit_env (Scene.online (frame 1 [])) Sample.fresh
  = dispatch Sample.unit_env 1 (Some [])
      (set_socket (Some (Tcp [] [] 1)) (Scene.online (frame 1 [])))
      Sample.fresh.
Proof.
  apply (sent_message_is_dispatched 0 Sample.unit_env (Scene.online [])
           (_send_message 0 1 [] (Scene.online [])).2
           (Scene.online (frame 1 [])) Sample.fresh
           (Tcp [] [] 1) (Tcp [] (frame 1 []) 0) (Tcp (frame 1 []) [] 1)
           1 [] []).
  - reflexivity.
  - reflexivity.
  - reflexivity.
  - reflexivity.
  - reflexivity.
  - lia.
  - reflexivity.
Defined.

Lemma request_is_served_witness :
  _process_request 0 true (to_bytes4 1 ++ to_bytes4 0 ++ to_bytes4 2)
    Scene.uploader Scene.seeded
  = (Sent,
     set_bytes_uploaded (bytes_uploaded Scene.uploader + 2)
       (set_last_activity 0
          (set_socket
             (Some (Tcp [] ([] ++ frame 7 (to_bytes4 1 ++ to_bytes4 0
                                             ++ take 2 (drop 0 Sample.piece1)))
                      (1 - 1))) Scene.uploader)),
     PieceManager.set_bytes_uploaded
       (PieceManager.bytes_uploaded Scene.seeded + 2) Scene.seeded).
Proof.
  apply (request_is_served 0 Scene.uploader Scene.seeded (Tcp [] [] 1) 1 0 2
           Sample.piece1).
  - reflexivity.
  - reflexivity.
  - reflexivity.
  - vm_compute. lia.
  - reflexivity.
  - vm_compute. reflexivity.
  - vm_compute. lia.
  - reflexivity.
  - reflexivity.
  - reflexivity.
Defined.

Lemma request_is_dropped_witness :
  _process_request 0 true (to_bytes4 1 ++ to_bytes4 0 ++ to_bytes4 2)
    (Scene.online []) Scene.seeded
  = (NotSent, Scene.online [], Scene.seeded).
Proof.
  apply request_is_dropped. left. reflexivity.
Defined.

Lemma piece_blocks_cover_witness :
  exists blocks,
    piece_blocks 1 4 = Returns blocks
    /\ sum_list (snd <$> blocks) = 4
    /\ forall k i begin length_,
         blocks !! k = Some (i, begin, length_) ->
         i = 1
         /\ begin = sum_list (snd <$> take k blocks)
         /\ 0 < length_ <= block_limit.
Proof. apply (piece_blocks_cover 1 4). lia. Defined.

End Witnesses.

Section StoreWitnesses.

Import PieceManager.

Lemma init_trusts_piece_files_witness :
  have_pieces (__init__ 4 2 [("f.bin", 6)] {[0 := Sample.piece0]} ∅) !! 0
  = Some (bool_decide ([("f.bin", 6)] <> [])
          && bool_decide (is_Some (({[0 := Sample.piece0]} : gmap nat bytes)
                                     !! 0)))
  /\ requested_pieces (__init__ 4 2 [("f.bin", 6)] {[0 := Sample.piece0]} ∅)
     = ∅
  /\ piece_hashes (__init__ 4 2 [("f.bin", 6)] {[0 := Sample.piece0]} ∅)
     = [].
Proof.
  apply (init_trusts_piece_files 4 2 [("f.bin", 6)] {[0 := Sample.piece0]}
           ∅ 0).
  lia.
Defined.

Lemma held_piece_is_final_witness :
  have_pieces Scene.complete !! 1 = Some true
  /\ forall r peer_has_pieces j pm'',
       get_next_request r peer_has_pieces Scene.complete
       = Returns (Some j, pm'') ->
       j <> 1.
Proof.
  apply (held_piece_is_final Scene.seeded Scene.complete 1).
  - vm_compute. reflexivity.
  - apply evolves_receive_piece, evolves_set_piece_hashes.
    apply (evolves_get_next_request _ Scene.seeded 0 [true; true] (Some 0)).
    + apply evolves_refl.
    + vm_compute. reflexivity.
Defined.

Lemma refused_piece_is_requested_again_witness :
  (receive_piece Sample.disk_ok 1 [x00] Sample.asked).1 = false
  /\ exists r pm',
       get_next_request r [true; true]
         (receive_piece Sample.disk_ok 1 [x00] Sample.asked).2
       = Returns (Some 1, pm').
Proof.
  apply (refused_piece_is_requested_again Sample.disk_ok Sample.asked 1 [x00]
           (SHA1.hexdigest Sample.piece1) [true; true]).
  - reflexivity.
  - vm_compute. lia.
  - reflexivity.
  - reflexivity.
  - vm_compute. discriminate.
  - vm_compute. lia.
  - reflexivity.
Defined.



Lemma pieces_hash_of_payload_witness :
  metainfo_manager.piece_count [Sample.piece0; Sample.piece1] 4
  = Returns
      (length (metainfo_manager.calculate_pieces_hash
                 [Sample.piece0; Sample.piece1] 4))
  /\ forall i,
       i < length (metainfo_manager.calculate_pieces_hash
                     [Sample.piece0; Sample.piece1] 4) ->
       metainfo_manager.calculate_pieces_hash
         [Sample.piece0; Sample.piece1] 4 !! i
       = Some (SHA1.hexdigest
                 (piece_of 4 (concat [Sample.piece0; Sample.piece1]) i)).
Proof. apply (pieces_hash_of_payload [Sample.piece0; Sample.piece1] 4). lia. Defined.

Lemma cut_piece_is_accepted_witness :
  (receive_piece Sample.disk_ok 1
     (piece_of (piece_length Sample.fresh)
        (concat [[x61; x62; x63]; [x64; x61; x62]]) 1) Sample.fresh).1
  = true.
Proof.
  apply (cut_piece_is_accepted Sample.disk_ok
           [[x61; x62; x63]; [x64; x61; x62]] 1 Sample.fresh).
  - vm_compute. lia.
  - vm_compute. reflexivity.
  - vm_compute. lia.
  - reflexivity.
  - reflexivity.
Defined.

End StoreWitnesses.

Section TrackerWitnesses.

Import state_manager.

Lemma manage_peer_keeps_distinct_witness :
  distinct_peers
    (manage_peer Scene.no_address (Scene.announce "started" Scene.bob)
       {["c0ffee" := [Scene.alice]]}).2.
Proof.
  apply manage_peer_keeps_distinct.
  intros h swarm H. apply lookup_singleton_Some in H as [_ <-].
  apply NoDup_singleton.
Defined.

Lemma started_peer_is_listed_witness :
  exists l,
    (manage_peer Scene.no_address (Scene.announce "" Scene.bob)
       (manage_peer Scene.no_address (Scene.announce "started" Scene.alice)
          ∅).2).1
    = PeerList l
    /\ info (Scene.announce "started" Scene.alice) ∈ l
    /\ (forall p, p ∈ l ->
                  peer_id p <> peer_id (info (Scene.announce "" Scene.bob))).
Proof.
  apply started_peer_is_listed.
  - reflexivity.
  - reflexivity.
  - vm_compute. discriminate.
  - reflexivity.
Defined.

Lemma stopped_peer_is_forgotten_witness :
  exists l,
    (manage_peer Scene.no_address (Scene.announce "started" Scene.bob)
       (manage_peer Scene.no_address (Scene.announce "stopped" Scene.alice)
          {["c0ffee" := [Scene.alice]]}).2).1
    = PeerList l
    /\ (forall p, p ∈ l ->
                  peer_id p
                  <> peer_id (info (Scene.announce "stopped" Scene.alice))).
Proof.
  apply stopped_peer_is_forgotten.
  - reflexivity.
  - reflexivity.
  - reflexivity.
Defined.

Lemma announce_registers_torrent_witness :
  torrents
    (get_stats
       (manage_peer Scene.no_address (Scene.announce "stopped" Scene.alice)
          ∅).2)
  = S (torrents (get_stats ∅)).
Proof. apply announce_registers_torrent. reflexivity. Defined.

End TrackerWitnesses.

Section MessageWitnesses.

Import PeerConnection.

Lemma block_is_taken_for_piece_witness :
  let r :=
    dispatch Sample.unit_env 7
      (Some (to_bytes4 1 ++ to_bytes4 0 ++ [x61])) Sample.waiting
      Sample.unhashed in
  r.1.1 = Continue
  /\ r.2 = (PieceManager.receive_piece (disk Sample.unit_env) 1 [x61]
              Sample.unhashed).2
  /\ PieceManager.have_pieces r.2 !! 1 = Some true
  /\ (forall q, q ∈ request_queue r.1.2 -> q.1.1 <> 1).
Proof.
  apply (block_is_taken_for_piece Sample.unit_env Sample.waiting
           Sample.unhashed 1 0 [x61]).
  - reflexivity.
  - vm_compute. reflexivity.
Defined.

Lemma have_makes_piece_requestable_witness :
  let d :=
    dispatch Sample.unit_env 4 (Some (to_bytes4 1))
      (Sample.session [false; false]) Sample.fresh in
  d.1.1 <> Break
  /\ exists j pm',
       PieceManager.get_next_request 0 (peer_bitfield d.1.2) d.2
       = Returns (Some j, pm')
       /\ wanted Sample.fresh
            (<[int_from_bytes (to_bytes4 1) := true]>
               (peer_bitfield (Sample.session [false; false]))) j.
Proof.
  apply (have_makes_piece_requestable Sample.unit_env 0
           (Sample.session [false; false]) Sample.fresh (to_bytes4 1)).
  - reflexivity.
  - vm_compute. lia.
  - vm_compute. reflexivity.
  - decide_by_computation.
Defined.

Lemma short_piece_is_not_served_witness :
  exists blocks begin length_,
    piece_blocks 1 4 = Returns blocks
    /\ last blocks = Some (1, begin, length_)
    /\ _process_request 0 true
         (to_bytes4 1 ++ to_bytes4 begin ++ to_bytes4 length_)
         Scene.uploader Scene.seeded
       = (NotSent, Scene.uploader, Scene.seeded).
Proof.
  apply (short_piece_is_not_served 0 true Scene.uploader Scene.seeded 1 4
           Sample.piece1).
  - lia.
  - reflexivity.
  - reflexivity.
  - vm_compute. reflexivity.
  - vm_compute. lia.
Defined.

Lemma request_piece_repeats_witness :
  exists blocks c2,
    piece_blocks 1 (PieceManager.piece_length Sample.fresh) = Returns blocks
    /\ request_queue (request_piece 1 Scene.unchoked Sample.fresh).2
       = reverse blocks ++ request_queue Scene.unchoked
    /\ request_piece 1 (request_piece 1 Scene.unchoked Sample.fresh).2
         Sample.fresh
       = (Returns true, c2)
    /\ request_queue c2
       = reverse blocks ++ reverse blocks ++ request_queue Scene.unchoked.
Proof.
  apply (request_piece_repeats 1 Scene.unchoked Sample.fresh
           (request_piece 1 Scene.unchoked Sample.fresh).2).
  vm_compute. reflexivity.
Defined.

End MessageWitnesses.

Section MagnetWitnesses.

Import magnet_utils.

Lemma magnet_round_trip_witness :
  exists magnet,
    create_magnet quote_ascii "C0FFEE" (Some "my file")
      (Some ["http://localhost:8000/announce"])
    = inr magnet
    /\ parse_magnet unquote_ascii lower_ascii magnet
       = Returns
           ((if bool_decide (["http://localhost:8000/announce"] = [])
             then id
             else <["trackers" := StrList ["http://localhost:8000/announce"]]>)
              (<["name" := Str "my file"]>
                 (<["info_hash" := Str (lower_ascii "C0FFEE")]> ∅))).
Proof.
  apply (magnet_round_trip quote_ascii unquote_ascii lower_ascii).
  - intros s. apply quote_ascii_clean; [reflexivity | discriminate].
  - intros s. apply quote_ascii_clean; [reflexivity | discriminate].
  - apply unquote_quote_ascii.
  - apply unquote_ascii_clean.
  - discriminate.
  - reflexivity.
  - reflexivity.
  - reflexivity.
  - discriminate.
  - repeat constructor. discriminate.
Defined.

End MagnetWitnesses.

Section MoreWitnesses.

Import PieceManager.

Lemma duplicate_piece_is_counted_again_witness :
  let pm1 := (receive_piece Sample.disk_ok 1 Sample.piece1 Sample.asked).2 in
  let pm2 := (receive_piece Sample.disk_ok 1 Sample.piece1 pm1).2 in
  (receive_piece Sample.disk_ok 1 Sample.piece1 pm1).1 = true
  /\ have_pieces pm2 = have_pieces pm1
  /\ bytes_downloaded pm2
     = bytes_downloaded Sample.asked + 2 * length Sample.piece1
  /\ bytes_left pm2
     = total_size Sample.asked
       - (bytes_downloaded Sample.asked + 2 * length Sample.piece1).
Proof.
  apply (duplicate_piece_is_counted_again Sample.disk_ok 1 Sample.piece1
           Sample.asked).
  vm_compute. reflexivity.
Defined.


Lemma dispatch_never_announces_witness :
  PeerConnection.rx (PeerConnection.Tcp [] (frame 1 []) 0)
  = PeerConnection.rx (PeerConnection.Tcp [] [] 1)
  /\ exists w,
       PeerConnection.tx (PeerConnection.Tcp [] (frame 1 []) 0)
       = PeerConnection.tx (PeerConnection.Tcp [] [] 1) ++ w
       /\ reply w.
Proof.
  apply (dispatch_never_announces Sample.unit_env 2 (Some [])
           (Scene.online []) Sample.fresh).
  - reflexivity.
  - vm_compute. reflexivity.
Defined.

End MoreWitnesses.

Section ConnectionLoopWitness.

Import ConnectionManager.

Lemma attempt_is_taken_for_success_witness :
  connected
    (PeerEntry (PeerConnection.close Sample.dialing) true 0 None) = true
  /\ handler (PeerEntry (PeerConnection.close Sample.dialing) true 0 None)
     = (PeerConnection.connect decode_ascii None 0 0
          (handler (PeerEntry Sample.dialing false 0 None))).2
  /\ no_retries (<["-ST0001-bbbbbbbbbbbb" := 0]> ∅)
  /\ (PeerConnection.connected
        (handler (PeerEntry Sample.dialing false 0 None)) = false ->
      (None : option PeerConnection.tcp) = None ->
      PeerConnection.connected
        (handler (PeerEntry (PeerConnection.close Sample.dialing) true 0
                    None)) = false).
Proof.
  apply (attempt_is_taken_for_success decode_ascii None 0 0 0 ∅
           "-ST0001-bbbbbbbbbbbb" (PeerEntry Sample.dialing false 0 None)).
  - intros p n H. rewrite lookup_empty in H. discriminate.
  - reflexivity.
  - reflexivity.
Defined.

End ConnectionLoopWitness.
